(** * Remote-shell proxy and session / command audit: model and properties

    The development follows the server entry point (the [io.on("connection")]
    closure with [handleSSHConnect], the ["ssh-input"] handler, the stream
    handlers and [handleSessionEnd]), the Mongoose models [ServerSession] and
    [Command], and the browser-side [TerminalPage] component.

    Conventions.
    - A JavaScript string is the list of its UTF-16 code units ([list N]).
    - A [Date] is its number of milliseconds ([Z]); [new Date()] reads a
      clock value that the caller of a handler supplies.
    - A field that can be [undefined] is an [option].
    - Every event handler runs to completion before the next event is
      handled; the interleavings that [await] allows inside one handler are
      not part of the model.  The outcome of each [await]ed external call
      (SSH connect, document save, shell request) is an input of the handler.
    - Mongoose documents are in-memory records; [save] copies the record into
      the store under its [_id]. *)

From Stdlib Require Import ZArith NArith Ascii String List Bool Lia.
From Stdlib Require Strings.Byte.
From stdpp Require Import gmap strings list pretty.

Local Open Scope Z_scope.

(* ===================================================================== *)
(** ** JavaScript strings *)
(* ===================================================================== *)

Module JsString.

Abbreviation jsstring := (list N).

(** ASCII literal: the code units of a Rocq string. *)
Definition js (s : string) : jsstring :=
  map N_of_ascii (list_ascii_of_string s).

Definition TAB : N := 9.
Definition LF : N := 10.
Definition VT : N := 11.
Definition FF : N := 12.
Definition CR : N := 13.
Definition LS : N := 8232.   (* U+2028 LINE SEPARATOR *)
Definition PS : N := 8233.   (* U+2029 PARAGRAPH SEPARATOR *)

(** LineTerminator of the language: LF, CR, U+2028, U+2029. *)
Definition is_line_terminator (c : N) : bool :=
  ((c =? LF) || (c =? CR) || (c =? LS) || (c =? PS))%N.

(** WhiteSpace and LineTerminator: what [trim] strips and [\s] matches. *)
Definition is_space (c : N) : bool :=
  ((c =? TAB) || (c =? VT) || (c =? FF) || (c =? 32) || (c =? 160)
   || (c =? 5760) || ((8192 <=? c) && (c <=? 8202)) || (c =? 8239)
   || (c =? 8287) || (c =? 12288) || (c =? 65279)
   || is_line_terminator c)%N.

(** [\w]: ASCII letters, digits and underscore. *)
Definition is_word (c : N) : bool :=
  (((48 <=? c) && (c <=? 57)) || ((65 <=? c) && (c <=? 90))
   || ((97 <=? c) && (c <=? 122)) || (c =? 95))%N.

Fixpoint trimStart (s : jsstring) : jsstring :=
  match s with
  | c :: s' => if is_space c then trimStart s' else s
  | [] => []
  end.

Definition trimEnd (s : jsstring) : jsstring := rev (trimStart (rev s)).

(** [String.prototype.trim]. *)
Definition trim (s : jsstring) : jsstring := trimEnd (trimStart s).

(** [String.prototype.toLowerCase] on the ASCII range; code units from 128
    on are kept as they are (the Unicode case table is not modelled, and no
    statement below depends on it). *)
Definition lower_unit (c : N) : N :=
  if ((65 <=? c) && (c <=? 90))%N then (c + 32)%N else c.

Definition toLowerCase (s : jsstring) : jsstring := map lower_unit s.

(** [s.includes(c)] for a one-unit needle. *)
Definition includes (s : jsstring) (c : N) : bool := existsb (N.eqb c) s.

(** Truthiness of a string: non-empty. *)
Definition nonempty (s : jsstring) : bool :=
  match s with [] => false | _ :: _ => true end.

End JsString.
Import JsString.

(* ===================================================================== *)
(** ** Regular expressions as the classifier writes them *)
(* ===================================================================== *)

Module Regex.

Inductive re : Type :=
| Fail                       (* empty alternation *)
| Eps                        (* empty pattern, [()] *)
| Cls (f : N -> bool)        (* one code unit of a class *)
| Seq (a b : re)
| Alt (a b : re)
| Star (a : re)              (* [a*] *)
| Bol                        (* [^] without the m flag *)
| Eol                        (* [$] without the m flag *)
| WordB.                     (* [\b] *)

Definition Chr (c : N) : re := Cls (N.eqb c).
Definition Dot : re := Cls (fun c => negb (is_line_terminator c)).
Definition Space : re := Cls is_space.
Definition Plus (a : re) : re := Seq a (Star a).
Definition Opt (a : re) : re := Alt a Eps.

Fixpoint lit (w : jsstring) : re :=
  match w with
  | [] => Eps
  | c :: w' => Seq (Chr c) (lit w')
  end.

Fixpoint alts (ws : list jsstring) : re :=
  match ws with
  | [] => Fail
  | [w] => lit w
  | w :: ws' => Alt (lit w) (alts ws')
  end.

Definition word_at (o : option N) : bool :=
  match o with Some c => is_word c | None => false end.

(** Iteration of a starred pattern whose matcher is [m]: stop here, or
    match once more, consuming input, and iterate.  [n] bounds the number
    of iterations. *)
Fixpoint star_loop
         (m : option N -> jsstring -> (option N -> jsstring -> bool) -> bool)
         (k : option N -> jsstring -> bool)
         (n : nat) (p : option N) (s : jsstring) {struct n} : bool :=
  k p s ||
  match n with
  | O => false
  | S n' =>
      m p s (fun p' s' =>
               (length s' <? length s)%nat && star_loop m k n' p' s')
  end.

(** Backtracking matcher in continuation style.  [p] is the code unit just
    before the current position ([None] at the start of the input), [s]
    the rest of the input; [k] receives the position where the match of
    [r] ends. *)
Fixpoint matchk (r : re) (p : option N) (s : jsstring)
         (k : option N -> jsstring -> bool) {struct r} : bool :=
  match r with
  | Fail => false
  | Eps => k p s
  | Cls f =>
      match s with
      | c :: s' => f c && k (Some c) s'
      | [] => false
      end
  | Seq a b => matchk a p s (fun p' s' => matchk b p' s' k)
  | Alt a b => matchk a p s k || matchk b p s k
  | Star a => star_loop (matchk a) k (length s) p s
  | Bol => match p with None => k p s | Some _ => false end
  | Eol => match s with [] => k p s | _ :: _ => false end
  | WordB => xorb (word_at p) (word_at (head s)) && k p s
  end.

Definition match_here (r : re) (p : option N) (s : jsstring) : bool :=
  matchk r p s (fun _ _ => true).

Fixpoint search (r : re) (p : option N) (s : jsstring) : bool :=
  match_here r p s ||
  match s with
  | c :: s' => search r (Some c) s'
  | [] => false
  end.

(** [r.test(s)]: a match starting at some position of [s]. *)
Definition test (r : re) (s : jsstring) : bool := search r None s.

End Regex.
Import Regex.

(* ===================================================================== *)
(** ** JavaScript values carried by the connect request *)
(* ===================================================================== *)

Module Js.

#[local] Unset Elimination Schemes.
Inductive JsVal : Type :=
| JUndefined
| JNull
| JBool (b : bool)
| JNum (z : Z)
| JStr (s : jsstring)
| JObj (props : list (string * JsVal)).
#[local] Set Elimination Schemes.

(** ToBoolean. *)
Definition truthy (v : JsVal) : bool :=
  match v with
  | JUndefined | JNull => false
  | JBool b => b
  | JNum z => negb (z =? 0)
  | JStr s => nonempty s
  | JObj _ => true
  end.

Definition nullish (v : JsVal) : bool :=
  match v with JUndefined | JNull => true | _ => false end.

Fixpoint assoc (k : string) (ps : list (string * JsVal)) : JsVal :=
  match ps with
  | [] => JUndefined
  | (k', v) :: ps' => if String.eqb k k' then v else assoc k ps'
  end.

(** [o.k] for an [o] that is neither [undefined] nor [null]: the own
    property of an object, [undefined] on a primitive. *)
Definition get (o : JsVal) (k : string) : JsVal :=
  match o with
  | JObj ps => assoc k ps
  | _ => JUndefined
  end.

(** [a || b] *)
Definition or_else (a b : JsVal) : JsVal := if truthy a then a else b.

(** ToString, as a template literal applies it. *)
Definition to_string (v : JsVal) : jsstring :=
  match v with
  | JUndefined => js "undefined"
  | JNull => js "null"
  | JBool true => js "true"
  | JBool false => js "false"
  | JNum z => js (pretty z)
  | JStr s => s
  | JObj _ => js "[object Object]"
  end.

End Js.
Import Js.

(* ===================================================================== *)
(** ** The [Command] model: classification and danger check *)
(* ===================================================================== *)

Module CommandModel.

(** The [enum] of [command_type]. *)
Inductive CommandType : Type :=
| system | file | network | process | custom | unknown.

(** A [Command] document.  References and the server address are kept as
    the values the handler passes in. *)
Record Command : Type := mkCommand {
  _id : N;
  session_id : N;
  user_id : JsVal;
  server_ip : JsVal;
  command : jsstring;
  output : jsstring;
  executed_at : Z;
  command_type : CommandType;
  is_dangerous : bool;
  isNew : bool
}.

Definition set_command_type (t : CommandType) (c : Command) : Command :=
  mkCommand (_id c) (session_id c) (user_id c) (server_ip c) (command c)
            (output c) (executed_at c) t (is_dangerous c) (isNew c).

Definition set_is_dangerous (d : bool) (c : Command) : Command :=
  mkCommand (_id c) (session_id c) (user_id c) (server_ip c) (command c)
            (output c) (executed_at c) (command_type c) d (isNew c).

Definition set_output (o : jsstring) (c : Command) : Command :=
  mkCommand (_id c) (session_id c) (user_id c) (server_ip c) (command c)
            o (executed_at c) (command_type c) (is_dangerous c) (isNew c).

Definition set_isNew (b : bool) (c : Command) : Command :=
  mkCommand (_id c) (session_id c) (user_id c) (server_ip c) (command c)
            (output c) (executed_at c) (command_type c) (is_dangerous c) b.

(** [new Command({session_id, user_id, server_ip, command, executed_at,
    output: ""})] with the schema defaults. *)
Definition newCommand (id sid : N) (uid ip : JsVal) (cmd : jsstring)
  (now : Z)
  : Command :=
  mkCommand id sid uid ip cmd [] now unknown false true.

(** [/^(w1|w2|...)(\s|$)/] *)
Definition verb_re (verbs : list string) : re :=
  Seq Bol (Seq (alts (map js verbs)) (Alt Space Eol)).

Definition system_verbs : list string :=
  ["ls"; "pwd"; "cd"; "whoami"; "id"; "uname"; "uptime"; "date"; "cal";
   "history"]%string.
Definition file_verbs : list string :=
  ["cat"; "less"; "more"; "head"; "tail"; "grep"; "find"; "locate";
   "which"; "file"; "stat"; "touch"; "mkdir"; "rmdir"; "cp"; "mv"; "ln";
   "chmod"; "chown"; "chgrp"]%string.
Definition network_verbs : list string :=
  ["ping"; "wget"; "curl"; "ssh"; "scp"; "ftp"; "telnet"; "netstat"; "ss";
   "lsof"; "iptables"]%string.
Definition process_verbs : list string :=
  ["ps"; "top"; "htop"; "jobs"; "kill"; "killall"; "nohup"; "screen";
   "tmux"; "bg"; "fg"]%string.

(** The type [classifyCommand] assigns to the text [cmd], which is
    already lowercased and trimmed. *)
Definition classify_text (cmd : jsstring) : CommandType :=
  if test (verb_re system_verbs) cmd then system
  else if test (verb_re file_verbs) cmd then file
  else if test (verb_re network_verbs) cmd then network
  else if test (verb_re process_verbs) cmd then process
  else custom.

(** [commandSchema.methods.classifyCommand] *)
Definition classifyCommand (c : Command) : Command :=
  let cmd := trim (toLowerCase (command c)) in
  set_command_type (classify_text cmd) c.

Definition device_names : list string :=
  ["null"; "zero"; "random"; "urandom"]%string.

(** The entries of the array [dangerousPatterns].  In the fork-bomb
    pattern [()] is an empty group and the braces, which start no
    quantifier, stand for themselves. *)

(** [/^rm\s+-rf?\s+\//] *)
Definition rm_root_re : re :=
  Seq Bol (Seq (lit (js "rm")) (Seq (Plus Space) (Seq (lit (js "-r"))
    (Seq (Opt (Chr 102)) (Seq (Plus Space) (Chr 47)))))).
(** [/^dd\s+if=/] *)
Definition dd_re : re :=
  Seq Bol (Seq (lit (js "dd")) (Seq (Plus Space) (lit (js "if=")))).
(** [/^mkfs/] *)
Definition mkfs_re : re := Seq Bol (lit (js "mkfs")).
(** [/^fdisk/] *)
Definition fdisk_re : re := Seq Bol (lit (js "fdisk")).
(** [/^:(){ :\|:& };:/] *)
Definition fork_bomb_re : re :=
  Seq Bol (Seq (Chr 58) (Seq Eps (lit (js "{ :|:& };:")))).
(** [/^sudo\s+rm/] *)
Definition sudo_rm_re : re :=
  Seq Bol (Seq (lit (js "sudo")) (Seq (Plus Space) (lit (js "rm")))).
(** [/\bsudo\b.*\bpasswd\b/] *)
Definition sudo_passwd_re : re :=
  Seq WordB (Seq (lit (js "sudo")) (Seq WordB (Seq (Star Dot)
    (Seq WordB (Seq (lit (js "passwd")) WordB))))).
(** [/^chmod\s+777/] *)
Definition chmod_777_re : re :=
  Seq Bol (Seq (lit (js "chmod")) (Seq (Plus Space) (lit (js "777")))).
(** [/^curl.*\|\s*sh$/] and [/^wget.*\|\s*sh$/] *)
Definition pipe_to_shell_re (tool : string) : re :=
  Seq Bol (Seq (lit (js tool)) (Seq (Star Dot) (Seq (Chr 124)
    (Seq (Star Space) (Seq (lit (js "sh")) Eol))))).
(** [/\/dev\/(null|zero|random|urandom).*>/] *)
Definition device_redirect_re : re :=
  Seq (lit (js "/dev/")) (Seq (alts (map js device_names))
    (Seq (Star Dot) (Chr 62))).

Definition dangerousPatterns : list re :=
  [ rm_root_re; dd_re; mkfs_re; fdisk_re; fork_bomb_re; sudo_rm_re;
    sudo_passwd_re; chmod_777_re; pipe_to_shell_re "curl";
    pipe_to_shell_re "wget"; device_redirect_re ].

(** [dangerousPatterns.some(pattern => pattern.test(cmd))] *)
Definition dangerous_text (cmd : jsstring) : bool :=
  existsb (fun pattern => test pattern cmd) dangerousPatterns.

(** [commandSchema.methods.checkIfDangerous] *)
Definition checkIfDangerous (c : Command) : Command :=
  let cmd := trim (toLowerCase (command c)) in
  set_is_dangerous (dangerous_text cmd) c.

(** [commandSchema.pre('save', ...)] *)
Definition preSave (c : Command) : Command :=
  if nonempty (command c) && isNew c
  then checkIfDangerous (classifyCommand c)
  else c.

(** A command document as the input handler creates and first saves it. *)
Definition created (cmd : jsstring) : Command :=
  preSave (newCommand 0 0 JUndefined JUndefined cmd 0).

End CommandModel.

(* ===================================================================== *)
(** ** [Buffer.prototype.toString()]: UTF-8 decoding of one chunk *)
(* ===================================================================== *)

Module Utf8.

(** State of the decoder between two bytes. *)
Record DecState : Type := mkDec {
  needed : N;        (* continuation bytes still expected *)
  seen : N;          (* continuation bytes read of this sequence *)
  code_point : N;
  lower : N;         (* accepted range of the next continuation byte *)
  upper : N
}.

Definition init : DecState := mkDec 0 0 0 0x80 0xBF.

Definition REPLACEMENT : N := 0xFFFD.

(** The UTF-16 code units of a code point. *)
Definition units (cp : N) : jsstring :=
  if (cp <? 0x10000)%N then [cp]
  else let c := (cp - 0x10000)%N in
       [(0xD800 + c / 0x400)%N; (0xDC00 + c mod 0x400)%N].

(** A byte read when no sequence is open. *)
Definition lead (b : N) : jsstring * DecState :=
  if (b <=? 0x7F)%N then ([b], init)
  else if ((0xC2 <=? b) && (b <=? 0xDF))%N then
    ([], mkDec 1 0 (N.land b 0x1F) 0x80 0xBF)
  else if ((0xE0 <=? b) && (b <=? 0xEF))%N then
    ([], mkDec 2 0 (N.land b 0xF)
               (if (b =? 0xE0)%N then 0xA0 else 0x80)%N
               (if (b =? 0xED)%N then 0x9F else 0xBF)%N)
  else if ((0xF0 <=? b) && (b <=? 0xF4))%N then
    ([], mkDec 3 0 (N.land b 0x7)
               (if (b =? 0xF0)%N then 0x90 else 0x80)%N
               (if (b =? 0xF4)%N then 0x8F else 0xBF)%N)
  else ([REPLACEMENT], init).

(** One byte: a continuation byte extends the open sequence; any other
    byte closes it with U+FFFD and is read again as a first byte. *)
Definition step (st : DecState) (b : N) : jsstring * DecState :=
  if (needed st =? 0)%N then lead b
  else if ((lower st <=? b) && (b <=? upper st))%N then
    let cp := N.lor (N.shiftl (code_point st) 6) (N.land b 0x3F) in
    if (seen st + 1 =? needed st)%N then (units cp, init)
    else ([], mkDec (needed st) (seen st + 1) cp 0x80 0xBF)
  else let '(out, st') := lead b in (REPLACEMENT :: out, st').

Fixpoint run (st : DecState) (bs : list Byte.byte) : jsstring * DecState :=
  match bs with
  | [] => ([], st)
  | b :: bs' =>
      let '(o1, st1) := step st (Byte.to_N b) in
      let '(o2, st2) := run st1 bs' in
      (o1 ++ o2, st2)
  end.

(** End of the buffer: an open sequence becomes U+FFFD. *)
Definition flush (st : DecState) : jsstring :=
  if (needed st =? 0)%N then [] else [REPLACEMENT].

Definition toString (bs : list Byte.byte) : jsstring :=
  let '(o, st) := run init bs in o ++ flush st.

(** The chunk does not end inside a multi-byte sequence. *)
Definition complete (bs : list Byte.byte) : Prop :=
  snd (run init bs) = init.

Definition is_ascii (bs : list Byte.byte) : Prop :=
  Forall (fun b => (Byte.to_N b <= 0x7F)%N) bs.

End Utf8.

(* ===================================================================== *)
(** ** The [ServerSession] model *)
(* ===================================================================== *)

Module SessionModel.

(** The [enum] of [status]. *)
Inductive Status : Type := active | disconnected | timeout.

Record ServerSession : Type := mkSession {
  _id : N;
  user_id : JsVal;
  server_ip : JsVal;
  server_name : JsVal;
  ssh_username : JsVal;
  login_time : Z;
  logout_time : option Z;
  session_duration : option Z;
  status : Status;
  commands_executed : list N;
  isNew : bool
}.

(** [new ServerSession({user_id, server_ip, server_name, ssh_username,
    login_time, status: "active"})]: the other paths take the schema
    defaults, [session_duration] 0 and no [logout_time]. *)
Definition newSession (id : N) (uid ip name user : JsVal) (now : Z)
  : ServerSession :=
  mkSession id uid ip name user now None (Some 0) active [] true.

Definition set_logout_time (t : option Z) (s : ServerSession)
  : ServerSession :=
  mkSession (_id s) (user_id s) (server_ip s) (server_name s)
            (ssh_username s) (login_time s) t (session_duration s)
            (status s) (commands_executed s) (isNew s).

Definition set_session_duration (d : option Z) (s : ServerSession)
  : ServerSession :=
  mkSession (_id s) (user_id s) (server_ip s) (server_name s)
            (ssh_username s) (login_time s) (logout_time s) d
            (status s) (commands_executed s) (isNew s).

Definition set_status (st : Status) (s : ServerSession) : ServerSession :=
  mkSession (_id s) (user_id s) (server_ip s) (server_name s)
            (ssh_username s) (login_time s) (logout_time s)
            (session_duration s) st (commands_executed s) (isNew s).

Definition push_command (c : N) (s : ServerSession) : ServerSession :=
  mkSession (_id s) (user_id s) (server_ip s) (server_name s)
            (ssh_username s) (login_time s) (logout_time s)
            (session_duration s) (status s) (commands_executed s ++ [c])
            (isNew s).

Definition set_isNew (b : bool) (s : ServerSession) : ServerSession :=
  mkSession (_id s) (user_id s) (server_ip s) (server_name s)
            (ssh_username s) (login_time s) (logout_time s)
            (session_duration s) (status s) (commands_executed s) b.

(** [Math.floor((logout - login) / 1000)] *)
Definition seconds_between (login logout : Z) : Z :=
  (logout - login) / 1000.

(** [!this.session_duration] *)
Definition duration_falsy (d : option Z) : bool :=
  match d with
  | None => true
  | Some z => z =? 0
  end.

(** [serverSessionSchema.pre('save', ...)] *)
Definition preSave (s : ServerSession) : ServerSession :=
  match logout_time s with
  | Some t =>
      if duration_falsy (session_duration s)
      then set_session_duration (Some (seconds_between (login_time s) t)) s
      else s
  | None => s
  end.

(** [serverSessionSchema.methods.endSession(reason = 'disconnected')] up
    to its [save()], for a reason of the [enum] or none, at the clock
    value [now]. *)
Definition endSession (reason : option Status) (now : Z)
           (s : ServerSession) : ServerSession :=
  set_status (default disconnected reason)
    (set_session_duration (Some (seconds_between (login_time s) now))
       (set_logout_time (Some now) s)).

End SessionModel.

Module C := CommandModel.
Module S := SessionModel.

(* ===================================================================== *)
(** ** The server: one transport connection and the shared stores *)
(* ===================================================================== *)

Module Server.

(** What the server sends to the client over the socket. *)
Inductive SocketEvent : Type :=
| ssh_connected (host username serverName : JsVal)
| ssh_output (output : jsstring)
| ssh_disconnected
| ssh_error (message : jsstring).

(** A value of the [activeSessions] map. *)
Record RegistryEntry : Type := mkEntry {
  sessionId : N;
  userId : JsVal;
  serverIp : JsVal;
  loginTime : Z
}.

(** A shell stream: whether it is destroyed and what was written to it. *)
Record Stream : Type := mkStream {
  destroyed : bool;
  written : list jsstring
}.

(** One registration of the ["ssh-input"] listener: the variables of the
    [handleSSHConnect] call that it closes over. *)
Record InputHandler : Type := mkHandler {
  h_stream : nat;
  h_userData : JsVal;
  h_host : JsVal
}.

(** The variables of the [io.on("connection")] closure, the objects they
    reach, and the process-wide stores. *)
Record State : Type := mkState {
  socket_id : string;
  currentSession : option S.ServerSession;
  commandBuffer : jsstring;
  currentCommand : option C.Command;
  inputHandlers : list InputHandler;
  streams : list Stream;
  emitted : list SocketEvent;            (* oldest first *)
  pendingTimers : nat;
  activeSessions : gmap string RegistryEntry;
  sessionStore : gmap N S.ServerSession; (* the ServerSession collection *)
  commandStore : gmap N C.Command;       (* the Command collection *)
  nextId : N
}.

Definition set_currentSession (v : option S.ServerSession) (st : State) :=
  mkState (socket_id st) v (commandBuffer st) (currentCommand st)
          (inputHandlers st) (streams st) (emitted st) (pendingTimers st)
          (activeSessions st) (sessionStore st) (commandStore st)
          (nextId st).
Definition set_commandBuffer (v : jsstring) (st : State) :=
  mkState (socket_id st) (currentSession st) v (currentCommand st)
          (inputHandlers st) (streams st) (emitted st) (pendingTimers st)
          (activeSessions st) (sessionStore st) (commandStore st)
          (nextId st).
Definition set_currentCommand (v : option C.Command) (st : State) :=
  mkState (socket_id st) (currentSession st) (commandBuffer st) v
          (inputHandlers st) (streams st) (emitted st) (pendingTimers st)
          (activeSessions st) (sessionStore st) (commandStore st)
          (nextId st).
Definition set_inputHandlers (v : list InputHandler) (st : State) :=
  mkState (socket_id st) (currentSession st) (commandBuffer st)
          (currentCommand st) v (streams st) (emitted st)
          (pendingTimers st) (activeSessions st) (sessionStore st)
          (commandStore st) (nextId st).
Definition set_streams (v : list Stream) (st : State) :=
  mkState (socket_id st) (currentSession st) (commandBuffer st)
          (currentCommand st) (inputHandlers st) v (emitted st)
          (pendingTimers st) (activeSessions st) (sessionStore st)
          (commandStore st) (nextId st).
Definition set_emitted (v : list SocketEvent) (st : State) :=
  mkState (socket_id st) (currentSession st) (commandBuffer st)
          (currentCommand st) (inputHandlers st) (streams st) v
          (pendingTimers st) (activeSessions st) (sessionStore st)
          (commandStore st) (nextId st).
Definition set_pendingTimers (v : nat) (st : State) :=
  mkState (socket_id st) (currentSession st) (commandBuffer st)
          (currentCommand st) (inputHandlers st) (streams st) (emitted st)
          v (activeSessions st) (sessionStore st) (commandStore st)
          (nextId st).
Definition set_activeSessions (v : gmap string RegistryEntry) (st : State) :=
  mkState (socket_id st) (currentSession st) (commandBuffer st)
          (currentCommand st) (inputHandlers st) (streams st) (emitted st)
          (pendingTimers st) v (sessionStore st) (commandStore st)
          (nextId st).
Definition set_sessionStore (v : gmap N S.ServerSession) (st : State) :=
  mkState (socket_id st) (currentSession st) (commandBuffer st)
          (currentCommand st) (inputHandlers st) (streams st) (emitted st)
          (pendingTimers st) (activeSessions st) v (commandStore st)
          (nextId st).
Definition set_commandStore (v : gmap N C.Command) (st : State) :=
  mkState (socket_id st) (currentSession st) (commandBuffer st)
          (currentCommand st) (inputHandlers st) (streams st) (emitted st)
          (pendingTimers st) (activeSessions st) (sessionStore st) v
          (nextId st).
Definition set_nextId (v : N) (st : State) :=
  mkState (socket_id st) (currentSession st) (commandBuffer st)
          (currentCommand st) (inputHandlers st) (streams st) (emitted st)
          (pendingTimers st) (activeSessions st) (sessionStore st)
          (commandStore st) v.

(** The state of the closure when a client has just connected. *)
Definition connection (id : string)
           (registry : gmap string RegistryEntry)
           (sessions : gmap N S.ServerSession)
           (commands : gmap N C.Command) (next : N) : State :=
  mkState id None [] None [] [] [] 0%nat registry sessions commands next.

(** *** Handlers as state transformers that may throw *)

Inductive Result (A : Type) : Type :=
| Ok (a : A)
| Throw (message : jsstring).
Arguments Ok {A} a.
Arguments Throw {A} message.

Definition M (A : Type) : Type := State -> Result A * State.

#[global] Instance M_ret : MRet M := fun A a st => (Ok a, st).
#[global] Instance M_bind : MBind M := fun A B f m st =>
  match m st with
  | (Ok a, st') => f a st'
  | (Throw e, st') => (Throw e, st')
  end.

Definition throw {A} (message : jsstring) : M A :=
  fun st => (Throw message, st).

(** [try { body } catch (err) { handler(err.message) }] *)
Definition try_catch {A} (body : M A) (handler : jsstring -> M A) : M A :=
  fun st =>
    match body st with
    | (Ok a, st') => (Ok a, st')
    | (Throw e, st') => handler e st'
    end.

Definition read {A} (f : State -> A) : M A := fun st => (Ok (f st), st).
Definition modify (f : State -> State) : M unit := fun st => (Ok tt, f st).

Definition emit (e : SocketEvent) : M unit :=
  modify (fun st => set_emitted (emitted st ++ [e]) st).

(** The [_id] of a document under construction. *)
Definition fresh : M N :=
  fun st => (Ok (nextId st), set_nextId (nextId st + 1)%N st).

(** Outcome of an [await]ed external call: it resolves, or it rejects
    with an error message. *)
Definition await (outcome : option jsstring) : M unit :=
  match outcome with
  | None => mret tt
  | Some message => throw message
  end.

(** Outcome of [doc.save()]: the document is stored, or the call rejects,
    before or after the user-defined pre-save hook has run. *)
Inductive SaveOutcome : Type :=
| Saved
| Failed (hook_ran : bool) (message : jsstring).

(** [await currentSession.save()] *)
Definition saveCurrentSession (o : SaveOutcome) : M unit :=
  cs ← read currentSession;
  match cs with
  | None => mret tt
  | Some s =>
      match o with
      | Saved =>
          let s' := S.set_isNew false (S.preSave s) in
          modify (fun st =>
            set_sessionStore (<[S._id s' := s']> (sessionStore st))
              (set_currentSession (Some s') st))
      | Failed hook_ran message =>
          modify (set_currentSession
                    (Some (if hook_ran then S.preSave s else s)));;
          throw message
      end
  end.

(** [await doc.save()] on a [Command] document; the result is the
    document itself. *)
Definition saveCommand (o : SaveOutcome) (c : C.Command) : M C.Command :=
  match o with
  | Saved =>
      let c' := C.set_isNew false (C.preSave c) in
      modify (fun st =>
        set_commandStore (<[C._id c' := c']> (commandStore st)) st);;
      mret c'
  | Failed _ message => throw message
  end.

(** *** [handleSSHConnect] *)

(** Outcomes of the external calls of one connect attempt and the clock
    values that its two [new Date()] read. *)
Record ConnectEnv : Type := mkConnectEnv {
  ssh_connect : option jsstring;
  session_save : SaveOutcome;
  request_shell : option jsstring;
  now_login : Z;
  now_registry : Z
}.

(** The [userData] that the four request layouts yield. *)
Definition extractUserData (connectionData : JsVal) : JsVal :=
  if truthy (get connectionData "userId") then
    JObj [("id", get connectionData "userId");
          ("name", get connectionData "userName");
          ("email", get connectionData "userEmail");
          ("registered_id", get connectionData "registeredId");
          ("role", get connectionData "userRole")]%string
  else if truthy (get connectionData "user") then
    let user := get connectionData "user" in
    JObj [("id", get user "id");
          ("name", get user "name");
          ("email", get user "email");
          ("registered_id", get user "registered_id");
          ("role", get user "role")]%string
  else if truthy (get connectionData "user_data") then
    get connectionData "user_data"
  else
    JObj [("id", or_else (get connectionData "user_id")
                         (get connectionData "id"));
          ("name", or_else (get connectionData "user_name")
                           (get connectionData "name"));
          ("email", or_else (get connectionData "user_email")
                            (get connectionData "email"));
          ("registered_id", get connectionData "registered_id");
          ("role", or_else (get connectionData "user_role")
                           (get connectionData "role"))]%string.

Definition missing_parameters : jsstring :=
  js "Missing required connection parameters: host, username, or password".
Definition invalid_user_data : jsstring := js "Missing or invalid user data".
Definition unknown_error : jsstring := js "Unknown SSH connection error".

(** Reading a property of [undefined] or [null] throws a [TypeError]. *)
Definition type_error (v : JsVal) : jsstring :=
  js "Cannot read properties of " ++ to_string v ++ js " (reading 'host')".

(** [await ssh.requestShell()] and the registration of the stream
    listeners: the new stream is the last one of [streams]. *)
Definition requestShell (outcome : option jsstring) : M nat :=
  await outcome;;
  i ← read (fun st => length (streams st));
  modify (fun st => set_streams (streams st ++ [mkStream false []]) st);;
  mret i.

(** The handler of the three connect events.  The port, which defaults
    to 22, only reaches [ssh.connect], whose outcome [env] gives. *)
Definition handleSSHConnect (connectionData : JsVal) (env : ConnectEnv)
  : M unit :=
  try_catch
    (if nullish connectionData then throw (type_error connectionData)
     else
       let host := get connectionData "host" in
       let username := get connectionData "username" in
       let password := get connectionData "password" in
       let serverName :=
         or_else (get connectionData "serverName")
           (or_else (get connectionData "server_name")
              (JStr (js "Server " ++ to_string host))) in
       let userData := extractUserData connectionData in
       if negb (truthy host) || negb (truthy username)
          || negb (truthy password)
       then throw missing_parameters
       else if negb (truthy userData) || negb (truthy (get userData "id"))
       then throw invalid_user_data
       else
         await (ssh_connect env);;
         emit (ssh_connected host username serverName);;
         id ← fresh;
         modify (set_currentSession
                   (Some (S.newSession id (get userData "id") host
                            serverName username (now_login env))));;
         saveCurrentSession (session_save env);;
         modify (fun st =>
           set_activeSessions
             (<[socket_id st :=
                  mkEntry id (get userData "id") host (now_registry env)]>
                (activeSessions st)) st);;
         stream ← requestShell (request_shell env);
         modify (fun st =>
           set_inputHandlers
             (inputHandlers st ++ [mkHandler stream userData host]) st))
    (fun message =>
       emit (ssh_error (if nonempty message then message
                        else unknown_error))).

(** *** [handleSessionEnd] *)

Definition handleSessionEnd (now : Z) (save : SaveOutcome) : M unit :=
  cs ← read currentSession;
  match cs with
  | Some s =>
      try_catch
        (let logoutTime := now in
         let duration := S.seconds_between (S.login_time s) logoutTime in
         modify (set_currentSession
                   (Some (S.set_status S.disconnected
                            (S.set_session_duration (Some duration)
                               (S.set_logout_time (Some logoutTime) s)))));;
         saveCurrentSession save;;
         modify (fun st =>
           set_activeSessions (delete (socket_id st) (activeSessions st))
                              st))
        (fun _ => mret tt)
  | None => mret tt
  end.

(** *** The stream listeners *)

(** [stream.on("data", ...)] *)
Definition onStreamData (data : list Byte.byte) : M unit :=
  let output := Utf8.toString data in
  emit (ssh_output output);;
  modify (fun st =>
    match currentCommand st with
    | Some c =>
        set_currentCommand (Some (C.set_output (C.output c ++ output) c)) st
    | None => st
    end).

(** [stream.on("close", ...)]; the stream that closes is destroyed. *)
Definition onStreamClose (i : nat) (now : Z) (save : SaveOutcome)
  : M unit :=
  modify (fun st =>
    set_streams (alter (fun str => mkStream true (written str)) i
                       (streams st)) st);;
  emit ssh_disconnected;;
  handleSessionEnd now save.

(** [stream.on("error", ...)] *)
Definition onStreamError (message : jsstring) : M unit :=
  emit (ssh_error message).

(** *** The ["ssh-input"] listener *)

Record InputEnv : Type := mkInputEnv {
  command_save : SaveOutcome;
  session_resave : SaveOutcome;
  now : Z
}.

Definition connection_lost : jsstring := js "SSH connection lost".

Definition streamUsable (i : nat) (st : State) : bool :=
  match streams st !! i with
  | Some str => negb (destroyed str)
  | None => false
  end.

(** [stream.write(input)] *)
Definition streamWrite (i : nat) (input : jsstring) : M unit :=
  modify (fun st =>
    set_streams
      (alter (fun str => mkStream (destroyed str) (written str ++ [input]))
             i (streams st)) st).

Definition onSshInput (h : InputHandler) (input : jsstring)
           (env : InputEnv) : M unit :=
  usable ← read (streamUsable (h_stream h));
  if (usable : bool) then
    streamWrite (h_stream h) input;;
    if includes input CR || includes input LF then
      command ← read (fun st => trim (commandBuffer st));
      cs ← read currentSession;
      match cs with
      | Some session =>
          if nonempty command then
            try_catch
              (id ← fresh;
               let newCommand :=
                 C.newCommand id (S._id session) (get (h_userData h) "id")
                              (h_host h) command (now env) in
               saved ← saveCommand (command_save env) newCommand;
               modify (set_currentCommand (Some saved));;
               modify (set_currentSession
                         (Some (S.push_command (C._id saved) session)));;
               saveCurrentSession (session_resave env);;
               modify (fun st =>
                 set_pendingTimers (Datatypes.S (pendingTimers st)) st))
              (fun _ => mret tt)
          else mret tt
      | None => mret tt
      end;;
      modify (set_commandBuffer [])
    else
      modify (fun st => set_commandBuffer (commandBuffer st ++ input) st)
  else
    emit (ssh_error connection_lost).

(** The callback of [setTimeout(..., 2000)]. *)
Definition onCaptureTimer (save : SaveOutcome) : M unit :=
  modify (fun st => set_pendingTimers (pred (pendingTimers st)) st);;
  cc ← read currentCommand;
  match cc with
  | Some c =>
      saveCommand save c;;
      modify (set_currentCommand None)
  | None => mret tt
  end.

(** *** Events of one connection

    [Disconnect] is the ["disconnect"] event of the socket: its listener
    calls [ssh.dispose()], after which the shell streams close and their
    close events arrive as [StreamClose], and then [handleSessionEnd]. *)

Inductive Event : Type :=
| SshConnect (connectionData : JsVal) (env : ConnectEnv)
    (* "ssh-connect", "ssh-connect-enhanced" or "connect-ssh" *)
| SshInput (input : jsstring) (env : InputEnv)
| StreamData (data : list Byte.byte)
| StreamClose (i : nat) (now : Z) (save : SaveOutcome)
| StreamError (message : jsstring)
| UserDisconnect (now : Z) (save : SaveOutcome)
| Disconnect (now : Z) (save : SaveOutcome)
| CaptureTimer (save : SaveOutcome).

(** Every registered ["ssh-input"] listener is called, in the order of
    registration; a listener that rejects does not stop the next one. *)
Fixpoint callInputHandlers (hs : list InputHandler) (input : jsstring)
         (env : InputEnv) : M unit :=
  match hs with
  | [] => mret tt
  | h :: hs' =>
      try_catch (onSshInput h input env) (fun _ => mret tt);;
      callInputHandlers hs' input env
  end.

Definition handle (e : Event) : M unit :=
  match e with
  | SshConnect connectionData env => handleSSHConnect connectionData env
  | SshInput input env =>
      hs ← read inputHandlers;
      callInputHandlers hs input env
  | StreamData data => onStreamData data
  | StreamClose i now save => onStreamClose i now save
  | StreamError message => onStreamError message
  | UserDisconnect now save => handleSessionEnd now save
  | Disconnect now save => handleSessionEnd now save
  | CaptureTimer save => onCaptureTimer save
  end.

Definition step (st : State) (e : Event) : State := snd (handle e st).

Definition run (es : list Event) (st : State) : State :=
  fold_left step es st.

End Server.

(* ===================================================================== *)
(** ** The browser tab: [TerminalPage] and its module-level singletons *)
(* ===================================================================== *)

Module Client.

Inductive ConnectionStatus : Type :=
| initializing | connecting | connected | ssh_connected | reconnecting
| disconnected | error.

(** A terminal widget made by [new Terminal(...)]. *)
Record Terminal : Type := mkTerminal {
  isDisposed : bool;
  opened : bool
}.

(** A transport socket made by [io(SERVER_URL, ...)]. *)
Record Socket : Type := mkSocket {
  sock_connected : bool;      (* [socket.connected] *)
  closed : bool;              (* [disconnect()] was called on it *)
  listeners : list string;    (* the events with a listener *)
  sock_data : JsVal           (* the connection data it was made for *)
}.

(** The module-level variables, the objects made so far, which are named
    by their position in [terminals] and [sockets], and the refs and
    React state that [initializeTerminal] touches. *)
Record State : Type := mkState {
  globalTerminalInstance : option nat;
  globalSocketInstance : option nat;
  globalIsInitialized : bool;
  globalFitAddon : bool;                    (* not [null] *)
  globalInputHandler : option (nat * nat);  (* terminal, socket *)
  globalKeyHandler : option (nat * nat);
  globalEventListenersAttached : bool;
  terminals : list Terminal;
  sockets : list Socket;
  terminalRef : bool;                       (* the DOM node is mounted *)
  terminalInstance : option nat;            (* [terminalInstance.current] *)
  socketRef : option nat;                   (* [socketRef.current] *)
  isInitializedRef : bool;
  connectionTimeoutRef : bool;              (* a warning timer is armed *)
  isConnected : bool;
  connectionStatus : ConnectionStatus;
  resizeListeners : nat
}.

(** A tab in which the module has just been loaded and the component
    mounted. *)
Definition fresh_tab (mounted : bool) : State :=
  mkState None None false false None None false [] [] mounted None None
          false false false initializing 0.

Definition socket_events : list string :=
  ["connect"; "ssh-output"; "ssh-connected"; "ssh-error";
   "ssh-disconnected"; "disconnect"; "connect_error"]%string.

Definition live_terminals (st : State) : list Terminal :=
  filter (fun t => isDisposed t = false) (terminals st).

Definition live_sockets (st : State) : list Socket :=
  filter (fun s => closed s = false) (sockets st).

(** [t.isDisposed] for the terminal named [i]. *)
Definition terminal_disposed (st : State) (i : nat) : bool :=
  match terminals st !! i with
  | Some t => isDisposed t
  | None => false
  end.

(** [globalSocketInstance?.connected], as a boolean. *)
Definition global_socket_connected (st : State) : bool :=
  match globalSocketInstance st with
  | Some i =>
      match sockets st !! i with
      | Some s => sock_connected s
      | None => false
      end
  | None => false
  end.

(** [socket.removeAllListeners(); socket.disconnect()] *)
Definition shut_socket (s : Socket) : Socket :=
  mkSocket false true [] (sock_data s).

(** [term.dispose()] *)
Definition dispose_terminal (t : Terminal) : Terminal :=
  mkTerminal true (opened t).

(** [setupSocketEventListeners(socket, term, data)] *)
Definition setupSocketEventListeners (socket : nat) (st : State) : State :=
  if globalEventListenersAttached st then st
  else
    mkState (globalTerminalInstance st) (globalSocketInstance st)
            (globalIsInitialized st) (globalFitAddon st)
            (globalInputHandler st) (globalKeyHandler st) true
            (terminals st)
            (alter (fun s => mkSocket (sock_connected s) (closed s)
                               (listeners s ++ socket_events) (sock_data s))
                   socket (sockets st))
            (terminalRef st) (terminalInstance st) (socketRef st)
            (isInitializedRef st) (connectionTimeoutRef st)
            (isConnected st) (connectionStatus st) (resizeListeners st).

(** [setupTerminalInputHandlers(term, socket)]: existing handlers are
    disposed and replaced. *)
Definition setupTerminalInputHandlers (term socket : nat) (st : State)
  : State :=
  mkState (globalTerminalInstance st) (globalSocketInstance st)
          (globalIsInitialized st) (globalFitAddon st)
          (Some (term, socket)) (Some (term, socket))
          (globalEventListenersAttached st) (terminals st) (sockets st)
          (terminalRef st) (terminalInstance st) (socketRef st)
          (isInitializedRef st) (connectionTimeoutRef st)
          (isConnected st) (connectionStatus st) (resizeListeners st).

(** The branch of [initializeTerminal] that the singleton check takes
    when an instance exists. *)
Definition reuseExisting (st : State) : State :=
  match globalTerminalInstance st with
  | Some t =>
      if terminalRef st && negb (terminal_disposed st t) then
        mkState (globalTerminalInstance st) (globalSocketInstance st)
                (globalIsInitialized st) (globalFitAddon st)
                (globalInputHandler st) (globalKeyHandler st)
                (globalEventListenersAttached st) (terminals st)
                (sockets st) (terminalRef st)
                (globalTerminalInstance st) (globalSocketInstance st)
                (isInitializedRef st) (connectionTimeoutRef st)
                (global_socket_connected st)
                (if global_socket_connected st then ssh_connected
                 else connected)
                (resizeListeners st)
      else st
  | None => st
  end.

(** The rest of [initializeTerminal]: a widget and a socket are made and
    become the global instances. *)
Definition createInstances (data : JsVal) (st : State) : State :=
  let term := length (terminals st) in
  let newSocket := length (sockets st) in
  let mounted := terminalRef st in
  let old_sockets :=
    match globalSocketInstance st with
    | Some i => alter shut_socket i (sockets st)
    | None => sockets st
    end in
  let st1 :=
    mkState (if mounted then Some term else globalTerminalInstance st)
            (Some newSocket)
            true true
            (globalInputHandler st) (globalKeyHandler st)
            (globalEventListenersAttached st)
            (terminals st ++ [mkTerminal false mounted])
            (old_sockets ++ [mkSocket false false [] data])
            mounted
            (if mounted then Some term else terminalInstance st)
            (Some newSocket)
            true (connectionTimeoutRef st) (isConnected st) connecting
            (Datatypes.S (resizeListeners st)) in
  setupTerminalInputHandlers term newSocket
    (setupSocketEventListeners newSocket st1).

(** [initializeTerminal(data)] *)
Definition initializeTerminal (data : JsVal) (st : State) : State :=
  if globalIsInitialized st then reuseExisting st
  else createInstances data st.

(** [cleanupConnection()], the teardown on unmount and on disconnect. *)
Definition cleanupConnection (st : State) : State :=
  let socks :=
    match globalSocketInstance st with
    | Some i => alter shut_socket i (sockets st)
    | None => sockets st
    end in
  let dispose :=
    match globalTerminalInstance st with
    | Some t => negb (terminal_disposed st t)
    | None => false
    end in
  mkState (if dispose then None else globalTerminalInstance st) None
          false false None None false
          (match globalTerminalInstance st with
           | Some t =>
               if dispose then alter dispose_terminal t (terminals st)
               else terminals st
           | None => terminals st
           end)
          socks (terminalRef st) (terminalInstance st) (socketRef st)
          (isInitializedRef st) false (isConnected st)
          (connectionStatus st) (resizeListeners st).

(** The values of the browser that [connectToSSHServer] reads. *)
Record Browser : Type := mkBrowser {
  userAgent : JsVal;      (* [navigator.userAgent] *)
  windowName : JsVal;     (* [window.name] *)
  referrer : JsVal        (* [document.referrer] *)
}.

(** The payload of the ["ssh-connect"] event that
    [connectToSSHServer(socketInstance, data, term)] emits. *)
Definition sshConnectionData (data : JsVal) (b : Browser) : JsVal :=
  JObj [("host", get data "host");
        ("username", get data "username");
        ("password", get data "password");
        ("port", or_else (get data "port") (JNum 22));
        ("user",
         JObj [("id", get data "userId");
               ("name", get data "userName");
               ("email", get data "userEmail");
               ("registered_id", get data "registeredId");
               ("role", get data "userRole")]);
        ("session",
         JObj [("id", get data "sessionId");
               ("token", get data "token");
               ("connectionTime", get data "connectionTime");
               ("serverName", get data "serverName");
               ("dashboardUrl", get data "dashboardUrl")]);
        ("browser",
         JObj [("userAgent", or_else (get data "browserInfo")
                                     (userAgent b));
               ("windowId", windowName b);
               ("referrer", referrer b)])]%string.

(** [socket.disconnect()] on a socket that keeps its listeners. *)
Definition disconnect_socket (s : Socket) : Socket :=
  mkSocket false true (listeners s) (sock_data s).

(** The socket named [i] is connected and listens to ["disconnect"]:
    [disconnect()] on it runs the listener, at once. *)
Definition disconnect_heard (st : State) (i : nat) : bool :=
  match sockets st !! i with
  | Some s =>
      sock_connected s
      && bool_decide ("disconnect"%string ∈ listeners s)
  | None => false
  end.

(** [handleDisconnect()]: the socket is disconnected, whose
    ["disconnect"] listener updates the status, and the teardown runs.
    What is emitted to the server is not part of the state. *)
Definition handleDisconnect (st : State) : State :=
  cleanupConnection
    (match globalSocketInstance st with
     | Some i =>
         let heard := disconnect_heard st i in
         mkState (globalTerminalInstance st) (globalSocketInstance st)
                 (globalIsInitialized st) (globalFitAddon st)
                 (globalInputHandler st) (globalKeyHandler st)
                 (globalEventListenersAttached st) (terminals st)
                 (alter disconnect_socket i (sockets st))
                 (terminalRef st) (terminalInstance st) (socketRef st)
                 (isInitializedRef st) (connectionTimeoutRef st)
                 (if heard then false else isConnected st)
                 (if heard then disconnected else connectionStatus st)
                 (resizeListeners st)
     | None => st
     end).

(** [handleReconnect()] up to the timer that it arms; the callback of
    the timer is a call of [initializeTerminal(connectionData)]. *)
Definition handleReconnect (connectionData : JsVal) (st : State) : State :=
  if truthy connectionData then
    mkState None None false (globalFitAddon st) None None false
            (match globalTerminalInstance st with
             | Some t => alter dispose_terminal t (terminals st)
             | None => terminals st
             end)
            (match globalSocketInstance st with
             | Some i => alter shut_socket i (sockets st)
             | None => sockets st
             end)
            (terminalRef st) (terminalInstance st) (socketRef st)
            false (connectionTimeoutRef st) (isConnected st)
            reconnecting (resizeListeners st)
  else st.

(** The calls that reach the module-level instances. *)
Inductive Call : Type :=
| Initialize (data : JsVal)
| Cleanup
| UserDisconnect
| Reconnect (connectionData : JsVal).

Definition call (st : State) (c : Call) : State :=
  match c with
  | Initialize data => initializeTerminal data st
  | Cleanup => cleanupConnection st
  | UserDisconnect => handleDisconnect st
  | Reconnect connectionData => handleReconnect connectionData st
  end.

Definition calls (cs : list Call) (st : State) : State :=
  fold_left call cs st.

End Client.

(* ===================================================================== *)
(** ** The format checks of the REST handlers and of the [Serverip] model *)
(* ===================================================================== *)

Module Validators.

(** [[^\s@]] *)
Definition email_unit (c : N) : bool := negb (is_space c || (c =? 64)%N).

(** [/^[^\s@]+@[^\s@]+\.[^\s@]+$/], the [emailRegex] of the registration
    and allowed-email handlers. *)
Definition emailRegex : re :=
  Seq Bol (Seq (Plus (Cls email_unit)) (Seq (Chr 64)
    (Seq (Plus (Cls email_unit)) (Seq (Chr 46)
      (Seq (Plus (Cls email_unit)) Eol))))).

(** [[0-9]] *)
Definition is_digit (c : N) : bool := ((48 <=? c) && (c <=? 57))%N.

(** [[0-9]{1,3}] *)
Definition digits_1_3 : re :=
  Seq (Cls is_digit) (Opt (Seq (Cls is_digit) (Opt (Cls is_digit)))).

(** [(?:[0-9]{1,3}\.)] *)
Definition ip_group : re := Seq digits_1_3 (Chr 46).

(** [/^(?:[0-9]{1,3}\.){3}[0-9]{1,3}$/], the validator of the [ip] path of
    the [Serverip] schema. *)
Definition ip_re : re :=
  Seq Bol (Seq ip_group (Seq ip_group (Seq ip_group (Seq digits_1_3 Eol)))).

Definition ip_validator (v : jsstring) : bool := test ip_re v.

End Validators.

(* ===================================================================== *)
(** ** The REST handlers that read the session registry *)
(* ===================================================================== *)

Module Rest.

(** [sessions.length] in the answer of [GET /api/active-sessions], where
    [sessions] is [Array.from(activeSessions.values())]. *)
Definition activeSessionsCount (registry : gmap string Server.RegistryEntry)
  : nat :=
  size registry.

(** The values that the handler of [GET /api/server-stats] computes
    with. *)
Inductive Val : Type :=
| VUndefined
| VNum (n : N)
| VMap (registry : gmap string Server.RegistryEntry).

(** [v.size] *)
Definition member_size (v : Val) : Val :=
  match v with
  | VMap registry => VNum (N.of_nat (size registry))
  | _ => VUndefined
  end.

(** A [const] of a scope: it exists from the start of its block and has
    no value before its declaration has been evaluated. *)
Inductive Binding : Type :=
| Uninitialized
| Initialized (v : Val).

Definition Scope : Type := list (string * Binding).

Fixpoint binding (x : string) (sc : Scope) : option Binding :=
  match sc with
  | [] => None
  | (y, b) :: sc' => if String.eqb x y then Some b else binding x sc'
  end.

(** The value of the identifier [x], looked for from the innermost scope
    outwards; [None] when the read throws a [ReferenceError]. *)
Fixpoint resolve (x : string) (scopes : list Scope) : option Val :=
  match scopes with
  | [] => None
  | sc :: outer =>
      match binding x sc with
      | Some (Initialized v) => Some v
      | Some Uninitialized => None
      | None => resolve x outer
      end
  end.

Definition declare (names : list string) : Scope :=
  map (fun x => (x, Uninitialized)) names.

Definition initialize (x : string) (v : Val) (sc : Scope) : Scope :=
  map (fun yb => if String.eqb x yb.1 then (yb.1, Initialized v) else yb) sc.

(** The outcomes of the four [Serverip.countDocuments] calls: a count, or
    [None] when the call rejects. *)
Record StatsEnv : Type := mkStatsEnv {
  count_total : option N;
  count_active : option N;
  count_inactive : option N;
  count_maintenance : option N
}.

Inductive StatsResponse : Type :=
| stats (totalServers activeServers inactiveServers maintenanceServers
         activeSessions : Val)               (* 200, [success: true] *)
| stats_failed.    (* 500, ["Failed to fetch server statistics"] *)

(** The handler of [GET /api/server-stats].  The block of its [try]
    statement declares five constants; the module scope around it holds
    the registry under the name [activeSessions].  [None] in the body is
    an exception, which the [catch] turns into the 500 answer. *)
Definition serverStats (env : StatsEnv)
           (registry : gmap string Server.RegistryEntry) : StatsResponse :=
  let module_scope : Scope :=
    [("activeSessions"%string, Initialized (VMap registry))] in
  let b0 :=
    declare ["totalServers"; "activeServers"; "inactiveServers";
             "maintenanceServers"; "activeSessions"]%string in
  let body : option StatsResponse :=
    total ← count_total env;
    let b1 := initialize "totalServers" (VNum total) b0 in
    active ← count_active env;
    let b2 := initialize "activeServers" (VNum active) b1 in
    inactive ← count_inactive env;
    let b3 := initialize "inactiveServers" (VNum inactive) b2 in
    maintenance ← count_maintenance env;
    let b4 := initialize "maintenanceServers" (VNum maintenance) b3 in
    sessions ← resolve "activeSessions" [b4; module_scope];
    let b5 := initialize "activeSessions" (member_size sessions) b4 in
    v1 ← resolve "totalServers" [b5; module_scope];
    v2 ← resolve "activeServers" [b5; module_scope];
    v3 ← resolve "inactiveServers" [b5; module_scope];
    v4 ← resolve "maintenanceServers" [b5; module_scope];
    v5 ← resolve "activeSessions" [b5; module_scope];
    Some (stats v1 v2 v3 v4 v5) in
  match body with
  | Some response => response
  | None => stats_failed
  end.

End Rest.

(* ===================================================================== *)
(** ** Notions used to state the properties *)
(* ===================================================================== *)

Import Server.

(** The code unit before the position reached after reading [w]. *)
Definition prev_after (p : option N) (w : jsstring) : option N :=
  fold_left (fun _ c => Some c) w p.

(** The payloads of the output events among [evs]. *)
Fixpoint output_payloads (evs : list SocketEvent) : list jsstring :=
  match evs with
  | [] => []
  | ssh_output o :: evs' => o :: output_payloads evs'
  | _ :: evs' => output_payloads evs'
  end.

(** The session [s] as [handleSessionEnd] leaves it when it reads the clock
    value [now]. *)
Definition finalized (s : S.ServerSession) (now : Z) : S.ServerSession :=
  S.set_status S.disconnected
    (S.set_session_duration (Some (S.seconds_between (S.login_time s) now))
       (S.set_logout_time (Some now) s)).

(** The duration of [s] is 0 while it has no closing time, and the whole
    seconds between creation and closing afterwards. *)
Definition duration_ok (s : S.ServerSession) : Prop :=
  S.session_duration s
  = Some (match S.logout_time s with
          | Some t => (t - S.login_time s) / 1000
          | None => 0
          end).

Definition sessions_ok (st : State) : Prop :=
  (forall s, currentSession st = Some s -> duration_ok s)
  /\ map_Forall (fun _ s => duration_ok s) (sessionStore st).

(** The close signals: the close of a shell stream, the explicit user
    disconnect and the transport disconnect, with the clock value and the
    outcome of the save that they meet. *)
Definition close_signal (e : Event) : option (Z * SaveOutcome) :=
  match e with
  | StreamClose _ now save | UserDisconnect now save | Disconnect now save =>
      Some (now, save)
  | _ => None
  end.

(** The request passes the two checks of [handleSSHConnect]. *)
Definition valid_request (connectionData : JsVal) : bool :=
  truthy (get connectionData "host")
  && truthy (get connectionData "username")
  && truthy (get connectionData "password")
  && truthy (get (extractUserData connectionData) "id").

(** A connect request of the legacy layout, and a connect attempt in which
    every external call succeeds at the clock value [t]. *)
Definition sample_request : JsVal :=
  JObj [("host", JStr (js "10.0.0.1")); ("username", JStr (js "root"));
        ("password", JStr (js "secret"));
        ("user", JObj [("id", JStr (js "u1")); ("name", JStr (js "Ann"))])
       ]%string.

Definition connect_ok (t : Z) : ConnectEnv := mkConnectEnv None Saved None t t.

(** The chunk holds a carriage return or a line feed. *)
Definition is_boundary (chunk : jsstring) : bool :=
  includes chunk CR || includes chunk LF.






(** The chunk holds white space only. *)
Definition blank (chunk : jsstring) : Prop :=
  Forall (fun c => is_space c = true) chunk.


(** The texts of the stored commands with the ids [ids]. *)
Fixpoint texts_of (store : gmap N C.Command) (ids : list N) : list jsstring :=
  match ids with
  | [] => []
  | id :: ids' =>
      match store !! id with
      | Some c => C.command c :: texts_of store ids'
      | None => texts_of store ids'
      end
  end.

(** The commands that the current session of the connection refers to. *)
Definition logged_commands (st : State) : list jsstring :=
  match currentSession st with
  | Some s => texts_of (commandStore st) (S.commands_executed s)
  | None => []
  end.

(** The input events that deliver [inputs], each chunk with the outcomes
    and the clock value that its handler meets. *)
Definition input_events (inputs : list (jsstring * InputEnv)) : list Event :=
  map (fun i => SshInput i.1 i.2) inputs.

Definition write_chunk (input : jsstring) (str : Stream) : Stream :=
  mkStream (destroyed str) (written str ++ [input]).

(** [m] keeps the duration accounting of every session it can reach. *)
Definition keeps {A} (m : M A) : Prop :=
  forall st, sessions_ok st -> sessions_ok (m st).2.

(** Unfolding of the handler combinators. *)
Ltac handler_steps :=
  cbv [mbind mret M_bind M_ret throw try_catch read modify emit fresh await];
  cbn [fst snd].

(** Projections of updated states. *)
Ltac state_simpl :=
  cbn [socket_id currentSession commandBuffer currentCommand inputHandlers
       streams emitted pendingTimers activeSessions sessionStore commandStore
       nextId set_currentSession set_commandBuffer set_currentCommand
       set_inputHandlers set_streams set_emitted set_pendingTimers
       set_activeSessions set_sessionStore set_commandStore set_nextId
       fst snd].

(** The paths of [onSshInput], each with its final state; [save_eq] is the
    equation of [saveCurrentSession] on a connection with a session. *)
Ltac input_cases h input env st save_eq :=
  unfold onSshInput, streamWrite, saveCommand; handler_steps; state_simpl;
  destruct (streamUsable (h_stream h) st) eqn:?; state_simpl;
  [destruct (includes input CR || includes input LF) eqn:?; state_simpl;
   [destruct (currentSession st) as [?s|] eqn:?; state_simpl;
    [destruct (nonempty (trim (commandBuffer st))) eqn:?; state_simpl;
     [destruct (command_save env) eqn:?; state_simpl;
      [erewrite save_eq by reflexivity;
       destruct (session_resave env) eqn:?; cbv zeta; state_simpl | ] | ] | ]
   | ] | ].

#[local] Arguments S.preSave : simpl never.
#[local] Arguments C.preSave : simpl never.
#[local] Arguments trim : simpl never.
#[local] Arguments Utf8.toString : simpl never.

(* ===================================================================== *)
(** ** Further notions: patterns and the classifier *)
(* ===================================================================== *)

(** Declarative reading of a pattern: [matches r p s p' s'] when [r]
    matches from the position with previous unit [p] and rest [s] up to
    the position with previous unit [p'] and rest [s']. *)
Inductive matches :
  re -> option N -> jsstring -> option N -> jsstring -> Prop :=
| m_eps p s : matches Eps p s p s
| m_cls f c p s : f c = true -> matches (Cls f) p (c :: s) (Some c) s
| m_seq a b p s p1 s1 p2 s2 :
    matches a p s p1 s1 -> matches b p1 s1 p2 s2 ->
    matches (Seq a b) p s p2 s2
| m_alt_l a b p s p' s' : matches a p s p' s' -> matches (Alt a b) p s p' s'
| m_alt_r a b p s p' s' : matches b p s p' s' -> matches (Alt a b) p s p' s'
| m_star_stop a p s : matches (Star a) p s p s
| m_star_more a p s p1 s1 p2 s2 :
    matches a p s p1 s1 -> (length s1 < length s)%nat ->
    matches (Star a) p1 s1 p2 s2 ->
    matches (Star a) p s p2 s2
| m_bol s : matches Bol None s None s
| m_eol p : matches Eol p [] p []
| m_wordb p s :
    xorb (word_at p) (word_at (head s)) = true -> matches WordB p s p s.




(* ===================================================================== *)
(** ** Further notions: the connection, the tab and the format checks *)
(* ===================================================================== *)

(** A stream at a later time: what was written is still there, and a
    destroyed stream is as it was. *)
Definition stream_later (str str' : Stream) : Prop :=
  written str `prefix_of` written str'
  /\ (destroyed str = true -> str' = str).

(** What every handler respects, from the state [st] before it to the
    state [st'] after it. *)
Record extends (st st' : State) : Prop := mkExtends {
  ext_socket : socket_id st' = socket_id st;
  ext_registry :
    forall k, k <> socket_id st ->
              activeSessions st' !! k = activeSessions st !! k;
  ext_sessions : dom (sessionStore st) ⊆ dom (sessionStore st');
  ext_commands : dom (commandStore st) ⊆ dom (commandStore st');
  ext_next : (nextId st <= nextId st')%N;
  ext_emitted : emitted st `prefix_of` emitted st';
  ext_handlers : inputHandlers st `prefix_of` inputHandlers st';
  ext_streams :
    forall i str, streams st !! i = Some str ->
                  exists str', streams st' !! i = Some str'
                               /\ stream_later str str';
  ext_current_command :
    forall c', currentCommand st' = Some c' ->
               (nextId st <= C._id c')%N
               \/ exists c, currentCommand st = Some c
                            /\ C._id c = C._id c';
  ext_command_writes :
    forall k, (k < nextId st)%N ->
              (forall c, currentCommand st = Some c -> C._id c <> k) ->
              commandStore st' !! k = commandStore st !! k;
  ext_current_session :
    forall s', currentSession st' = Some s' ->
               (nextId st <= S._id s')%N
               \/ exists s, currentSession st = Some s
                            /\ S._id s = S._id s';
  ext_session_writes :
    forall k, (k < nextId st)%N ->
              (forall s, currentSession st = Some s -> S._id s <> k) ->
              sessionStore st' !! k = sessionStore st !! k
}.

(** The paths of [handleSSHConnect], each with its final state; [save_eq]
    is the equation of [saveCurrentSession] on a connection with a
    session. *)
Ltac connect_cases cd env st save_eq :=
  unfold handleSSHConnect, requestShell; handler_steps; state_simpl;
  destruct (nullish cd) eqn:?; state_simpl;
  [ | destruct (negb (truthy (get cd "host"))
                || negb (truthy (get cd "username"))
                || negb (truthy (get cd "password"))) eqn:?; state_simpl;
      [ | destruct (negb (truthy (extractUserData cd))
                    || negb (truthy (get (extractUserData cd) "id"))) eqn:?;
          state_simpl;
          [ | destruct (ssh_connect env) eqn:?; state_simpl;
              [ | erewrite save_eq by reflexivity;
                  destruct (session_save env) eqn:?; cbv zeta; state_simpl;
                  [ destruct (request_shell env) eqn:?; state_simpl | ] ] ] ] ].

(** The conjuncts of [extends] on a final state written with the setters;
    [sid] and [cid] give the ids of saved documents, the other arguments
    the later state of the streams after each kind of change. *)
Ltac ids_simpl sid cid :=
  repeat (cbn [S._id S.newSession S.push_command S.set_status
               S.set_logout_time S.set_session_duration S.set_isNew C._id
               C.newCommand C.set_output C.set_isNew];
          rewrite ?sid, ?cid).

Ltac current_case sid cid Hc :=
  first [ discriminate Hc
        | right; eexists; split; [eassumption|reflexivity]
        | injection Hc as <-;
          try match goal with
              | |- context [if ?b then _ else _] => destruct b
              end;
          ids_simpl sid cid;
          first [ left; lia
                | right; eexists; split; [eassumption|reflexivity] ] ].

Ltac writes_case Hne :=
  first [ reflexivity
        | rewrite lookup_insert_ne;
          [reflexivity
          | first [lia | intros <-; eapply Hne; [eassumption|reflexivity]]] ].

Ltac extends_fields sid cid same app write destroy :=
  constructor; state_simpl; ids_simpl sid cid;
  [ reflexivity
  | intros ? ?; rewrite ?lookup_insert_ne, ?lookup_delete_ne by congruence;
    reflexivity
  | rewrite ?dom_insert_L; set_solver
  | rewrite ?dom_insert_L; set_solver
  | lia
  | first [reflexivity
          | rewrite <- ?app_assoc; apply prefix_app_r; reflexivity]
  | first [reflexivity
          | rewrite <- ?app_assoc; apply prefix_app_r; reflexivity]
  | let Hi := fresh "Hi" in
    intros ? ? Hi;
    first [ exact (same _ _ _ Hi)
          | exact (app _ _ _ _ Hi)
          | eapply write; eassumption
          | exact (destroy _ _ _ _ Hi) ]
  | let Hc := fresh "Hc" in intros ? Hc; current_case sid cid Hc
  | let Hne := fresh "Hne" in intros ? ? Hne; writes_case Hne
  | let Hc := fresh "Hc" in intros ? Hc; current_case sid cid Hc
  | let Hne := fresh "Hne" in intros ? ? Hne; writes_case Hne
  ].

(** The ids of the documents that the connection holds have been handed
    out: later documents get other ids. *)
Definition allocated (st : State) : Prop :=
  (forall s, currentSession st = Some s -> (S._id s < nextId st)%N)
  /\ (forall c, currentCommand st = Some c -> (C._id c < nextId st)%N).

Ltac allocated_case sid cid Ha Hc :=
  first [ discriminate Hc
        | apply Ha in Hc; lia
        | injection Hc as <-;
          try match goal with
              | |- context [if ?b then _ else _] => destruct b
              end;
          ids_simpl sid cid;
          first [ lia
                | eapply N.lt_le_trans; [eapply Ha; eassumption|lia] ] ].

Ltac allocated_fields sid cid Hs Hc :=
  split; state_simpl;
  [ let H := fresh "H" in intros ? H; allocated_case sid cid Hs H
  | let H := fresh "H" in intros ? H; allocated_case sid cid Hc H ].

(** What the input listeners leave of the command records between two
    states: the records that exist are not written, and the current
    command is the same or a new document. *)
Definition logs_only (st st' : State) : Prop :=
  (nextId st <= nextId st')%N
  /\ (forall k, (k < nextId st)%N ->
        commandStore st' !! k = commandStore st !! k)
  /\ (currentCommand st' = currentCommand st
      \/ exists c', currentCommand st' = Some c'
                    /\ (nextId st <= C._id c')%N).

(** The listeners whose stream can be written to, and the others. *)
Definition usable_listeners (st : State) : list InputHandler :=
  filter (fun h => streamUsable (h_stream h) st = true) (inputHandlers st).
Definition stale_listeners (st : State) : list InputHandler :=
  filter (fun h => streamUsable (h_stream h) st = false) (inputHandlers st).

(** [n] copies of [chunk], one after the other. *)
Definition copies (n : nat) (chunk : jsstring) : jsstring :=
  concat (replicate n chunk).

(** The singleton discipline of the browser tab: a socket that has not
    been shut is the global socket, the global socket has not been shut
    and carries each listener once, and while the initialization guard is
    open there is no global socket and the listener guard is open too. *)
Definition singleton_ok (st : Client.State) : Prop :=
  (forall i s, Client.sockets st !! i = Some s -> Client.closed s = false ->
               Client.globalSocketInstance st = Some i)
  /\ (forall i, Client.globalSocketInstance st = Some i ->
        exists s, Client.sockets st !! i = Some s
                  /\ Client.closed s = false
                  /\ Client.listeners s = Client.socket_events)
  /\ (Client.globalIsInitialized st = false ->
      Client.globalSocketInstance st = None
      /\ Client.globalEventListenersAttached st = false).

(** The same for the terminal widget: a widget that has not been disposed
    is the global one, and the global one has not been disposed. *)
Definition terminal_singleton_ok (st : Client.State) : Prop :=
  (forall i t, Client.terminals st !! i = Some t ->
               Client.isDisposed t = false ->
               Client.globalTerminalInstance st = Some i)
  /\ (forall i, Client.globalTerminalInstance st = Some i ->
        exists t, Client.terminals st !! i = Some t
                  /\ Client.isDisposed t = false)
  /\ (Client.globalIsInitialized st = false ->
      Client.globalTerminalInstance st = None).

(** The socket and the terminal widget that the module-level variables
    name. *)
Definition global_socket (st : Client.State) : list Client.Socket :=
  match Client.globalSocketInstance st with
  | Some i => option_list (Client.sockets st !! i)
  | None => []
  end.

Definition global_terminal (st : Client.State) : list Client.Terminal :=
  match Client.globalTerminalInstance st with
  | Some i => option_list (Client.terminals st !! i)
  | None => []
  end.

(** A part of an address between its separators: not empty, without white
    space and without [@]. *)
Definition email_part (w : jsstring) : Prop :=
  w <> [] /\ Forall (fun c => Validators.email_unit c = true) w.

(** One to three decimal digits. *)
Definition octet_text (w : jsstring) : Prop :=
  (1 <= length w <= 3)%nat
  /\ Forall (fun c => Validators.is_digit c = true) w.

(** The handlers of terminal input: the data handler and the key handler
    are bound to the same widget and socket, and the socket is the global
    one; there are handlers exactly when there is a global socket. *)
Definition input_bound_ok (st : Client.State) : Prop :=
  Client.globalKeyHandler st = Client.globalInputHandler st
  /\ Client.globalSocketInstance st = snd <$> Client.globalInputHandler st.

(* ===================================================================== *)
(** * Properties *)
(* ===================================================================== *)

(** ** The matcher on texts of a known shape *)

Section MatcherFacts.

Implicit Types (p : option N) (s w : jsstring)
         (k : option N -> jsstring -> bool).

Lemma matchk_lit w : forall p s k,
  matchk (lit w) p (w ++ s) k = k (prev_after p w) s.
Proof.
  induction w as [|c w IH]; intros p s k; simpl; [reflexivity|].
  rewrite N.eqb_refl. simpl. apply IH.
Qed.

Lemma star_loop_cls f k s mid : forall n p,
  Forall (fun c => f c = true) mid ->
  (length mid <= n)%nat ->
  k (prev_after p mid) s = true ->
  star_loop (matchk (Cls f)) k n p (mid ++ s) = true.
Proof.
  induction mid as [|c mid IH]; intros n p Hall Hlen Hk.
  - destruct n; simpl in *; rewrite Hk; reflexivity.
  - destruct n as [|n]; [simpl in Hlen; lia|].
    inversion Hall as [|? ? Hc Hmid]; subst.
    cbn [star_loop app matchk].
    rewrite Hc. cbn [andb].
    replace (length (mid ++ s) <? length (c :: mid ++ s))%nat with true
      by (symmetry; apply Nat.ltb_lt; simpl; lia).
    cbn [andb]. rewrite IH; [apply orb_true_r|assumption| |assumption].
    simpl in Hlen. lia.
Qed.

Lemma matchk_star_cls f k s mid p :
  Forall (fun c => f c = true) mid ->
  k (prev_after p mid) s = true ->
  matchk (Star (Cls f)) p (mid ++ s) k = true.
Proof.
  intros Hall Hk. cbn [matchk]. apply star_loop_cls; try assumption.
  rewrite length_app. lia.
Qed.

Lemma matchk_alts ws w : forall p s k,
  In w ws ->
  k (prev_after p w) s = true ->
  matchk (alts ws) p (w ++ s) k = true.
Proof.
  induction ws as [|w0 ws IH]; intros p s k Hin Hk; [destruct Hin|].
  destruct Hin as [->|Hin].
  - destruct ws; cbn [alts matchk]; rewrite matchk_lit, Hk; reflexivity.
  - destruct ws as [|w1 ws]; [destruct Hin|].
    change (alts (w0 :: w1 :: ws)) with (Alt (lit w0) (alts (w1 :: ws))).
    cbn [matchk]. rewrite (IH p s k Hin Hk). apply orb_true_r.
Qed.

Lemma search_skip r s1 : forall p s2,
  match_here r (prev_after p s1) s2 = true ->
  search r p (s1 ++ s2) = true.
Proof.
  induction s1 as [|c s1 IH]; intros p s2 H.
  - destruct s2; simpl in *; rewrite H; reflexivity.
  - cbn [app search]. rewrite (IH (Some c) s2 H). apply orb_true_r.
Qed.

End MatcherFacts.

(** A device name followed on the same line by [>] matches the last
    pattern of the array. *)
Lemma device_redirect_matches (pre dev mid post : jsstring) :
  In dev (map js C.device_names) ->
  Forall (fun c => is_line_terminator c = false) mid ->
  test C.device_redirect_re
       (pre ++ js "/dev/" ++ dev ++ mid ++ [62%N] ++ post) = true.
Proof.
  intros Hdev Hmid. unfold test. apply search_skip.
  unfold match_here, C.device_redirect_re. cbn [matchk].
  rewrite matchk_lit. apply matchk_alts; [assumption|].
  apply matchk_star_cls.
  - eapply Forall_impl; [exact Hmid|]. intros c Hc. cbv beta. rewrite Hc.
    reflexivity.
  - reflexivity.
Qed.

Lemma dangerous_text_device (pre dev mid post : jsstring) :
  In dev (map js C.device_names) ->
  Forall (fun c => is_line_terminator c = false) mid ->
  C.dangerous_text (pre ++ js "/dev/" ++ dev ++ mid ++ [62%N] ++ post) = true.
Proof.
  intros Hdev Hmid. unfold C.dangerous_text. apply existsb_exists.
  exists C.device_redirect_re. split.
  - unfold C.dangerousPatterns. do 10 right. left. reflexivity.
  - apply device_redirect_matches; assumption.
Qed.

(* ===================================================================== *)
(** ** The classifier *)
(* ===================================================================== *)

(** C5.  The classifier gives "ls -la" the category system and no danger
    flag, flags "rm -rf /", "chmod 777 file" and "curl http://x | sh" as
    dangerous, and gives "myscript.sh" the category custom and no danger
    flag. *)
Theorem classifier_examples :
  C.command_type (C.created (js "ls -la")) = C.system
  /\ C.is_dangerous (C.created (js "ls -la")) = false
  /\ C.is_dangerous (C.created (js "rm -rf /")) = true
  /\ C.is_dangerous (C.created (js "chmod 777 file")) = true
  /\ C.is_dangerous (C.created (js "curl http://x | sh")) = true
  /\ C.command_type (C.created (js "myscript.sh")) = C.custom
  /\ C.is_dangerous (C.created (js "myscript.sh")) = false.
Proof. vm_compute. repeat split. Qed.

(** The danger flag of a created command is the verdict of the pattern
    array on its lowercased, trimmed text. *)
Lemma created_is_dangerous (command : jsstring) :
  nonempty command = true ->
  C.is_dangerous (C.created command)
  = C.dangerous_text (trim (toLowerCase command)).
Proof.
  intros Hne. unfold C.created, C.preSave. cbn [C.command C.isNew C.newCommand].
  rewrite Hne. reflexivity.
Qed.

Lemma trim_lower_empty : trim (toLowerCase []) = [].
Proof. reflexivity. Qed.

(** C10, as stated, fails: the text "cat /dev/null", a line feed, "> log"
    holds a device name and a later [>], and it is not flagged. *)
Lemma device_redirect_across_lines_not_flagged :
  let command := js "cat /dev/null" ++ [LF] ++ js "> log" in
  (exists pre dev mid post,
      In dev C.device_names
      /\ trim (toLowerCase command)
         = pre ++ js "/dev/" ++ js dev ++ mid ++ [62%N] ++ post)
  /\ C.is_dangerous (C.created command) = false.
Proof.
  split.
  - exists (js "cat "), "null"%string, [LF], (js " log").
    split; [left; reflexivity | vm_compute; reflexivity].
  - vm_compute. reflexivity.
Qed.

(** C10, amended.  A command whose lowercased, trimmed text holds
    "/dev/null", "/dev/zero", "/dev/random" or "/dev/urandom" followed later
    on the same line (no line feed, carriage return, U+2028 or U+2029 in
    between) by [>] gets the danger flag at creation. *)
Theorem device_redirect_flagged (command pre mid post : jsstring)
        (dev : string) :
  In dev C.device_names ->
  Forall (fun c => is_line_terminator c = false) mid ->
  trim (toLowerCase command)
  = pre ++ js "/dev/" ++ js dev ++ mid ++ [62%N] ++ post ->
  C.is_dangerous (C.created command) = true.
Proof.
  intros Hdev Hmid Htext.
  rewrite created_is_dangerous.
  - rewrite Htext. apply dangerous_text_device; [|assumption].
    apply in_map. assumption.
  - destruct command; [|reflexivity].
    rewrite trim_lower_empty in Htext.
    apply (f_equal (@length N)) in Htext.
    rewrite !length_app in Htext. simpl in Htext. lia.
Qed.

Lemma device_redirect_flagged_witness :
  C.is_dangerous (C.created (js "cat /dev/null > log")) = true.
Proof.
  apply (device_redirect_flagged
           (js "cat /dev/null > log") (js "cat ") (js " ") (js " log")
           "null"%string).
  - left. reflexivity.
  - repeat constructor.
  - vm_compute. reflexivity.
Defined.

(* ===================================================================== *)
(** ** Output relay *)
(* ===================================================================== *)

Lemma utf8_run_app (a b : list Byte.byte) : forall st,
  Utf8.run st (a ++ b)
  = let '(o1, st1) := Utf8.run st a in
    let '(o2, st2) := Utf8.run st1 b in
    (o1 ++ o2, st2).
Proof.
  induction a as [|x a IH]; intros st; cbn [app Utf8.run].
  - destruct (Utf8.run st b). reflexivity.
  - destruct (Utf8.step st (Byte.to_N x)) as [o st1]. rewrite IH.
    destruct (Utf8.run st1 a) as [o1 st2].
    destruct (Utf8.run st2 b) as [o2 st3]. rewrite app_assoc. reflexivity.
Qed.

Lemma toString_complete_app (a b : list Byte.byte) :
  Utf8.complete a ->
  Utf8.toString (a ++ b) = Utf8.toString a ++ Utf8.toString b.
Proof.
  unfold Utf8.complete, Utf8.toString. intros Ha. rewrite utf8_run_app.
  destruct (Utf8.run Utf8.init a) as [o1 st1]. cbn [snd] in Ha. subst st1.
  destruct (Utf8.run Utf8.init b) as [o2 st2].
  cbn [Utf8.flush Utf8.needed Utf8.init N.eqb].
  rewrite app_nil_r, app_assoc. reflexivity.
Qed.

Lemma toString_concat (chunks : list (list Byte.byte)) :
  Forall Utf8.complete chunks ->
  Utf8.toString (concat chunks) = concat (map Utf8.toString chunks).
Proof.
  induction 1 as [|a chunks Ha _ IH]; [reflexivity|].
  cbn [concat map]. rewrite toString_complete_app, IH by assumption.
  reflexivity.
Qed.

Lemma ascii_complete (bs : list Byte.byte) :
  Utf8.is_ascii bs -> Utf8.complete bs.
Proof.
  unfold Utf8.is_ascii, Utf8.complete.
  induction 1 as [|b bs Hb _ IH]; [reflexivity|].
  cbn [Utf8.run]. unfold Utf8.step. cbn [Utf8.needed Utf8.init N.eqb].
  unfold Utf8.lead. apply N.leb_le in Hb. rewrite Hb.
  destruct (Utf8.run Utf8.init bs). exact IH.
Qed.


Lemma emitted_stream_data (data : list Byte.byte) (st : State) :
  emitted (step st (StreamData data))
  = emitted st ++ [ssh_output (Utf8.toString data)].
Proof.
  unfold step, handle, onStreamData. handler_steps. cbn.
  destruct (currentCommand st); reflexivity.
Qed.

Lemma emitted_stream_run (chunks : list (list Byte.byte)) : forall st,
  emitted (run (map StreamData chunks) st)
  = emitted st ++ map (fun c => ssh_output (Utf8.toString c)) chunks.
Proof.
  induction chunks as [|c chunks IH]; intros st; cbn [map run fold_left].
  - rewrite app_nil_r. reflexivity.
  - fold (run (map StreamData chunks) (step st (StreamData c))).
    rewrite IH, emitted_stream_data, <- app_assoc. reflexivity.
Qed.

Lemma output_payloads_app (a b : list SocketEvent) :
  output_payloads (a ++ b) = output_payloads a ++ output_payloads b.
Proof.
  induction a as [|e a IH]; [reflexivity|].
  destruct e; cbn [app output_payloads]; rewrite IH; reflexivity.
Qed.

Lemma output_payloads_outputs (os : list jsstring) :
  output_payloads (map ssh_output os) = os.
Proof.
  induction os as [|o os IH]; [reflexivity|].
  cbn [map output_payloads]. rewrite IH. reflexivity.
Qed.

(** C9, as stated, fails: the two bytes of one character arriving in two
    chunks are relayed as two replacement characters. *)
Lemma split_character_not_relayed :
  let chunks := [[Byte.xc3]; [Byte.xa9]] in
  let st := connection "s" ∅ ∅ ∅ 0 in
  concat (output_payloads (emitted (run (map StreamData chunks) st)))
  = [0xFFFD; 0xFFFD]%N
  /\ Utf8.toString (concat chunks) = [0xE9]%N.
Proof. vm_compute. split; reflexivity. Qed.

(** C9, amended.  Every chunk of the shell stream is relayed as it
    arrives, in arrival order, as one output event that carries the UTF-8
    decoding of that chunk alone; when no chunk ends inside a multi-byte
    sequence, as with ASCII output, the concatenated payloads are the
    decoding of the concatenated bytes. *)
Theorem output_relayed_in_order (chunks : list (list Byte.byte))
        (st : State) :
  let st' := run (map StreamData chunks) st in
  emitted st' = emitted st ++ map ssh_output (map Utf8.toString chunks)
  /\ (Forall Utf8.complete chunks ->
      concat (output_payloads (emitted st'))
      = concat (output_payloads (emitted st))
        ++ Utf8.toString (concat chunks))
  /\ (Forall Utf8.is_ascii chunks -> Forall Utf8.complete chunks).
Proof.
  cbv zeta. rewrite emitted_stream_run, map_map. split; [reflexivity|].
  split.
  - intros Hc. rewrite output_payloads_app, concat_app.
    rewrite <- (map_map Utf8.toString ssh_output), output_payloads_outputs.
    rewrite toString_concat by assumption. reflexivity.
  - intros Ha. eapply Forall_impl; [exact Ha|]. apply ascii_complete.
Qed.

Lemma output_relayed_in_order_witness :
  let chunks := [[Byte.x6c; Byte.x73]; [Byte.xc3; Byte.xa9]; [Byte.x0a]] in
  let st' := run (map StreamData chunks) (connection "s" ∅ ∅ ∅ 0) in
  concat (output_payloads (emitted st')) = Utf8.toString (concat chunks).
Proof.
  intros chunks st'.
  apply (proj1 (proj2 (output_relayed_in_order chunks
                         (connection "s" ∅ ∅ ∅ 0)))).
  repeat constructor.
Defined.

(* ===================================================================== *)
(** ** Saving documents *)
(* ===================================================================== *)

Lemma saveCurrentSession_some st s o :
  currentSession st = Some s ->
  saveCurrentSession o st
  = match o with
    | Saved =>
        let s' := S.set_isNew false (S.preSave s) in
        (Ok tt,
         set_sessionStore (<[S._id s' := s']> (sessionStore st))
           (set_currentSession (Some s') st))
    | Failed hook_ran message =>
        (Throw message,
         set_currentSession (Some (if hook_ran then S.preSave s else s)) st)
    end.
Proof.
  intros Hs. unfold saveCurrentSession. handler_steps. rewrite Hs.
  destruct o; reflexivity.
Qed.

Lemma preSave_id s : S._id (S.preSave s) = S._id s.
Proof.
  unfold S.preSave. destruct (S.logout_time s); [|reflexivity].
  destruct (S.duration_falsy _); reflexivity.
Qed.

Lemma preSave_finalized s now : S.preSave (finalized s now) = finalized s now.
Proof.
  unfold S.preSave, finalized. cbn.
  destruct (S.seconds_between (S.login_time s) now =? 0); reflexivity.
Qed.

Lemma handleSessionEnd_some st s now save :
  currentSession st = Some s ->
  handleSessionEnd now save st
  = (Ok tt,
     match save with
     | Saved =>
         let s' := S.set_isNew false (finalized s now) in
         set_activeSessions (delete (socket_id st) (activeSessions st))
           (set_sessionStore (<[S._id s := s']> (sessionStore st))
              (set_currentSession (Some s') st))
     | Failed _ _ => set_currentSession (Some (finalized s now)) st
     end).
Proof.
  intros Hs. unfold handleSessionEnd. handler_steps. rewrite Hs.
  fold (finalized s now).
  rewrite (saveCurrentSession_some _ (finalized s now)) by reflexivity.
  destruct save as [|hook_ran message]; cbv zeta;
    rewrite ?preSave_finalized.
  - reflexivity.
  - destruct hook_ran; rewrite ?preSave_finalized; reflexivity.
Qed.

Lemma handleSessionEnd_none st now save :
  currentSession st = None ->
  handleSessionEnd now save st = (Ok tt, st).
Proof.
  intros Hs. unfold handleSessionEnd. handler_steps. rewrite Hs. reflexivity.
Qed.

(* ===================================================================== *)
(** ** Duration accounting *)
(* ===================================================================== *)

Lemma preSave_ok s : duration_ok s -> S.preSave s = s.
Proof.
  unfold duration_ok, S.preSave. intros H.
  destruct s as [i u ip nm us li lo du stt ce nw]. cbn in *. subst du.
  destruct lo as [t|]; [|reflexivity].
  cbn. unfold S.seconds_between. destruct (_ =? 0); reflexivity.
Qed.

Lemma duration_ok_new id uid ip name user now :
  duration_ok (S.newSession id uid ip name user now).
Proof. reflexivity. Qed.

Lemma duration_ok_finalized s now : duration_ok (finalized s now).
Proof. reflexivity. Qed.

Lemma duration_ok_push c s : duration_ok s -> duration_ok (S.push_command c s).
Proof. intros H. exact H. Qed.

Lemma duration_ok_isNew b s : duration_ok s -> duration_ok (S.set_isNew b s).
Proof. intros H. exact H. Qed.

Section Keeps.

Lemma keeps_ret {A} (a : A) : keeps (mret a).
Proof. intros st H. exact H. Qed.

Lemma keeps_throw {A} message : keeps (@throw A message).
Proof. intros st H. exact H. Qed.

Lemma keeps_read {A} (f : State -> A) : keeps (read f).
Proof. intros st H. exact H. Qed.

Lemma keeps_await o : keeps (await o).
Proof. intros st H. destruct o; exact H. Qed.

Lemma keeps_bind {A B} (m : M A) (f : A -> M B) :
  keeps m -> (forall a, keeps (f a)) -> keeps (m ≫= f).
Proof.
  intros Hm Hf st H. unfold mbind, M_bind.
  specialize (Hm st H). destruct (m st) as [[a|e] st']; cbn [snd] in *.
  - apply Hf. exact Hm.
  - exact Hm.
Qed.

Lemma keeps_try_catch {A} (m : M A) (h : jsstring -> M A) :
  keeps m -> (forall e, keeps (h e)) -> keeps (try_catch m h).
Proof.
  intros Hm Hh st H. unfold try_catch.
  specialize (Hm st H). destruct (m st) as [[a|e] st']; cbn [snd] in *.
  - exact Hm.
  - apply Hh. exact Hm.
Qed.

(** A state change that touches neither the current session nor the
    session collection. *)
Lemma keeps_modify_other (f : State -> State) :
  (forall st, currentSession (f st) = currentSession st) ->
  (forall st, sessionStore (f st) = sessionStore st) ->
  keeps (modify f).
Proof.
  intros Hc Hs st [H1 H2]. unfold modify. cbn [snd]. split.
  - intros s. rewrite Hc. apply H1.
  - rewrite Hs. exact H2.
Qed.

Lemma keeps_set_currentSession s :
  duration_ok s -> keeps (modify (set_currentSession (Some s))).
Proof.
  intros Hok st [H1 H2]. split; [|exact H2].
  intros s' Hs'. cbn in Hs'. injection Hs' as <-. exact Hok.
Qed.

Lemma keeps_emit e : keeps (emit e).
Proof. apply keeps_modify_other; reflexivity. Qed.

Lemma keeps_fresh : keeps fresh.
Proof. intros st [H1 H2]. split; assumption. Qed.

(** The session read from [currentSession] is in order. *)
Lemma keeps_read_session {B} (f : option S.ServerSession -> M B) :
  (forall cs, (forall s, cs = Some s -> duration_ok s) -> keeps (f cs)) ->
  keeps (read currentSession ≫= f).
Proof.
  intros Hf st H. unfold mbind, M_bind, read.
  apply Hf; [|exact H]. intros s Hs. apply (proj1 H). exact Hs.
Qed.

Lemma keeps_saveCurrentSession o : keeps (saveCurrentSession o).
Proof.
  intros st H. pose proof H as [H1 H2].
  unfold saveCurrentSession. handler_steps.
  destruct (currentSession st) as [s|] eqn:Hs; [|exact H].
  specialize (H1 s eq_refl). rewrite (preSave_ok s H1).
  destruct o as [|hook_ran message]; state_simpl.
  - split.
    + intros s' Hs'. injection Hs' as <-. exact H1.
    + apply map_Forall_insert_2; [exact H1|exact H2].
  - split; [|exact H2]. intros s' Hs'. injection Hs' as <-.
    destruct hook_ran; exact H1.
Qed.

Lemma keeps_saveCommand o c : keeps (saveCommand o c).
Proof.
  unfold saveCommand. destruct o.
  - apply keeps_bind; [|intros; apply keeps_ret].
    apply keeps_modify_other; reflexivity.
  - apply keeps_throw.
Qed.

Lemma keeps_requestShell o : keeps (requestShell o).
Proof.
  unfold requestShell.
  apply keeps_bind; [apply keeps_await|intros _].
  apply keeps_bind; [apply keeps_read|intros i].
  apply keeps_bind; [|intros; apply keeps_ret].
  apply keeps_modify_other; reflexivity.
Qed.

Lemma keeps_handleSSHConnect cd env : keeps (handleSSHConnect cd env).
Proof.
  unfold handleSSHConnect.
  apply keeps_try_catch; [|intros; apply keeps_emit].
  destruct (nullish cd); [apply keeps_throw|].
  destruct (_ || _ || _); [apply keeps_throw|].
  destruct (_ || _); [apply keeps_throw|].
  apply keeps_bind; [apply keeps_await|intros _].
  apply keeps_bind; [apply keeps_emit|intros _].
  apply keeps_bind; [apply keeps_fresh|intros id].
  apply keeps_bind;
    [apply keeps_set_currentSession, duration_ok_new|intros _].
  apply keeps_bind; [apply keeps_saveCurrentSession|intros _].
  apply keeps_bind; [apply keeps_modify_other; reflexivity|intros _].
  apply keeps_bind; [apply keeps_requestShell|intros stream].
  apply keeps_modify_other; reflexivity.
Qed.

Lemma keeps_handleSessionEnd now save : keeps (handleSessionEnd now save).
Proof.
  unfold handleSessionEnd.
  apply keeps_read_session. intros [s|] Hs; [|apply keeps_ret].
  apply keeps_try_catch; [|intros; apply keeps_ret].
  apply keeps_bind;
    [apply keeps_set_currentSession, duration_ok_finalized|intros _].
  apply keeps_bind; [apply keeps_saveCurrentSession|intros _].
  apply keeps_modify_other; reflexivity.
Qed.

Lemma keeps_onSshInput h input env : keeps (onSshInput h input env).
Proof.
  unfold onSshInput.
  apply keeps_bind; [apply keeps_read|intros usable].
  destruct usable; [|apply keeps_emit].
  apply keeps_bind; [apply keeps_modify_other; reflexivity|intros _].
  destruct (_ || _); [|apply keeps_modify_other; reflexivity].
  apply keeps_bind; [apply keeps_read|intros command].
  apply keeps_read_session. intros cs Hcs.
  apply keeps_bind; [|intros; apply keeps_modify_other; reflexivity].
  destruct cs as [session|]; [|apply keeps_ret].
  destruct (nonempty command); [|apply keeps_ret].
  apply keeps_try_catch; [|intros; apply keeps_ret].
  apply keeps_bind; [apply keeps_fresh|intros id].
  apply keeps_bind; [apply keeps_saveCommand|intros saved].
  apply keeps_bind; [apply keeps_modify_other; reflexivity|intros _].
  apply keeps_bind;
    [apply keeps_set_currentSession, duration_ok_push, Hcs; reflexivity
    |intros _].
  apply keeps_bind; [apply keeps_saveCurrentSession|intros _].
  apply keeps_modify_other; reflexivity.
Qed.

Lemma keeps_callInputHandlers hs input env :
  keeps (callInputHandlers hs input env).
Proof.
  induction hs as [|h hs IH]; cbn [callInputHandlers]; [apply keeps_ret|].
  apply keeps_bind; [|intros _; exact IH].
  apply keeps_try_catch; [apply keeps_onSshInput|intros; apply keeps_ret].
Qed.

Lemma keeps_handle e : keeps (handle e).
Proof.
  destruct e; cbn [handle].
  - apply keeps_handleSSHConnect.
  - apply keeps_bind; [apply keeps_read|intros hs].
    apply keeps_callInputHandlers.
  - unfold onStreamData.
    apply keeps_bind; [apply keeps_emit|intros _].
    apply keeps_modify_other; intros st;
      destruct (currentCommand st); reflexivity.
  - unfold onStreamClose.
    apply keeps_bind; [apply keeps_modify_other; reflexivity|intros _].
    apply keeps_bind; [apply keeps_emit|intros _].
    apply keeps_handleSessionEnd.
  - apply keeps_emit.
  - apply keeps_handleSessionEnd.
  - apply keeps_handleSessionEnd.
  - unfold onCaptureTimer.
    apply keeps_bind; [apply keeps_modify_other; reflexivity|intros _].
    apply keeps_bind; [apply keeps_read|intros cc].
    destruct cc as [c|]; [|apply keeps_ret].
    apply keeps_bind; [apply keeps_saveCommand|intros _].
    apply keeps_modify_other; reflexivity.
Qed.

End Keeps.

Lemma sessions_ok_run (es : list Event) : forall st,
  sessions_ok st -> sessions_ok (run es st).
Proof.
  induction es as [|e es IH]; intros st H; [exact H|].
  cbn [run fold_left]. apply IH. apply keeps_handle. exact H.
Qed.

(* ===================================================================== *)
(** ** Session records and their finalization *)
(* ===================================================================== *)

(** C3, as stated, fails: a session that has just been opened has no
    closing time and has the duration 0. *)
Lemma open_session_has_duration :
  let st := step (connection "s" ∅ ∅ ∅ 0)
                 (SshConnect sample_request (connect_ok 1000)) in
  exists s,
    sessionStore st !! 0%N = Some s
    /\ S.logout_time s = None
    /\ S.session_duration s = Some 0
    /\ ~ (is_Some (S.session_duration s) <-> is_Some (S.logout_time s)).
Proof.
  eexists. split; [vm_compute; reflexivity|].
  cbn. repeat split; try reflexivity.
  intros [H _]. destruct H as [x Hx]; [eexists; reflexivity|discriminate].
Qed.

(** C3, amended.  Every session record, in memory or stored, has a
    duration: it is 0 (the schema default) while the closing time is
    absent, and the whole seconds from creation to closing, that is the
    floor of the millisecond difference divided by 1000, once the closing
    time is present. *)
Theorem session_duration_accounting (es : list Event) (id : string)
        (registry : gmap string RegistryEntry)
        (commands : gmap N C.Command) (next : N) (s : S.ServerSession) :
  let st := run es (connection id registry ∅ commands next) in
  (currentSession st = Some s \/ exists k, sessionStore st !! k = Some s) ->
  S.session_duration s
  = Some (match S.logout_time s with
          | Some closing => (closing - S.login_time s) / 1000
          | None => 0
          end).
Proof.
  intros st Hs.
  assert (Hok : sessions_ok st).
  { apply sessions_ok_run. split; [discriminate|]. apply map_Forall_empty. }
  destruct Hok as [Hc Hm]. destruct Hs as [Hs|[k Hs]].
  - exact (Hc s Hs).
  - exact (Hm k s Hs).
Qed.

Lemma session_duration_accounting_witness :
  exists s,
    currentSession
      (run [SshConnect sample_request (connect_ok 1000);
            Disconnect 3500 Saved]
           (connection "s" ∅ ∅ ∅ 0)) = Some s
    /\ S.session_duration s = Some 2.
Proof.
  eexists. split; [vm_compute; reflexivity|].
  apply (session_duration_accounting
           [SshConnect sample_request (connect_ok 1000);
            Disconnect 3500 Saved] "s" ∅ ∅ 0).
  left. vm_compute. reflexivity.
Defined.

(** Each of the three close signals runs [handleSessionEnd]. *)
Lemma close_signal_step st e now save :
  close_signal e = Some (now, save) ->
  currentSession (step st e)
  = currentSession (handleSessionEnd now save st).2
  /\ sessionStore (step st e) = sessionStore (handleSessionEnd now save st).2
  /\ activeSessions (step st e)
     = activeSessions (handleSessionEnd now save st).2
  /\ socket_id (step st e) = socket_id st.
Proof.
  destruct e; cbn [close_signal]; intros H; try discriminate;
    injection H as <- <-.
  - unfold step. cbn [handle]. unfold onStreamClose. handler_steps.
    set (st' := set_emitted _ _).
    destruct (currentSession st) as [s|] eqn:Hs.
    + rewrite (handleSessionEnd_some st' s), (handleSessionEnd_some st s)
        by assumption.
      destruct save0; repeat split; reflexivity.
    + rewrite (handleSessionEnd_none st'), (handleSessionEnd_none st)
        by assumption.
      repeat split; reflexivity.
  - unfold step. cbn [handle]. repeat split; try reflexivity.
    destruct (currentSession st) as [s|] eqn:Hs.
    + rewrite (handleSessionEnd_some st s) by assumption.
      destruct save0; reflexivity.
    + rewrite (handleSessionEnd_none st) by assumption. reflexivity.
  - unfold step. cbn [handle]. repeat split; try reflexivity.
    destruct (currentSession st) as [s|] eqn:Hs.
    + rewrite (handleSessionEnd_some st s) by assumption.
      destruct save0; reflexivity.
    + rewrite (handleSessionEnd_none st) by assumption. reflexivity.
Qed.

Lemma finalize_current st s now save :
  currentSession st = Some s ->
  exists s',
    currentSession (handleSessionEnd now save st).2 = Some s'
    /\ S._id s' = S._id s
    /\ S.login_time s' = S.login_time s
    /\ S.status s' = S.disconnected
    /\ S.logout_time s' = Some now
    /\ S.session_duration s' = Some ((now - S.login_time s) / 1000)
    /\ (save = Saved ->
        sessionStore (handleSessionEnd now save st).2 !! S._id s = Some s'
        /\ activeSessions (handleSessionEnd now save st).2 !! socket_id st
           = None).
Proof.
  intros Hs. rewrite (handleSessionEnd_some st s) by assumption.
  destruct save; eexists; state_simpl; repeat split; try discriminate.
  - apply lookup_insert_eq.
  - apply lookup_delete_eq.
Qed.

(** C1, as stated, fails: a session opened at 0 and finalized by the
    transport disconnect at 1000 is finalized again by the close of the
    shell stream at 5000, and its closing time and duration change. *)
Lemma second_finalize_rewrites_closing_time :
  let st1 := run [SshConnect sample_request (connect_ok 0);
                  Disconnect 1000 Saved] (connection "s" ∅ ∅ ∅ 0) in
  let st2 := step st1 (StreamClose 0 5000 Saved) in
  (S.logout_time <$> currentSession st1) = Some (Some 1000)
  /\ (S.session_duration <$> currentSession st1) = Some (Some 1)
  /\ (S.logout_time <$> currentSession st2) = Some (Some 5000)
  /\ (S.session_duration <$> currentSession st2) = Some (Some 5)
  /\ (S.logout_time <$> sessionStore st2 !! 0%N) = Some (Some 5000).
Proof. vm_compute. repeat split. Qed.

(** C1, amended.  The finalize step has no single-use guard: each close
    signal that reaches a connection with a session sets the status to
    disconnected, the closing time to the time of that signal and the
    duration to the whole seconds since creation, and a successful save
    stores that record and removes the registry entry.  A second signal
    leaves the status as it is and replaces the closing time and the
    duration by those of the later signal. *)
Theorem finalize_twice (st : State) (s : S.ServerSession) (e1 e2 : Event)
        (now1 now2 : Z) (save1 save2 : SaveOutcome) :
  currentSession st = Some s ->
  close_signal e1 = Some (now1, save1) ->
  close_signal e2 = Some (now2, save2) ->
  let st1 := step st e1 in
  let st2 := step st1 e2 in
  exists s1 s2,
    currentSession st1 = Some s1
    /\ currentSession st2 = Some s2
    /\ S.status s1 = S.disconnected
    /\ S.status s2 = S.status s1
    /\ S.logout_time s1 = Some now1
    /\ S.logout_time s2 = Some now2
    /\ S.session_duration s1 = Some ((now1 - S.login_time s) / 1000)
    /\ S.session_duration s2 = Some ((now2 - S.login_time s) / 1000)
    /\ (save1 = Saved ->
        sessionStore st1 !! S._id s = Some s1
        /\ activeSessions st1 !! socket_id st = None)
    /\ (save2 = Saved ->
        sessionStore st2 !! S._id s = Some s2
        /\ activeSessions st2 !! socket_id st = None).
Proof.
  intros Hs H1 H2 st1 st2.
  destruct (close_signal_step st e1 now1 save1 H1) as (Hc1 & Hm1 & Ha1 & Hk1).
  destruct (finalize_current st s now1 save1 Hs)
    as (s1 & Hs1 & Hid1 & Hl1 & Hst1 & Hlo1 & Hd1 & Hsv1).
  rewrite <- Hc1 in Hs1. rewrite <- Hm1, <- Ha1 in Hsv1.
  fold st1 in Hs1, Hsv1, Hk1.
  destruct (close_signal_step st1 e2 now2 save2 H2) as (Hc2 & Hm2 & Ha2 & _).
  destruct (finalize_current st1 s1 now2 save2 Hs1)
    as (s2 & Hs2 & Hid2 & Hl2 & Hst2 & Hlo2 & Hd2 & Hsv2).
  rewrite <- Hc2 in Hs2. rewrite <- Hm2, <- Ha2, Hid1, Hk1 in Hsv2.
  fold st2 in Hs2, Hsv2.
  exists s1, s2. repeat split; try assumption.
  - congruence.
  - rewrite Hd2, Hl1. reflexivity.
  - apply Hsv1. assumption.
  - apply Hsv1. assumption.
  - apply Hsv2. assumption.
  - apply Hsv2. assumption.
Qed.

Lemma finalize_twice_witness :
  let st := step (connection "s" ∅ ∅ ∅ 0)
                 (SshConnect sample_request (connect_ok 0)) in
  let st2 := step (step st (Disconnect 1000 Saved))
                  (StreamClose 0 5000 Saved) in
  exists s1 s2,
    currentSession (step st (Disconnect 1000 Saved)) = Some s1
    /\ currentSession st2 = Some s2
    /\ S.status s1 = S.disconnected
    /\ S.status s2 = S.status s1
    /\ S.logout_time s1 = Some 1000
    /\ S.logout_time s2 = Some 5000
    /\ S.session_duration s1 = Some ((1000 - 0) / 1000)
    /\ S.session_duration s2 = Some ((5000 - 0) / 1000)
    /\ (Saved = Saved ->
        sessionStore (step st (Disconnect 1000 Saved)) !! 0%N = Some s1
        /\ activeSessions (step st (Disconnect 1000 Saved)) !! "s"%string
           = None)
    /\ (Saved = Saved ->
        sessionStore st2 !! 0%N = Some s2
        /\ activeSessions st2 !! "s"%string = None).
Proof.
  intros st.
  exact (finalize_twice st
           (S.set_isNew false
              (S.newSession 0 (JStr (js "u1")) (JStr (js "10.0.0.1"))
                 (JStr (js "Server 10.0.0.1")) (JStr (js "root")) 0))
           (Disconnect 1000 Saved) (StreamClose 0 5000 Saved)
           1000 5000 Saved Saved eq_refl eq_refl eq_refl).
Defined.

(* ===================================================================== *)
(** ** Opening a session *)
(* ===================================================================== *)

Lemma extractUserData_truthy cd : truthy (extractUserData cd) = true.
Proof.
  unfold extractUserData.
  destruct (truthy (get cd "userId")); [reflexivity|].
  destruct (truthy (get cd "user")); [reflexivity|].
  destruct (truthy (get cd "user_data")) eqn:H; [exact H|reflexivity].
Qed.

Lemma nullish_no_host cd : nullish cd = true -> truthy (get cd "host") = false.
Proof. destruct cd; cbn; congruence. Qed.

Lemma preSave_new id uid ip name user now :
  S.preSave (S.newSession id uid ip name user now)
  = S.newSession id uid ip name user now.
Proof. reflexivity. Qed.

(** A connect attempt that passes the checks and whose external calls all
    succeed. *)
Lemma connect_success cd env st :
  valid_request cd = true ->
  ssh_connect env = None ->
  session_save env = Saved ->
  request_shell env = None ->
  exists s2 st',
    handleSSHConnect cd env st = (Ok tt, st')
    /\ S._id s2 = nextId st
    /\ S.status s2 = S.active
    /\ S.logout_time s2 = None
    /\ S.login_time s2 = now_login env
    /\ currentSession st' = Some s2
    /\ sessionStore st' = <[nextId st := s2]> (sessionStore st)
    /\ activeSessions st'
       = <[socket_id st :=
             mkEntry (nextId st) (get (extractUserData cd) "id")
                     (get cd "host") (now_registry env)]> (activeSessions st)
    /\ socket_id st' = socket_id st
    /\ nextId st' = (nextId st + 1)%N
    /\ streams st' = streams st ++ [mkStream false []]
    /\ inputHandlers st'
       = inputHandlers st
         ++ [mkHandler (length (streams st)) (extractUserData cd)
                       (get cd "host")]
    /\ commandBuffer st' = commandBuffer st.
Proof.
  unfold valid_request. intros Hv Hc Hs Hr.
  apply andb_prop in Hv as [Hv Hid]. apply andb_prop in Hv as [Hv Hp].
  apply andb_prop in Hv as [Hh Hu].
  unfold handleSSHConnect, requestShell. handler_steps.
  destruct (nullish cd) eqn:Hn;
    [apply nullish_no_host in Hn; congruence|].
  rewrite Hh, Hu, Hp, Hid, extractUserData_truthy, Hc. cbn [negb orb].
  state_simpl.
  erewrite saveCurrentSession_some by reflexivity. rewrite Hs. cbv zeta.
  state_simpl. rewrite Hr. state_simpl. rewrite preSave_new.
  do 2 eexists. split; [reflexivity|]. state_simpl.
  repeat split; reflexivity.
Qed.

(** C4, as stated, fails: two connect requests on one connection leave two
    session records in status active. *)
Lemma second_connect_two_active :
  let st := run [SshConnect sample_request (connect_ok 0);
                 SshConnect sample_request (connect_ok 10)]
                (connection "s" ∅ ∅ ∅ 0) in
  (S.status <$> sessionStore st !! 0%N) = Some S.active
  /\ (S.status <$> sessionStore st !! 1%N) = Some S.active.
Proof. vm_compute. split; reflexivity. Qed.

(** C4, amended.  A connect request that arrives on a connection whose
    session is active is not refused: it creates a second session record
    in status active and leaves the first record as it is.  The current
    session of the connection and its registry entry are then those of the
    second session, and a later close signal finalizes the second session
    and leaves the record of the first one in status active. *)
Theorem second_connect_keeps_first_active (st : State)
        (s1 : S.ServerSession) (cd : JsVal) (env : ConnectEnv) :
  currentSession st = Some s1 ->
  sessionStore st !! S._id s1 = Some s1 ->
  S.status s1 = S.active ->
  (S._id s1 < nextId st)%N ->
  valid_request cd = true ->
  ssh_connect env = None ->
  session_save env = Saved ->
  request_shell env = None ->
  let st' := step st (SshConnect cd env) in
  exists s2,
    currentSession st' = Some s2
    /\ S._id s2 <> S._id s1
    /\ S.status s2 = S.active
    /\ sessionStore st' !! S._id s2 = Some s2
    /\ sessionStore st' !! S._id s1 = Some s1
    /\ (sessionId <$> activeSessions st' !! socket_id st') = Some (S._id s2)
    /\ (forall e now save,
          close_signal e = Some (now, save) ->
          sessionStore (step st' e) !! S._id s1 = Some s1).
Proof.
  intros Hcur Hst Hact Hfresh Hv Hc Hs Hr st'.
  destruct (connect_success cd env st Hv Hc Hs Hr)
    as (s2 & st2 & Hrun & Hid & Hstat & _ & _ & Hcur2 & Hstore & Hreg & Hsock
        & _).
  assert (Hst' : st' = st2) by (unfold st', step; cbn [handle];
                                rewrite Hrun; reflexivity).
  rewrite Hst'. clear Hst' st'.
  assert (Hne : S._id s2 <> S._id s1) by (rewrite Hid; lia).
  assert (Hold : sessionStore st2 !! S._id s1 = Some s1).
  { rewrite Hstore, lookup_insert_ne by (rewrite <- Hid; exact Hne).
    exact Hst. }
  exists s2. repeat split; try assumption.
  - rewrite Hstore, <- Hid. apply lookup_insert_eq.
  - rewrite Hreg, Hsock, lookup_insert_eq, <- Hid. reflexivity.
  - intros e now save He.
    destruct (close_signal_step st2 e now save He) as (_ & Hm & _).
    rewrite Hm.
    rewrite (handleSessionEnd_some st2 s2) by assumption.
    destruct save; state_simpl; [|exact Hold].
    rewrite lookup_insert_ne by exact Hne. exact Hold.
Qed.

Lemma second_connect_keeps_first_active_witness :
  let st := step (connection "s" ∅ ∅ ∅ 0)
                 (SshConnect sample_request (connect_ok 0)) in
  let st' := step st (SshConnect sample_request (connect_ok 10)) in
  exists s2,
    currentSession st' = Some s2
    /\ S._id s2 <> 0%N
    /\ S.status s2 = S.active
    /\ sessionStore st' !! S._id s2 = Some s2
    /\ sessionStore st' !! 0%N
       = Some (S.set_isNew false
                 (S.newSession 0 (JStr (js "u1")) (JStr (js "10.0.0.1"))
                    (JStr (js "Server 10.0.0.1")) (JStr (js "root")) 0))
    /\ (sessionId <$> activeSessions st' !! socket_id st') = Some (S._id s2)
    /\ (forall e now save,
          close_signal e = Some (now, save) ->
          sessionStore (step st' e) !! 0%N
          = Some (S.set_isNew false
                    (S.newSession 0 (JStr (js "u1")) (JStr (js "10.0.0.1"))
                       (JStr (js "Server 10.0.0.1")) (JStr (js "root")) 0))).
Proof.
  intros st.
  exact (second_connect_keeps_first_active st
           (S.set_isNew false
              (S.newSession 0 (JStr (js "u1")) (JStr (js "10.0.0.1"))
                 (JStr (js "Server 10.0.0.1")) (JStr (js "root")) 0))
           sample_request (connect_ok 10)
           eq_refl eq_refl eq_refl eq_refl eq_refl eq_refl eq_refl eq_refl).
Defined.

(** C6.  A connect request whose host, login name or credential is
    missing, or whose user data yields no id, is answered by one error
    event; no session document is constructed, stored or registered, and
    no SSH connection is attempted. *)
Theorem invalid_connect_rejected (cd : JsVal) (env : ConnectEnv)
        (st : State) :
  truthy (get cd "host") = false
  \/ truthy (get cd "username") = false
  \/ truthy (get cd "password") = false
  \/ truthy (get (extractUserData cd) "id") = false ->
  let st' := step st (SshConnect cd env) in
  (exists message,
      nonempty message = true
      /\ emitted st' = emitted st ++ [ssh_error message])
  /\ currentSession st' = currentSession st
  /\ sessionStore st' = sessionStore st
  /\ activeSessions st' = activeSessions st
  /\ nextId st' = nextId st
  /\ streams st' = streams st
  /\ inputHandlers st' = inputHandlers st.
Proof.
  intros H.
  assert (Hrun : exists message,
             nonempty message = true
             /\ handle (SshConnect cd env) st
                = (Ok tt, set_emitted (emitted st ++ [ssh_error message]) st)).
  { cbn [handle]. unfold handleSSHConnect. handler_steps.
    destruct (nullish cd) eqn:Hn.
    { exists (type_error cd). split; reflexivity. }
    destruct (negb (truthy (get cd "host"))
              || negb (truthy (get cd "username"))
              || negb (truthy (get cd "password"))) eqn:Hp.
    { exists missing_parameters. split; reflexivity. }
    destruct (negb (truthy (extractUserData cd))
              || negb (truthy (get (extractUserData cd) "id"))) eqn:Hu.
    { exists invalid_user_data. split; reflexivity. }
    exfalso. apply orb_false_elim in Hp as [Hp Hp3].
    apply orb_false_elim in Hp as [Hp1 Hp2].
    apply orb_false_elim in Hu as [_ Hu].
    apply negb_false_iff in Hp1, Hp2, Hp3, Hu.
    destruct H as [H|[H|[H|H]]]; congruence. }
  destruct Hrun as (message & Hne & Hrun). unfold step. rewrite Hrun.
  state_simpl. repeat split; try reflexivity.
  exists message. split; [exact Hne|reflexivity].
Qed.

Lemma invalid_connect_rejected_witness :
  let st := connection "s" ∅ ∅ ∅ 0 in
  let st' := step st (SshConnect (JObj [("host", JStr (js "10.0.0.1"))]%string)
                                 (connect_ok 0)) in
  sessionStore st' = sessionStore st.
Proof.
  intros st st'.
  apply (invalid_connect_rejected
           (JObj [("host", JStr (js "10.0.0.1"))]%string) (connect_ok 0) st).
  right. left. reflexivity.
Defined.

(* ===================================================================== *)
(** ** The input listener *)
(* ===================================================================== *)

Lemma session_preSave_fields s :
  S._id (S.preSave s) = S._id s
  /\ S.commands_executed (S.preSave s) = S.commands_executed s.
Proof.
  unfold S.preSave. destruct (S.logout_time s); [|split; reflexivity].
  destruct (S.duration_falsy _); split; reflexivity.
Qed.

Lemma command_preSave_fields c :
  C._id (C.preSave c) = C._id c /\ C.command (C.preSave c) = C.command c.
Proof.
  unfold C.preSave. destruct (_ && _); split; reflexivity.
Qed.







(* ===================================================================== *)
(** ** Command boundaries *)
(* ===================================================================== *)




Lemma trimStart_blank b : blank b -> trimStart b = [].
Proof.
  induction 1 as [|c b Hc _ IH]; [reflexivity|].
  cbn [trimStart]. rewrite Hc. exact IH.
Qed.

Lemma trimStart_blank_app b y : blank b -> trimStart (b ++ y) = trimStart y.
Proof.
  induction 1 as [|c b Hc _ IH]; [reflexivity|].
  cbn [app trimStart]. rewrite Hc. exact IH.
Qed.

Lemma trimStart_app a b :
  trimStart (a ++ b)
  = match trimStart a with
    | [] => trimStart b
    | _ :: _ => trimStart a ++ b
    end.
Proof.
  induction a as [|c a IH]; cbn [app trimStart].
  - destruct (trimStart b); reflexivity.
  - destruct (is_space c); [exact IH|reflexivity].
Qed.

Lemma trimEnd_app_blank x b : blank b -> trimEnd (x ++ b) = trimEnd x.
Proof.
  intros Hb. unfold trimEnd. rewrite rev_app_distr.
  rewrite trimStart_blank_app; [reflexivity|].
  unfold blank in *. apply Forall_rev. exact Hb.
Qed.

Lemma trim_app_blank acc b : blank b -> trim (acc ++ b) = trim acc.
Proof.
  intros Hb. unfold trim. rewrite trimStart_app.
  destruct (trimStart acc) as [|c t] eqn:Ht.
  - rewrite (trimStart_blank b Hb). reflexivity.
  - apply trimEnd_app_blank. exact Hb.
Qed.









(** A command typed with a U+2028 between the device name and the [>]
    reaches the store through the input listener, and it is not flagged. *)
Example line_separator_command_not_flagged :
  let chunks := [js "cat /dev/null"; [LS]; js "> log"; [CR]] in
  let st := step (connection "s" ∅ ∅ ∅ 0)
                 (SshConnect sample_request (connect_ok 0)) in
  let st' := run (input_events
                    (map (fun c => (c, mkInputEnv Saved Saved 5)) chunks))
                 st in
  logged_commands st' = [js "cat /dev/null" ++ [LS] ++ js "> log"]
  /\ (C.is_dangerous <$> commandStore st' !! 1%N) = Some false.
Proof. vm_compute. split; reflexivity. Qed.

(* ===================================================================== *)
(** ** The client singleton *)
(* ===================================================================== *)

Lemma initializeTerminal_sets_flag data st :
  Client.globalIsInitialized (Client.initializeTerminal data st) = true.
Proof.
  unfold Client.initializeTerminal.
  destruct (Client.globalIsInitialized st) eqn:Hi.
  - unfold Client.reuseExisting.
    destruct (Client.globalTerminalInstance st); [|exact Hi].
    destruct (_ && _); [|exact Hi]. exact Hi.
  - unfold Client.createInstances, Client.setupTerminalInputHandlers,
      Client.setupSocketEventListeners.
    destruct (Client.globalEventListenersAttached _); reflexivity.
Qed.

Lemma reuseExisting_creates_nothing st :
  Client.terminals (Client.reuseExisting st) = Client.terminals st
  /\ Client.sockets (Client.reuseExisting st) = Client.sockets st
  /\ Client.globalTerminalInstance (Client.reuseExisting st)
     = Client.globalTerminalInstance st
  /\ Client.globalSocketInstance (Client.reuseExisting st)
     = Client.globalSocketInstance st
  /\ Client.globalInputHandler (Client.reuseExisting st)
     = Client.globalInputHandler st
  /\ Client.globalKeyHandler (Client.reuseExisting st)
     = Client.globalKeyHandler st.
Proof.
  unfold Client.reuseExisting.
  destruct (Client.globalTerminalInstance st) eqn:Ht;
    [|repeat split; assumption].
  destruct (_ && _); cbn; rewrite ?Ht; repeat split; reflexivity.
Qed.

(** After the teardown the guard is open again: the next call makes new
    instances. *)
Lemma initialization_after_teardown data st :
  Client.initializeTerminal data (Client.cleanupConnection st)
  = Client.createInstances data (Client.cleanupConnection st).
Proof. reflexivity. Qed.

(** C8.  A second call of [initializeTerminal] before teardown makes no
    terminal widget and no socket and leaves the global instances and
    their input handlers as the first call set them; in a tab that starts
    without instances, the two calls leave exactly one live widget and one
    live socket, and the second call points the refs of the component at
    them. *)
Theorem second_initialization_reuses_instances (st : Client.State)
        (data1 data2 : JsVal) (mounted : bool) :
  let st1 := Client.initializeTerminal data1 st in
  let st2 := Client.initializeTerminal data2 st1 in
  let tab1 := Client.initializeTerminal data1 (Client.fresh_tab mounted) in
  let tab2 := Client.initializeTerminal data2 tab1 in
  (Client.terminals st2 = Client.terminals st1
   /\ Client.sockets st2 = Client.sockets st1
   /\ Client.globalTerminalInstance st2 = Client.globalTerminalInstance st1
   /\ Client.globalSocketInstance st2 = Client.globalSocketInstance st1
   /\ Client.globalInputHandler st2 = Client.globalInputHandler st1
   /\ Client.globalKeyHandler st2 = Client.globalKeyHandler st1)
  /\ length (Client.terminals tab2) = 1%nat
  /\ length (Client.live_terminals tab2) = 1%nat
  /\ length (Client.sockets tab2) = 1%nat
  /\ length (Client.live_sockets tab2) = 1%nat
  /\ Client.globalSocketInstance tab2 = Some 0%nat
  /\ Client.socketRef tab2 = Client.globalSocketInstance tab2
  /\ (if mounted
      then Client.globalTerminalInstance tab2 = Some 0%nat
           /\ Client.terminalInstance tab2
              = Client.globalTerminalInstance tab2
      else Client.globalTerminalInstance tab2 = None).
Proof.
  cbv zeta. split.
  - assert (Hsecond : Client.initializeTerminal data2
                         (Client.initializeTerminal data1 st)
                       = Client.reuseExisting
                           (Client.initializeTerminal data1 st)).
    { unfold Client.initializeTerminal at 1.
      rewrite initializeTerminal_sets_flag. reflexivity. }
    rewrite Hsecond. apply reuseExisting_creates_nothing.
  - destruct mounted; vm_compute; repeat split.
Qed.

(* ===================================================================== *)
(** ** The matcher and the declarative reading of patterns *)
(* ===================================================================== *)

Lemma matchk_mono r : forall p s (k1 k2 : option N -> jsstring -> bool),
  (forall p' s', k1 p' s' = true -> k2 p' s' = true) ->
  matchk r p s k1 = true -> matchk r p s k2 = true.
Proof.
  induction r as [| |f|a IHa b IHb|a IHa b IHb|a IHa| | |];
    intros p s k1 k2 Hk; cbn [matchk].
  - discriminate.
  - apply Hk.
  - destruct s as [|c s]; [discriminate|].
    intros H. apply andb_prop in H as [Hf H]. rewrite Hf, (Hk _ _ H).
    reflexivity.
  - apply IHa. intros p' s'. apply IHb. exact Hk.
  - intros H. apply orb_prop in H as [H|H].
    + rewrite (IHa _ _ _ _ Hk H). reflexivity.
    + rewrite (IHb _ _ _ _ Hk H). apply orb_true_r.
  - generalize (length s) as n. intros n. revert p s.
    induction n as [|n IHn]; intros p s; cbn [star_loop]; intros H;
      apply orb_prop in H as [H|H]; try discriminate.
    + rewrite (Hk _ _ H). reflexivity.
    + rewrite (Hk _ _ H). reflexivity.
    + apply orb_true_iff. right. revert H. apply IHa. intros p' s' H.
      apply andb_prop in H as [Hl H]. rewrite Hl, (IHn _ _ H). reflexivity.
  - destruct p; [discriminate|apply Hk].
  - destruct s; [apply Hk|discriminate].
  - intros H. apply andb_prop in H as [Hx H]. rewrite Hx, (Hk _ _ H).
    reflexivity.
Qed.

Lemma star_loop_fuel a k : forall n n' p s,
  (n <= n')%nat ->
  star_loop (matchk a) k n p s = true ->
  star_loop (matchk a) k n' p s = true.
Proof.
  induction n as [|n IH]; intros n' p s Hn; cbn [star_loop]; intros H;
    apply orb_prop in H as [H|H]; try discriminate.
  - destruct n'; cbn [star_loop]; rewrite H; reflexivity.
  - destruct n'; cbn [star_loop]; rewrite H; reflexivity.
  - destruct n' as [|n']; [lia|]. cbn [star_loop].
    apply orb_true_iff. right. revert H. apply matchk_mono.
    intros p' s' H. apply andb_prop in H as [Hl H].
    rewrite Hl. cbn [andb]. apply (IH n'); [lia|exact H].
Qed.

(** The matcher finds every match of the declarative reading. *)
Lemma matchk_complete r p s p' s' :
  matches r p s p' s' ->
  forall k, k p' s' = true -> matchk r p s k = true.
Proof.
  induction 1 as [p s|f c p s Hf|a b p s p1 s1 p2 s2 _ IHa _ IHb
                  |a b p s p' s' _ IH|a b p s p' s' _ IH
                  |a p s|a p s p1 s1 p2 s2 _ IHa Hlen _ IHs
                  |s|p|p s Hx]; intros k Hk; cbn [matchk].
  - exact Hk.
  - rewrite Hf, Hk. reflexivity.
  - apply IHa. apply IHb. exact Hk.
  - rewrite (IH k Hk). reflexivity.
  - rewrite (IH k Hk). apply orb_true_r.
  - destruct (length s); cbn [star_loop]; rewrite Hk; reflexivity.
  - destruct (length s) as [|n] eqn:Hn; [lia|]. cbn [star_loop].
    apply orb_true_iff. right. apply IHa.
    assert (Hlt' : (length s1 <? length s)%nat = true)
      by (apply Nat.ltb_lt; lia).
    rewrite Hlt'. cbn [andb].
    apply (star_loop_fuel a k (length s1)); [lia|].
    specialize (IHs k Hk). cbn [matchk] in IHs. exact IHs.
  - exact Hk.
  - exact Hk.
  - rewrite Hx, Hk. reflexivity.
Qed.

(** Every success of the matcher is a match of the declarative reading. *)
Lemma matchk_sound r : forall p s k,
  matchk r p s k = true ->
  exists p' s', matches r p s p' s' /\ k p' s' = true.
Proof.
  induction r as [| |f|a IHa b IHb|a IHa b IHb|a IHa| | |];
    intros p s k; cbn [matchk]; intros H.
  - discriminate.
  - exists p, s. split; [constructor|exact H].
  - destruct s as [|c s]; [discriminate|].
    apply andb_prop in H as [Hf H]. exists (Some c), s.
    split; [constructor; exact Hf|exact H].
  - apply IHa in H as (p1 & s1 & Ha & H).
    apply IHb in H as (p2 & s2 & Hb & H).
    exists p2, s2. split; [econstructor; eassumption|exact H].
  - apply orb_prop in H as [H|H].
    + apply IHa in H as (p' & s' & Ha & H). exists p', s'.
      split; [apply m_alt_l; exact Ha|exact H].
    + apply IHb in H as (p' & s' & Hb & H). exists p', s'.
      split; [apply m_alt_r; exact Hb|exact H].
  - revert H. generalize (length s) as n. intros n. revert p s.
    induction n as [|n IHn]; intros p s; cbn [star_loop]; intros H;
      apply orb_prop in H as [H|H]; try discriminate.
    + exists p, s. split; [constructor|exact H].
    + exists p, s. split; [constructor|exact H].
    + apply IHa in H as (p1 & s1 & Ha & H).
      apply andb_prop in H as [Hl H]. apply Nat.ltb_lt in Hl.
      apply IHn in H as (p2 & s2 & Hs & H).
      exists p2, s2. split; [|exact H].
      eapply m_star_more; eassumption.
  - destruct p; [discriminate|]. exists None, s. split; [constructor|exact H].
  - destruct s; [|discriminate]. exists p, []. split; [constructor|exact H].
  - apply andb_prop in H as [Hx H]. exists p, s.
    split; [constructor; exact Hx|exact H].
Qed.

Lemma match_here_iff r p s :
  match_here r p s = true <-> exists p' s', matches r p s p' s'.
Proof.
  unfold match_here. split.
  - intros H. apply matchk_sound in H as (p' & s' & H & _). eauto.
  - intros (p' & s' & H). eapply matchk_complete; [exact H|reflexivity].
Qed.

Lemma search_iff r s : forall p,
  search r p s = true
  <-> exists s1 s2 p' s',
        s = s1 ++ s2 /\ matches r (prev_after p s1) s2 p' s'.
Proof.
  induction s as [|c s IH]; intros p; cbn [search].
  - rewrite orb_false_r, match_here_iff. split.
    + intros (p' & s' & H). exists [], [], p', s'. split; [reflexivity|exact H].
    + intros (s1 & s2 & p' & s' & Hs & H).
      symmetry in Hs. apply app_eq_nil in Hs as [-> ->]. eauto.
  - rewrite orb_true_iff, match_here_iff, IH. split.
    + intros [(p' & s' & H)|(s1 & s2 & p' & s' & Hs & H)].
      * exists [], (c :: s), p', s'. split; [reflexivity|exact H].
      * exists (c :: s1), s2, p', s'. split; [rewrite Hs; reflexivity|exact H].
    + intros (s1 & s2 & p' & s' & Hs & H). destruct s1 as [|c1 s1].
      * left. cbn in Hs. subst s2. eauto.
      * right. cbn in Hs. injection Hs as <- ->. eauto 6.
Qed.

(** [r.test(s)] holds exactly when [r] matches somewhere in [s]. *)
Lemma test_iff r s :
  test r s = true
  <-> exists s1 s2 p' s',
        s = s1 ++ s2 /\ matches r (prev_after None s1) s2 p' s'.
Proof. apply search_iff. Qed.

(* ===================================================================== *)
(** ** What the classifier looks at *)
(* ===================================================================== *)

Lemma prev_after_some c w : prev_after (Some c) w <> None.
Proof.
  revert c. induction w as [|d w IH]; intros c; cbn; [discriminate|apply IH].
Qed.

Lemma prev_after_none w : prev_after None w = None -> w = [].
Proof.
  destruct w as [|c w]; [reflexivity|]. cbn. intros H.
  exfalso. exact (prev_after_some c w H).
Qed.

Lemma matches_lit w : forall p s p' s',
  matches (lit w) p s p' s' <-> s = w ++ s' /\ p' = prev_after p w.
Proof.
  induction w as [|c w IH]; intros p s p' s'; cbn [lit].
  - split.
    + intros H. inversion H; subst. split; reflexivity.
    + intros [-> ->]. constructor.
  - split.
    + intros H. inversion H as [| |a b q t p1 s1 p2 s2 Hc Hw| | | | | | |];
        subst. inversion Hc as [|f d q t Hf| | | | | | | |]; subst.
      apply N.eqb_eq in Hf. subst d. apply IH in Hw as [-> ->].
      split; reflexivity.
    + intros [-> ->]. econstructor.
      * constructor. apply N.eqb_refl.
      * apply IH. split; reflexivity.
Qed.










(* ===================================================================== *)
(** ** Shapes of text that are flagged *)
(* ===================================================================== *)

Lemma matches_seq_inv a b p s p' s' :
  matches (Seq a b) p s p' s'
  <-> exists p1 s1, matches a p s p1 s1 /\ matches b p1 s1 p' s'.
Proof.
  split.
  - intros H. inversion H; subst. eauto.
  - intros (p1 & s1 & Ha & Hb). econstructor; eassumption.
Qed.

Lemma matches_bol_inv p s p' s' :
  matches Bol p s p' s' <-> p = None /\ p' = None /\ s' = s.
Proof.
  split.
  - intros H. inversion H; subst. repeat split.
  - intros (-> & -> & ->). constructor.
Qed.

Lemma matches_eps_inv p s p' s' :
  matches Eps p s p' s' <-> p' = p /\ s' = s.
Proof.
  split.
  - intros H. inversion H; subst. split; reflexivity.
  - intros (-> & ->). constructor.
Qed.

Lemma matches_chr_inv c p s p' s' :
  matches (Chr c) p s p' s' <-> s = c :: s' /\ p' = Some c.
Proof.
  unfold Chr. split.
  - intros H. inversion H as [|f d q t Hf| | | | | | | |]; subst.
    apply N.eqb_eq in Hf. subst d. split; reflexivity.
  - intros (-> & ->). constructor. apply N.eqb_refl.
Qed.

Lemma matches_lit_intro w p s : matches (lit w) p (w ++ s) (prev_after p w) s.
Proof. apply matches_lit. split; reflexivity. Qed.

Lemma matches_star_cls f mid : forall p s,
  Forall (fun c => f c = true) mid ->
  matches (Star (Cls f)) p (mid ++ s) (prev_after p mid) s.
Proof.
  induction mid as [|c mid IH]; intros p s Hall; [constructor|].
  inversion Hall as [|? ? Hc Hmid]; subst. cbn [app].
  eapply m_star_more.
  - constructor. exact Hc.
  - cbn. lia.
  - apply IH. exact Hmid.
Qed.

Lemma matches_plus_cls f mid p s :
  mid <> [] ->
  Forall (fun c => f c = true) mid ->
  matches (Plus (Cls f)) p (mid ++ s) (prev_after p mid) s.
Proof.
  intros Hne Hall. destruct mid as [|c mid]; [congruence|].
  inversion Hall as [|? ? Hc Hmid]; subst. unfold Plus. cbn [app].
  econstructor; [constructor; exact Hc|].
  apply (matches_star_cls f mid (Some c) s Hmid).
Qed.

Lemma matches_spaces ws p s :
  ws <> [] -> blank ws ->
  matches (Plus Space) p (ws ++ s) (prev_after p ws) s.
Proof. intros Hne Hb. apply matches_plus_cls; assumption. Qed.

(** A pattern that starts with [^] and matches a prefix of the text. *)
Lemma test_anchored r s p' s' :
  matches r None s p' s' -> test (Seq Bol r) s = true.
Proof.
  intros H. apply test_iff. exists [], s, p', s'.
  split; [reflexivity|]. econstructor; [constructor|exact H].
Qed.

Lemma dangerous_text_intro r cmd :
  In r C.dangerousPatterns -> test r cmd = true ->
  C.dangerous_text cmd = true.
Proof.
  intros Hin Ht. unfold C.dangerous_text. apply existsb_exists.
  exists r. split; assumption.
Qed.

Lemma nonempty_text command :
  trim (toLowerCase command) <> [] -> nonempty command = true.
Proof. destruct command; [intros H; exfalso; apply H|]; reflexivity. Qed.

Lemma created_flagged command :
  C.dangerous_text (trim (toLowerCase command)) = true ->
  C.is_dangerous (C.created command) = true.
Proof.
  intros H. destruct command as [|c command].
  - vm_compute in H. discriminate.
  - rewrite created_is_dangerous by reflexivity. exact H.
Qed.

Lemma matches_tool_then_operand tool ws arg rest p :
  ws <> [] -> blank ws ->
  matches (Seq (lit tool) (Seq (Plus Space) (lit arg))) p
          (tool ++ ws ++ arg ++ rest)
          (prev_after (prev_after (prev_after p tool) ws) arg) rest.
Proof.
  intros Hne Hb.
  eapply m_seq; [apply matches_lit_intro|].
  eapply m_seq; [apply matches_spaces; assumption|].
  apply matches_lit_intro.
Qed.

(** X3.  A command that starts with "mkfs" or "fdisk", or with "dd", "sudo" or
    "chmod" followed by white space and then "if=", "rm" or "777", is
    flagged, whatever follows. *)
Theorem destructive_tools_flagged (command ws rest : jsstring) :
  ws <> [] -> blank ws ->
  let text := trim (toLowerCase command) in
  text = js "mkfs" ++ rest
  \/ text = js "fdisk" ++ rest
  \/ text = js "dd" ++ ws ++ js "if=" ++ rest
  \/ text = js "sudo" ++ ws ++ js "rm" ++ rest
  \/ text = js "chmod" ++ ws ++ js "777" ++ rest ->
  C.is_dangerous (C.created command) = true.
Proof.
  intros Hne Hb text H. apply created_flagged. fold text.
  destruct H as [H|[H|[H|[H|H]]]]; rewrite H.
  - apply (dangerous_text_intro C.mkfs_re);
      [unfold C.dangerousPatterns; do 2 right; left; reflexivity|].
    eapply test_anchored. apply matches_lit_intro.
  - apply (dangerous_text_intro C.fdisk_re);
      [unfold C.dangerousPatterns; do 3 right; left; reflexivity|].
    eapply test_anchored. apply matches_lit_intro.
  - apply (dangerous_text_intro C.dd_re);
      [unfold C.dangerousPatterns; do 1 right; left; reflexivity|].
    eapply test_anchored. apply matches_tool_then_operand; assumption.
  - apply (dangerous_text_intro C.sudo_rm_re);
      [unfold C.dangerousPatterns; do 5 right; left; reflexivity|].
    eapply test_anchored. apply matches_tool_then_operand; assumption.
  - apply (dangerous_text_intro C.chmod_777_re);
      [unfold C.dangerousPatterns; do 7 right; left; reflexivity|].
    eapply test_anchored. apply matches_tool_then_operand; assumption.
Qed.

Lemma destructive_tools_flagged_witness :
  C.is_dangerous (C.created (js "  SUDO   rm notes.txt")) = true.
Proof.
  apply (destructive_tools_flagged (js "  SUDO   rm notes.txt") (js "   ")
           (js " notes.txt")).
  - discriminate.
  - repeat constructor.
  - right. right. right. left. vm_compute. reflexivity.
Defined.

(** X4.  A recursive delete, "rm -r" or "rm -rf", whose first operand is an
    absolute path is flagged, whatever the path is. *)
Theorem recursive_delete_of_absolute_path_flagged
        (command ws1 ws2 f rest : jsstring) :
  ws1 <> [] -> blank ws1 -> ws2 <> [] -> blank ws2 ->
  f = [] \/ f = js "f" ->
  trim (toLowerCase command)
  = js "rm" ++ ws1 ++ js "-r" ++ f ++ ws2 ++ js "/" ++ rest ->
  C.is_dangerous (C.created command) = true.
Proof.
  intros Hne1 Hb1 Hne2 Hb2 Hf H. apply created_flagged. rewrite H.
  apply (dangerous_text_intro C.rm_root_re);
    [unfold C.dangerousPatterns; left; reflexivity|].
  eapply test_anchored.
  eapply m_seq; [apply matches_lit_intro|].
  eapply m_seq; [apply matches_spaces; eassumption|].
  eapply m_seq; [apply matches_lit_intro|].
  destruct Hf as [->| ->].
  - eapply m_seq; [apply m_alt_r; constructor|]. cbn [app].
    eapply m_seq; [apply matches_spaces; eassumption|].
    cbn. constructor. reflexivity.
  - eapply m_seq; [apply m_alt_l; constructor; reflexivity|].
    eapply m_seq; [apply matches_spaces; eassumption|].
    cbn. constructor. reflexivity.
Qed.

Lemma recursive_delete_of_absolute_path_flagged_witness :
  C.is_dangerous (C.created (js "rm -r /tmp/build")) = true.
Proof.
  apply (recursive_delete_of_absolute_path_flagged
           (js "rm -r /tmp/build") (js " ") (js " ") [] (js "tmp/build"));
    try discriminate; try (repeat constructor).
Defined.

(** X5.  A "curl" or "wget" command line that ends in a pipe into "sh" is
    flagged. *)
Theorem download_piped_to_shell_flagged (command mid ws : jsstring)
        (tool : string) :
  tool = "curl"%string \/ tool = "wget"%string ->
  Forall (fun c => is_line_terminator c = false) mid ->
  blank ws ->
  trim (toLowerCase command) = js tool ++ mid ++ js "|" ++ ws ++ js "sh" ->
  C.is_dangerous (C.created command) = true.
Proof.
  intros Htool Hmid Hws H. apply created_flagged. rewrite H.
  apply (dangerous_text_intro (C.pipe_to_shell_re tool)).
  { unfold C.dangerousPatterns.
    destruct Htool as [->| ->];
      [do 8 right|do 9 right]; left; reflexivity. }
  eapply test_anchored.
  eapply m_seq; [apply matches_lit_intro|].
  eapply m_seq.
  { apply matches_star_cls. eapply Forall_impl; [exact Hmid|].
    intros c Hc. cbv beta. rewrite Hc. reflexivity. }
  eapply m_seq; [constructor; reflexivity|].
  eapply m_seq; [apply matches_star_cls; exact Hws|].
  eapply m_seq.
  - replace (js "sh") with (js "sh" ++ []) by apply app_nil_r.
    apply matches_lit_intro.
  - constructor.
Qed.

Lemma download_piped_to_shell_flagged_witness :
  C.is_dangerous (C.created (js "wget -qO- http://x/i.sh |  sh")) = true.
Proof.
  apply (download_piped_to_shell_flagged
           (js "wget -qO- http://x/i.sh |  sh") (js " -qo- http://x/i.sh ")
           (js "  ") "wget"%string).
  - right. reflexivity.
  - repeat constructor.
  - repeat constructor.
  - vm_compute. reflexivity.
Defined.

(** X6.  The pattern written for the fork bomb matches the texts that start
    with [:{ :|:& };:], without the parentheses, which the pattern reads
    as an empty group; the fork bomb itself is not flagged. *)
Theorem fork_bomb_pattern_misses_fork_bomb (cmd : jsstring) :
  (test C.fork_bomb_re cmd = true
   <-> exists rest, cmd = js ":{ :|:& };:" ++ rest)
  /\ C.is_dangerous (C.created (js ":(){ :|:& };:")) = false.
Proof.
  split; [|vm_compute; reflexivity].
  rewrite test_iff. unfold C.fork_bomb_re. split.
  - intros (s1 & s2 & p' & s' & Hs & H).
    apply matches_seq_inv in H as (p1 & t1 & Hb & H).
    apply matches_bol_inv in Hb as (Hp & -> & ->).
    apply prev_after_none in Hp. subst s1.
    apply matches_seq_inv in H as (p2 & t2 & Hc & H).
    apply matches_chr_inv in Hc as (-> & ->).
    apply matches_seq_inv in H as (p3 & t3 & He & H).
    apply matches_eps_inv in He as (-> & ->).
    apply matches_lit in H as [-> _]. exists s'. rewrite Hs. reflexivity.
  - intros (rest & ->).
    exists [], (js ":{ :|:& };:" ++ rest),
      (prev_after (Some 58%N) (js "{ :|:& };:")), rest.
    split; [reflexivity|].
    econstructor; [constructor|].
    change (js ":{ :|:& };:" ++ rest)
      with (58%N :: (js "{ :|:& };:" ++ rest)).
    econstructor; [constructor; reflexivity|].
    econstructor; [constructor|]. apply matches_lit_intro.
Qed.

Lemma lower_unit_space c : is_space c = true -> lower_unit c = c.
Proof.
  intros Hs. unfold lower_unit.
  destruct ((65 <=? c) && (c <=? 90))%N eqn:Hr; [|reflexivity].
  apply andb_prop in Hr as [H1 H2].
  apply N.leb_le in H1. apply N.leb_le in H2.
  exfalso. revert Hs.
  unfold is_space, is_line_terminator, TAB, VT, FF, LF, CR, LS, PS.
  repeat match goal with
         | |- context [(c =? ?k)%N] =>
             replace (c =? k)%N with false
               by (symmetry; apply N.eqb_neq; lia)
         end.
  replace (8192 <=? c)%N with false by (symmetry; apply N.leb_gt; lia).
  cbn. discriminate.
Qed.

Lemma toLowerCase_blank a : blank a -> toLowerCase a = a.
Proof.
  induction 1 as [|c a Hc _ IH]; [reflexivity|].
  cbn [toLowerCase map]. fold (toLowerCase a).
  rewrite (lower_unit_space c Hc), IH. reflexivity.
Qed.

Lemma trim_blank_app a y : blank a -> trim (a ++ y) = trim y.
Proof. intros Ha. unfold trim. rewrite trimStart_blank_app by exact Ha.
       reflexivity. Qed.

Lemma created_fields command :
  nonempty command = true ->
  C.command_type (C.created command)
  = C.classify_text (trim (toLowerCase command))
  /\ C.is_dangerous (C.created command)
     = C.dangerous_text (trim (toLowerCase command)).
Proof.
  intros Hne. unfold C.created, C.preSave.
  cbn [C.command C.isNew C.newCommand]. rewrite Hne. split; reflexivity.
Qed.

(** X2.  White space around a command and the case of its ASCII letters play no
    part: two texts with the same lowercased form, one of them padded with
    white space, get the same category and the same danger flag. *)
Theorem padding_and_case_ignored (a b command1 command2 : jsstring) :
  blank a -> blank b ->
  toLowerCase command1 = toLowerCase command2 ->
  nonempty command1 = true ->
  C.command_type (C.created (a ++ command1 ++ b))
  = C.command_type (C.created command2)
  /\ C.is_dangerous (C.created (a ++ command1 ++ b))
     = C.is_dangerous (C.created command2).
Proof.
  intros Ha Hb Hl Hne.
  assert (Hne2 : nonempty command2 = true).
  { destruct command1; [discriminate|]. destruct command2; [|reflexivity].
    discriminate. }
  assert (Hne' : nonempty (a ++ command1 ++ b) = true).
  { destruct command1; [discriminate|]. destruct a; reflexivity. }
  assert (Htext : trim (toLowerCase (a ++ command1 ++ b))
                  = trim (toLowerCase command2)).
  { unfold toLowerCase. rewrite !map_app.
    fold (toLowerCase a) (toLowerCase b) (toLowerCase command1)
         (toLowerCase command2).
    rewrite (toLowerCase_blank a Ha), (toLowerCase_blank b Hb), Hl.
    rewrite trim_blank_app by exact Ha. apply trim_app_blank. exact Hb. }
  destruct (created_fields _ Hne') as [-> ->].
  destruct (created_fields _ Hne2) as [-> ->].
  rewrite Htext. split; reflexivity.
Qed.

Lemma padding_and_case_ignored_witness :
  C.command_type (C.created (js "  " ++ js "Chmod 777 X" ++ js "   "))
  = C.command_type (C.created (js "chmod 777 x"))
  /\ C.is_dangerous (C.created (js "  " ++ js "Chmod 777 X" ++ js "   "))
     = C.is_dangerous (C.created (js "chmod 777 x")).
Proof.
  apply padding_and_case_ignored; try reflexivity; repeat constructor.
Defined.

(* ===================================================================== *)
(** ** What no handler undoes *)
(* ===================================================================== *)

Lemma stream_later_refl str : stream_later str str.
Proof. split; [reflexivity|intros _; reflexivity]. Qed.

Lemma stream_later_trans a b c :
  stream_later a b -> stream_later b c -> stream_later a c.
Proof.
  intros [H1 H2] [H3 H4]. split.
  - etransitivity; eassumption.
  - intros Hd. specialize (H2 Hd). subst b. apply H4. exact Hd.
Qed.

Lemma extends_refl st : extends st st.
Proof.
  constructor; try reflexivity; try (intros; reflexivity).
  - intros i str H. exists str. split; [exact H|apply stream_later_refl].
  - intros c' H. right. eauto.
  - intros s' H. right. eauto.
Qed.

Lemma extends_trans st1 st2 st3 :
  extends st1 st2 -> extends st2 st3 -> extends st1 st3.
Proof.
  intros [A1 A2 A3 A4 A5 A6 A7 A8 A9 A10 A11 A12]
         [B1 B2 B3 B4 B5 B6 B7 B8 B9 B10 B11 B12].
  constructor.
  - congruence.
  - intros k Hk. rewrite B2 by congruence. apply A2. exact Hk.
  - etransitivity; eassumption.
  - etransitivity; eassumption.
  - lia.
  - etransitivity; eassumption.
  - etransitivity; eassumption.
  - intros i str H. destruct (A8 i str H) as (str2 & H2 & L2).
    destruct (B8 i str2 H2) as (str3 & H3 & L3).
    exists str3. split; [exact H3|]. eapply stream_later_trans; eassumption.
  - intros c3 H. destruct (B9 c3 H) as [Hn|(c2 & H2 & Hid)].
    + left. lia.
    + destruct (A9 c2 H2) as [Hn|(c1 & H1 & Hid1)].
      * left. lia.
      * right. exists c1. split; [exact H1|congruence].
  - intros k Hk Hne. rewrite B10.
    + apply A10; assumption.
    + lia.
    + intros c2 H2 Heq. destruct (A9 c2 H2) as [Hn|(c1 & H1 & Hid1)].
      * lia.
      * apply (Hne c1 H1). congruence.
  - intros s3 H. destruct (B11 s3 H) as [Hn|(s2 & H2 & Hid)].
    + left. lia.
    + destruct (A11 s2 H2) as [Hn|(s1 & H1 & Hid1)].
      * left. lia.
      * right. exists s1. split; [exact H1|congruence].
  - intros k Hk Hne. rewrite B12.
    + apply A12; assumption.
    + lia.
    + intros s2 H2 Heq. destruct (A11 s2 H2) as [Hn|(s1 & H1 & Hid1)].
      * lia.
      * apply (Hne s1 H1). congruence.
Qed.

Lemma session_id_saved s : S._id (S.preSave s) = S._id s.
Proof. exact (proj1 (session_preSave_fields s)). Qed.

Lemma command_id_saved c : C._id (C.preSave c) = C._id c.
Proof. exact (proj1 (command_preSave_fields c)). Qed.

Lemma streams_later_same (ss : list Stream) i str :
  ss !! i = Some str ->
  exists str', ss !! i = Some str' /\ stream_later str str'.
Proof. intros H. exists str. split; [exact H|apply stream_later_refl]. Qed.

Lemma streams_later_app (ss extra : list Stream) i str :
  ss !! i = Some str ->
  exists str', (ss ++ extra) !! i = Some str' /\ stream_later str str'.
Proof.
  intros H. exists str. split; [|apply stream_later_refl].
  rewrite lookup_app_l; [exact H|]. eapply lookup_lt_Some. exact H.
Qed.

Lemma streams_later_write st j input i str :
  streamUsable j st = true ->
  streams st !! i = Some str ->
  exists str', alter (write_chunk input) j (streams st) !! i = Some str'
               /\ stream_later str str'.
Proof.
  intros Hu H. destruct (decide (j = i)) as [->|Hne].
  - exists (write_chunk input str). rewrite list_lookup_alter_eq, H.
    split; [reflexivity|]. split.
    + cbn. apply prefix_app_r. reflexivity.
    + intros Hd. unfold streamUsable in Hu. rewrite H, Hd in Hu.
      discriminate.
  - rewrite list_lookup_alter_ne by exact Hne.
    apply streams_later_same. exact H.
Qed.

Lemma streams_later_destroy (ss : list Stream) j i str :
  ss !! i = Some str ->
  exists str', alter (fun s => mkStream true (written s)) j ss !! i = Some str'
               /\ stream_later str str'.
Proof.
  intros H. destruct (decide (j = i)) as [->|Hne].
  - exists (mkStream true (written str)). rewrite list_lookup_alter_eq, H.
    split; [reflexivity|]. split; [reflexivity|].
    intros Hd. destruct str as [d w]. cbn in *. subst d. reflexivity.
  - rewrite list_lookup_alter_ne by exact Hne.
    apply streams_later_same. exact H.
Qed.

Lemma extends_handleSSHConnect cd env st :
  extends st (handleSSHConnect cd env st).2.
Proof.
  connect_cases cd env st saveCurrentSession_some; cbn [snd];
    extends_fields session_id_saved command_id_saved streams_later_same
                   streams_later_app streams_later_write
                   streams_later_destroy.
Qed.

Lemma extends_handleSessionEnd now save st :
  extends st (handleSessionEnd now save st).2.
Proof.
  unfold handleSessionEnd, saveCurrentSession. handler_steps. state_simpl.
  destruct (currentSession st) as [s|] eqn:Hs; state_simpl.
  2: apply extends_refl.
  destruct save as [|hook_ran message]; state_simpl;
    extends_fields session_id_saved command_id_saved streams_later_same
                   streams_later_app streams_later_write
                   streams_later_destroy.
Qed.
Lemma extends_onStreamData data st : extends st (onStreamData data st).2.
Proof.
  unfold onStreamData. handler_steps. state_simpl.
  destruct (currentCommand st) as [c|] eqn:Hc; state_simpl;
    extends_fields session_id_saved command_id_saved streams_later_same
                   streams_later_app streams_later_write
                   streams_later_destroy.
Qed.

Lemma extends_onStreamError message st :
  extends st (onStreamError message st).2.
Proof.
  unfold onStreamError. handler_steps. state_simpl.
  extends_fields session_id_saved command_id_saved streams_later_same
                 streams_later_app streams_later_write
                 streams_later_destroy.
Qed.

Lemma extends_onCaptureTimer save st :
  extends st (onCaptureTimer save st).2.
Proof.
  unfold onCaptureTimer, saveCommand. handler_steps. state_simpl.
  destruct (currentCommand st) as [c|] eqn:Hc; state_simpl;
    [destruct save as [|hook_ran message]; state_simpl|];
    extends_fields session_id_saved command_id_saved streams_later_same
                   streams_later_app streams_later_write
                   streams_later_destroy.
Qed.

Lemma extends_onSshInput h input env st :
  extends st (onSshInput h input env st).2.
Proof.
  input_cases h input env st saveCurrentSession_some;
    extends_fields session_id_saved command_id_saved streams_later_same
                   streams_later_app streams_later_write
                   streams_later_destroy.
Qed.

Lemma extends_onStreamClose i now save st :
  extends st (onStreamClose i now save st).2.
Proof.
  unfold onStreamClose. handler_steps. state_simpl.
  eapply extends_trans; [|apply extends_handleSessionEnd].
  extends_fields session_id_saved command_id_saved streams_later_same
                 streams_later_app streams_later_write
                 streams_later_destroy.
Qed.

Lemma extends_callInputHandlers hs input env st :
  extends st (callInputHandlers hs input env st).2.
Proof.
  revert st. induction hs as [|h hs IH]; intros st; cbn.
  - apply extends_refl.
  - handler_steps.
    pose proof (extends_onSshInput h input env st) as H.
    destruct (onSshInput h input env st) as [[[]|e] st1]; cbn in H |- *;
      (eapply extends_trans; [exact H|apply IH]).
Qed.

Lemma extends_step st e : extends st (step st e).
Proof.
  unfold step. destruct e; cbn [handle].
  - apply extends_handleSSHConnect.
  - handler_steps. apply extends_callInputHandlers.
  - apply extends_onStreamData.
  - apply extends_onStreamClose.
  - apply extends_onStreamError.
  - apply extends_handleSessionEnd.
  - apply extends_handleSessionEnd.
  - apply extends_onCaptureTimer.
Qed.

Lemma extends_run es st : extends st (run es st).
Proof.
  revert st. induction es as [|e es IH]; intros st; cbn.
  - apply extends_refl.
  - eapply extends_trans; [apply extends_step|apply IH].
Qed.
Lemma allocated_connection id registry sessions commands next :
  allocated (connection id registry sessions commands next).
Proof. split; intros ? H; discriminate H. Qed.

Lemma allocated_handleSSHConnect cd env st :
  allocated st -> allocated (handleSSHConnect cd env st).2.
Proof.
  intros Ha.
  connect_cases cd env st saveCurrentSession_some; cbn [snd];
    destruct Ha as [Hs Hc];
    allocated_fields session_id_saved command_id_saved Hs Hc.
Qed.

Lemma allocated_handleSessionEnd now save st :
  allocated st -> allocated (handleSessionEnd now save st).2.
Proof.
  intros Ha.
  unfold handleSessionEnd, saveCurrentSession. handler_steps. state_simpl.
  destruct (currentSession st) as [s|] eqn:Heq; state_simpl.
  2: exact Ha.
  destruct save as [|hook_ran message]; state_simpl;
    destruct Ha as [Hs Hc];
    allocated_fields session_id_saved command_id_saved Hs Hc.
Qed.

Lemma allocated_onStreamData data st :
  allocated st -> allocated (onStreamData data st).2.
Proof.
  intros Ha.
  unfold onStreamData. handler_steps. state_simpl.
  destruct (currentCommand st) as [c|] eqn:Heq; state_simpl;
    destruct Ha as [Hs Hc];
    allocated_fields session_id_saved command_id_saved Hs Hc.
Qed.

Lemma allocated_onCaptureTimer save st :
  allocated st -> allocated (onCaptureTimer save st).2.
Proof.
  intros Ha.
  unfold onCaptureTimer, saveCommand. handler_steps. state_simpl.
  destruct (currentCommand st) as [c|] eqn:Heq; state_simpl;
    [destruct save as [|hook_ran message]; state_simpl|];
    destruct Ha as [Hs Hc];
    allocated_fields session_id_saved command_id_saved Hs Hc.
Qed.

Lemma allocated_onSshInput h input env st :
  allocated st -> allocated (onSshInput h input env st).2.
Proof.
  intros Ha.
  input_cases h input env st saveCurrentSession_some;
    destruct Ha as [Hs Hc];
    allocated_fields session_id_saved command_id_saved Hs Hc.
Qed.

Lemma allocated_onStreamClose i now save st :
  allocated st -> allocated (onStreamClose i now save st).2.
Proof.
  intros Ha.
  unfold onStreamClose. handler_steps. state_simpl.
  apply allocated_handleSessionEnd.
  destruct Ha as [Hs Hc]. split; state_simpl; assumption.
Qed.

Lemma allocated_callInputHandlers hs input env st :
  allocated st -> allocated (callInputHandlers hs input env st).2.
Proof.
  revert st. induction hs as [|h hs IH]; intros st Ha; cbn.
  - exact Ha.
  - handler_steps.
    pose proof (allocated_onSshInput h input env st Ha) as H.
    destruct (onSshInput h input env st) as [[[]|e] st1]; cbn in H |- *;
      apply IH; exact H.
Qed.

Lemma allocated_step st e : allocated st -> allocated (step st e).
Proof.
  intros Ha. unfold step. destruct e; cbn [handle].
  - apply allocated_handleSSHConnect, Ha.
  - handler_steps. apply allocated_callInputHandlers, Ha.
  - apply allocated_onStreamData, Ha.
  - apply allocated_onStreamClose, Ha.
  - unfold onStreamError. handler_steps. destruct Ha.
    split; state_simpl; assumption.
  - apply allocated_handleSessionEnd, Ha.
  - apply allocated_handleSessionEnd, Ha.
  - apply allocated_onCaptureTimer, Ha.
Qed.

Lemma allocated_run es st : allocated st -> allocated (run es st).
Proof.
  revert st. induction es as [|e es IH]; intros st Ha; cbn.
  - exact Ha.
  - apply IH, allocated_step, Ha.
Qed.
Lemma valid_request_checks cd :
  valid_request cd = true ->
  nullish cd = false
  /\ negb (truthy (get cd "host")) || negb (truthy (get cd "username"))
     || negb (truthy (get cd "password")) = false
  /\ negb (truthy (extractUserData cd))
     || negb (truthy (get (extractUserData cd) "id")) = false.
Proof.
  unfold valid_request. intros Hv.
  apply andb_prop in Hv as [Hv Hid]. apply andb_prop in Hv as [Hv Hp].
  apply andb_prop in Hv as [Hh Hu].
  rewrite Hh, Hu, Hp, Hid, extractUserData_truthy. repeat split.
  destruct (nullish cd) eqn:Hn; [|reflexivity].
  apply nullish_no_host in Hn. congruence.
Qed.

(** A connect attempt that gets past [ssh.connect] replaces the current
    session by a new document and writes no other session record. *)
Lemma connect_new_session cd env st :
  valid_request cd = true ->
  ssh_connect env = None ->
  let st' := step st (SshConnect cd env) in
  (exists s2, currentSession st' = Some s2 /\ S._id s2 = nextId st)
  /\ (forall k, k <> nextId st ->
        sessionStore st' !! k = sessionStore st !! k).
Proof.
  intros Hv Hc. destruct (valid_request_checks cd Hv) as (Hn & Hp & Hu).
  unfold step. cbn [handle].
  connect_cases cd env st saveCurrentSession_some; try congruence;
    cbn [snd]; state_simpl.
  all: split;
    [eexists; split; [reflexivity|];
     try match goal with
         | |- context [if ?b then _ else _] => destruct b
         end;
     ids_simpl session_id_saved command_id_saved; reflexivity
    |intros k Hk;
     ids_simpl session_id_saved command_id_saved;
     rewrite ?lookup_insert_ne by congruence; reflexivity].
Qed.

(** X7.  The registry entries under the ids of other connections are left
    alone: the handlers of a connection set and delete the entry of their
    own socket only. *)
Theorem registry_of_other_connections_untouched (es : list Event)
        (st : State) (k : string) :
  k <> socket_id st ->
  activeSessions (run es st) !! k = activeSessions st !! k.
Proof. intros Hk. apply (ext_registry _ _ (extends_run es st)), Hk. Qed.

Lemma registry_of_other_connections_untouched_witness :
  let other := mkEntry 7 (JStr (js "u2")) (JStr (js "10.0.0.2")) 0 in
  let st := connection "s" {["t" := other]} ∅ ∅ 8 in
  let es := [SshConnect sample_request (connect_ok 0); Disconnect 5000 Saved]
  in activeSessions (run es st) !! "t" = activeSessions st !! "t".
Proof.
  intros other st es.
  exact (registry_of_other_connections_untouched es st "t"
           ltac:(discriminate)).
Defined.

(** X8.  No handler deletes a document: the session and the command records
    of a state are still stored after any sequence of events. *)
Theorem documents_never_deleted (es : list Event) (st : State) :
  dom (sessionStore st) ⊆ dom (sessionStore (run es st))
  /\ dom (commandStore st) ⊆ dom (commandStore (run es st)).
Proof.
  split.
  - apply (ext_sessions _ _ (extends_run es st)).
  - apply (ext_commands _ _ (extends_run es st)).
Qed.

(** X9.  A session that a later connect replaces is abandoned: whatever
    happens afterwards on the connection, its stored record is never
    written again, so it is never closed. *)
Theorem superseded_session_never_updated (st : State)
        (s1 : S.ServerSession) (cd : JsVal) (env : ConnectEnv)
        (es : list Event) :
  allocated st ->
  currentSession st = Some s1 ->
  valid_request cd = true ->
  ssh_connect env = None ->
  sessionStore (run (SshConnect cd env :: es) st) !! S._id s1
  = sessionStore st !! S._id s1.
Proof.
  intros Ha Hcur Hv Hc.
  destruct (connect_new_session cd env st Hv Hc) as [(s2 & Hs2 & Hid) Hw].
  pose proof (proj1 Ha s1 Hcur) as Hlt.
  cbn [run fold_left]. fold (run es (step st (SshConnect cd env))).
  rewrite (ext_session_writes _ _ (extends_run es _)).
  - apply Hw. lia.
  - pose proof (ext_next _ _ (extends_step st (SshConnect cd env))). lia.
  - intros s Hs. rewrite Hs2 in Hs. injection Hs as <-. lia.
Qed.

Lemma superseded_session_never_updated_witness :
  let st := step (connection "s" ∅ ∅ ∅ 0)
                 (SshConnect sample_request (connect_ok 0)) in
  let es := [SshInput (js "ls") (mkInputEnv Saved Saved 20);
             SshInput [CR] (mkInputEnv Saved Saved 30);
             Disconnect 5000 Saved] in
  sessionStore (run (SshConnect sample_request (connect_ok 10) :: es) st)
    !! 0%N
  = sessionStore st !! 0%N.
Proof.
  intros st es.
  exact (superseded_session_never_updated st
           (S.set_isNew false
              (S.newSession 0 (JStr (js "u1")) (JStr (js "10.0.0.1"))
                 (JStr (js "Server 10.0.0.1")) (JStr (js "root")) 0))
           sample_request (connect_ok 10) es
           (allocated_step _ _ (allocated_connection "s" ∅ ∅ ∅ 0))
           eq_refl eq_refl eq_refl).
Defined.

(** X10.  What has been written to a shell stream stays written, and a
    stream that has closed receives nothing more: the input listener
    checks [stream.destroyed] before every write. *)
Theorem closed_stream_never_written (es : list Event) (st : State)
        (i : nat) (str : Stream) :
  streams st !! i = Some str ->
  exists str',
    streams (run es st) !! i = Some str'
    /\ written str `prefix_of` written str'
    /\ (destroyed str = true -> str' = str).
Proof.
  intros Hi.
  destruct (ext_streams _ _ (extends_run es st) i str Hi)
    as (str' & Hi' & Hp & Hd).
  exists str'. auto.
Qed.

Lemma closed_stream_never_written_witness :
  let st := run [SshConnect sample_request (connect_ok 0);
                 SshInput (js "ls") (mkInputEnv Saved Saved 20);
                 StreamClose 0 40 Saved]
                (connection "s" ∅ ∅ ∅ 0) in
  let es := [SshInput (js "pwd") (mkInputEnv Saved Saved 50);
             SshInput [CR] (mkInputEnv Saved Saved 60)] in
  exists str',
    streams (run es st) !! 0%nat = Some str'
    /\ written (mkStream true [js "ls"]) `prefix_of` written str'
    /\ (destroyed (mkStream true [js "ls"]) = true
        -> str' = mkStream true [js "ls"]).
Proof.
  intros st es.
  exact (closed_stream_never_written es st 0 (mkStream true [js "ls"])
           eq_refl).
Defined.
Lemma logs_only_refl st : logs_only st st.
Proof. repeat split; [lia|auto..]. Qed.

Lemma logs_only_trans st1 st2 st3 :
  logs_only st1 st2 -> logs_only st2 st3 -> logs_only st1 st3.
Proof.
  intros (Hn1 & Hw1 & Hc1) (Hn2 & Hw2 & Hc2). repeat split.
  - lia.
  - intros k Hk. rewrite Hw2 by lia. apply Hw1, Hk.
  - destruct Hc2 as [Hc2|(c' & Hc2 & Hid)].
    + rewrite Hc2. exact Hc1.
    + right. exists c'. split; [exact Hc2|lia].
Qed.

Lemma logs_only_onSshInput h input env st :
  logs_only st (onSshInput h input env st).2.
Proof.
  input_cases h input env st saveCurrentSession_some;
    (split; [|split]; state_simpl;
     ids_simpl session_id_saved command_id_saved;
     [lia
     |intros k Hk; rewrite ?lookup_insert_ne by lia; reflexivity
     |first [left; reflexivity
            |right; eexists; split; [reflexivity|];
             ids_simpl session_id_saved command_id_saved; lia]]).
Qed.

Lemma logs_only_callInputHandlers hs input env st :
  logs_only st (callInputHandlers hs input env st).2.
Proof.
  revert st. induction hs as [|h hs IH]; intros st; cbn.
  - apply logs_only_refl.
  - handler_steps.
    pose proof (logs_only_onSshInput h input env st) as H.
    destruct (onSshInput h input env st) as [[[]|e] st1]; cbn in H |- *;
      (eapply logs_only_trans; [exact H|apply IH]).
Qed.

(** X11.  The output of a command is stored only by its capture timer.  When
    the next command is logged before that timer fires, the earlier
    command stops being the current one and its stored record, which holds
    the output of the time it was created, is never written again. *)
Theorem replaced_command_never_updated (st : State) (c1 : C.Command)
        (input : jsstring) (env : InputEnv) (es : list Event) :
  allocated st ->
  currentCommand st = Some c1 ->
  currentCommand (step st (SshInput input env)) <> Some c1 ->
  commandStore (run (SshInput input env :: es) st) !! C._id c1
  = commandStore st !! C._id c1.
Proof.
  intros Ha Hcur Hne.
  pose proof (proj2 Ha c1 Hcur) as Hlt.
  assert (Hl : logs_only st (step st (SshInput input env))).
  { unfold step. cbn [handle]. handler_steps.
    apply logs_only_callInputHandlers. }
  destruct Hl as (Hn & Hw & Hc).
  destruct Hc as [Hc|(c' & Hc & Hid)]; [rewrite Hc in Hne; congruence|].
  cbn [run fold_left]. fold (run es (step st (SshInput input env))).
  rewrite (ext_command_writes _ _ (extends_run es _)).
  - apply Hw, Hlt.
  - lia.
  - intros c Hc2. rewrite Hc in Hc2. injection Hc2 as <-. lia.
Qed.

Lemma replaced_command_never_updated_witness :
  let st := run [SshConnect sample_request (connect_ok 0);
                 SshInput (js "ls") (mkInputEnv Saved Saved 20);
                 SshInput [CR] (mkInputEnv Saved Saved 30)]
                (connection "s" ∅ ∅ ∅ 0) in
  let es := [StreamData [Byte.x61]; CaptureTimer Saved; CaptureTimer Saved]
  in
  commandStore (run (SshInput [CR] (mkInputEnv Saved Saved 50)
                       :: es)
                  (step (step st (SshInput (js "pwd")
                                    (mkInputEnv Saved Saved 40)))
                        (StreamData [Byte.x62])))
    !! 1%N
  = commandStore (step (step st (SshInput (js "pwd")
                                   (mkInputEnv Saved Saved 40)))
                       (StreamData [Byte.x62])) !! 1%N.
Proof.
  intros st es.
  refine (replaced_command_never_updated _
           (C.set_output [98%N]
              (C.set_isNew false
                 (C.preSave
                    (C.newCommand 1 0 (JStr (js "u1")) (JStr (js "10.0.0.1"))
                       (js "ls") 30))))
           [CR] (mkInputEnv Saved Saved 50) es _ _ _).
  - repeat apply allocated_step. apply allocated_connection.
  - vm_compute. reflexivity.
  - vm_compute. discriminate.
Defined.
Lemma streamUsable_alter f i j st :
  (forall str, destroyed (f str) = destroyed str) ->
  streamUsable j (set_streams (alter f i (streams st)) st) = streamUsable j st.
Proof.
  intros Hf. unfold streamUsable. state_simpl.
  destruct (decide (i = j)) as [->|Hne].
  - rewrite list_lookup_alter_eq.
    destruct (streams st !! j) as [str|]; [|reflexivity].
    cbn [fmap option_fmap option_map]. rewrite Hf. reflexivity.
  - rewrite list_lookup_alter_ne by exact Hne. reflexivity.
Qed.

(** One listener on a chunk without a line boundary. *)
Lemma onSshInput_plain h input env st :
  is_boundary input = false ->
  exists st',
    onSshInput h input env st = (Ok tt, st')
    /\ (forall j, streamUsable j st' = streamUsable j st)
    /\ commandBuffer st'
       = commandBuffer st
         ++ (if streamUsable (h_stream h) st then input else [])
    /\ emitted st'
       = emitted st
         ++ (if streamUsable (h_stream h) st then []
             else [ssh_error connection_lost]).
Proof.
  unfold is_boundary. intros Hb.
  unfold onSshInput, streamWrite. handler_steps. state_simpl.
  destruct (streamUsable (h_stream h) st) eqn:Hu; state_simpl.
  - rewrite Hb. state_simpl. eexists. split; [reflexivity|]. state_simpl.
    rewrite app_nil_r. repeat split.
    intros j.
    apply (streamUsable_alter
             (fun str => mkStream (destroyed str) (written str ++ [input]))).
    reflexivity.
  - eexists. split; [reflexivity|]. state_simpl.
    rewrite app_nil_r. repeat split.
Qed.

Lemma filter_usable_ext st1 st (b : bool) (hs : list InputHandler) :
  (forall j, streamUsable j st1 = streamUsable j st) ->
  filter (fun h => streamUsable (h_stream h) st1 = b) hs
  = filter (fun h => streamUsable (h_stream h) st = b) hs.
Proof.
  intros Hu. induction hs as [|x l IHl]; [reflexivity|].
  rewrite !filter_cons, Hu, IHl. reflexivity.
Qed.

Lemma callInputHandlers_plain hs input env st :
  is_boundary input = false ->
  let st' := (callInputHandlers hs input env st).2 in
  (forall j, streamUsable j st' = streamUsable j st)
  /\ commandBuffer st'
     = commandBuffer st
       ++ copies (length (filter (fun h => streamUsable (h_stream h) st = true)
                                 hs)) input
  /\ emitted st'
     = emitted st
       ++ replicate
            (length (filter (fun h => streamUsable (h_stream h) st = false)
                            hs))
            (ssh_error connection_lost).
Proof.
  intros Hb. revert st.
  induction hs as [|h hs IH]; intros st; cbn [callInputHandlers].
  - cbn. rewrite !app_nil_r. repeat split.
  - handler_steps.
    destruct (onSshInput_plain h input env st Hb)
      as (st1 & Hrun & Hu & Hbuf & Hem).
    rewrite Hrun. cbv zeta.
    destruct (IH st1) as (Hu' & Hbuf' & Hem').
    split; [intros j; rewrite Hu', Hu; reflexivity|].
    rewrite Hbuf', Hem', Hbuf, Hem, !(filter_usable_ext st1 st _ hs Hu),
      !filter_cons.
    destruct (streamUsable (h_stream h) st) eqn:Hus.
    + rewrite decide_True by reflexivity.
      rewrite decide_False by discriminate.
      cbn [length]. unfold copies. cbn [replicate concat].
      rewrite app_nil_r, <- app_assoc. split; reflexivity.
    + rewrite decide_False by discriminate.
      rewrite decide_True by reflexivity.
      cbn [length replicate]. rewrite app_nil_r, <- app_assoc.
      split; reflexivity.
Qed.

(** X12.  Every connect that reaches the shell registers one more input
    listener and none is ever removed, so a chunk is handled once per
    listener: a chunk without a line boundary is appended to the shared
    command buffer once for every listener whose stream is open, and
    every listener whose stream has closed answers it with the error
    "SSH connection lost". *)
Theorem chunk_handled_once_per_listener (st : State) (input : jsstring)
        (env : InputEnv) :
  is_boundary input = false ->
  let st' := step st (SshInput input env) in
  commandBuffer st'
  = commandBuffer st ++ copies (length (usable_listeners st)) input
  /\ emitted st'
     = emitted st
       ++ replicate (length (stale_listeners st))
                    (ssh_error connection_lost).
Proof.
  intros Hb st'.
  destruct (callInputHandlers_plain (inputHandlers st) input env st Hb)
    as (_ & Hbuf & Hem).
  unfold st', step. cbn [handle]. handler_steps. split; assumption.
Qed.

Lemma chunk_handled_once_per_listener_witness :
  let st := run [SshConnect sample_request (connect_ok 0);
                 SshConnect sample_request (connect_ok 10);
                 SshConnect sample_request (connect_ok 20);
                 StreamClose 1 30 Saved]
                (connection "s" ∅ ∅ ∅ 0) in
  let st' := step st (SshInput (js "ls") (mkInputEnv Saved Saved 40)) in
  commandBuffer st' = commandBuffer st ++ js "lsls"
  /\ emitted st' = emitted st ++ [ssh_error connection_lost].
Proof.
  intros st.
  exact (chunk_handled_once_per_listener st (js "ls")
           (mkInputEnv Saved Saved 40) eq_refl).
Defined.
(** The request passes the checks of [handleSSHConnect]; what is left is
    the part of the handler after them. *)
Lemma connect_valid cd env st :
  valid_request cd = true ->
  handleSSHConnect cd env st
  = try_catch
      (await (ssh_connect env);;
       emit (ssh_connected (get cd "host") (get cd "username")
               (or_else (get cd "serverName")
                  (or_else (get cd "server_name")
                     (JStr (js "Server " ++ to_string (get cd "host"))))));;
       id ← fresh;
       modify (set_currentSession
                 (Some (S.newSession id (get (extractUserData cd) "id")
                          (get cd "host")
                          (or_else (get cd "serverName")
                             (or_else (get cd "server_name")
                                (JStr (js "Server "
                                       ++ to_string (get cd "host")))))
                          (get cd "username") (now_login env))));;
       saveCurrentSession (session_save env);;
       modify (fun st =>
         set_activeSessions
           (<[socket_id st :=
                mkEntry id (get (extractUserData cd) "id") (get cd "host")
                        (now_registry env)]> (activeSessions st)) st);;
       stream ← requestShell (request_shell env);
       modify (fun st =>
         set_inputHandlers
           (inputHandlers st
            ++ [mkHandler stream (extractUserData cd) (get cd "host")]) st))
      (fun message =>
         emit (ssh_error (if nonempty message then message
                          else unknown_error)))
      st.
Proof.
  intros Hv. destruct (valid_request_checks cd Hv) as (Hn & Hp & Hu).
  unfold handleSSHConnect, try_catch. rewrite Hn, Hp, Hu. reflexivity.
Qed.

(** X13.  When [ssh.connect] rejects, the client gets one error event with
    the message of the rejection, or "Unknown SSH connection error" when
    that message is empty, and nothing else changes: no session document
    is created, stored or registered and no listener is added. *)
Theorem failed_ssh_connect_only_reports (cd : JsVal) (env : ConnectEnv)
        (st : State) (message : jsstring) :
  valid_request cd = true ->
  ssh_connect env = Some message ->
  step st (SshConnect cd env)
  = set_emitted
      (emitted st
       ++ [ssh_error (if nonempty message then message else unknown_error)])
      st.
Proof.
  intros Hv Hc. unfold step. cbn [handle].
  rewrite (connect_valid cd env st Hv). handler_steps. rewrite Hc.
  reflexivity.
Qed.

Lemma failed_ssh_connect_only_reports_witness :
  let st := connection "s" ∅ ∅ ∅ 0 in
  step st (SshConnect sample_request
             (mkConnectEnv (Some []) Saved None 0 0))
  = set_emitted (emitted st ++ [ssh_error unknown_error]) st.
Proof.
  intros st.
  exact (failed_ssh_connect_only_reports sample_request
           (mkConnectEnv (Some []) Saved None 0 0) st [] eq_refl eq_refl).
Defined.

(** X14.  When the first save of the new session rejects, the client has
    already been told that it is connected and then gets the error; no
    record is stored or registered and no shell is requested.  The
    unsaved document stays the current session of the connection, so the
    next close signal whose save succeeds stores it, as a disconnected
    session. *)
Theorem unsaved_session_stored_at_close (cd : JsVal) (env : ConnectEnv)
        (st : State) (hook_ran : bool) (message : jsstring)
        (e : Event) (now : Z) :
  valid_request cd = true ->
  ssh_connect env = None ->
  session_save env = Failed hook_ran message ->
  close_signal e = Some (now, Saved) ->
  let st1 := step st (SshConnect cd env) in
  let s := S.newSession (nextId st) (get (extractUserData cd) "id")
             (get cd "host")
             (or_else (get cd "serverName")
                (or_else (get cd "server_name")
                   (JStr (js "Server " ++ to_string (get cd "host")))))
             (get cd "username") (now_login env) in
  emitted st1
  = emitted st
    ++ [ssh_connected (get cd "host") (get cd "username") (S.server_name s);
        ssh_error (if nonempty message then message else unknown_error)]
  /\ sessionStore st1 = sessionStore st
  /\ activeSessions st1 = activeSessions st
  /\ streams st1 = streams st
  /\ inputHandlers st1 = inputHandlers st
  /\ currentSession st1 = Some s
  /\ sessionStore (step st1 e) !! nextId st
     = Some (S.set_isNew false (finalized s now)).
Proof.
  intros Hv Hc Hs He st1 s.
  assert (Hst1 : st1
            = set_emitted
                (emitted st
                 ++ [ssh_connected (get cd "host") (get cd "username")
                       (S.server_name s);
                     ssh_error (if nonempty message then message
                                else unknown_error)])
                (set_currentSession (Some s)
                   (set_nextId (nextId st + 1) st))).
  { unfold st1, step. cbn [handle].
    rewrite (connect_valid cd env st Hv). handler_steps. rewrite Hc.
    state_simpl. erewrite saveCurrentSession_some by reflexivity.
    rewrite Hs. state_simpl. rewrite <- app_assoc.
    destruct hook_ran; reflexivity. }
  rewrite Hst1. state_simpl. repeat split.
  destruct (close_signal_step
              (set_emitted
                 (emitted st
                  ++ [ssh_connected (get cd "host") (get cd "username")
                        (S.server_name s);
                      ssh_error (if nonempty message then message
                                 else unknown_error)])
                 (set_currentSession (Some s)
                    (set_nextId (nextId st + 1) st)))
              e now Saved He) as (_ & Hm & _).
  rewrite Hm. erewrite handleSessionEnd_some by reflexivity.
  state_simpl. apply lookup_insert_eq.
Qed.

Lemma unsaved_session_stored_at_close_witness :
  let st := connection "s" ∅ ∅ ∅ 0 in
  let env := mkConnectEnv None (Failed false (js "down")) None 10 10 in
  let st1 := step st (SshConnect sample_request env) in
  let s := S.newSession 0 (JStr (js "u1")) (JStr (js "10.0.0.1"))
             (JStr (js "Server 10.0.0.1")) (JStr (js "root")) 10 in
  emitted st1
  = [ssh_connected (JStr (js "10.0.0.1")) (JStr (js "root"))
       (JStr (js "Server 10.0.0.1"));
     ssh_error (js "down")]
  /\ sessionStore st1 = ∅
  /\ activeSessions st1 = ∅
  /\ streams st1 = []
  /\ inputHandlers st1 = []
  /\ currentSession st1 = Some s
  /\ sessionStore (step st1 (Disconnect 5010 Saved)) !! 0%N
     = Some (S.set_isNew false (finalized s 5010)).
Proof.
  intros st env st1 s.
  exact (unsaved_session_stored_at_close sample_request env st false
           (js "down") (Disconnect 5010 Saved) 5010
           eq_refl eq_refl eq_refl eq_refl).
Defined.


Lemma command_output_saved c : C.output (C.preSave c) = C.output c.
Proof. unfold C.preSave. destruct (_ && _); reflexivity. Qed.

Lemma run_StreamData chunks st :
  run (map StreamData chunks) st
  = set_currentCommand
      (match currentCommand st with
       | Some c =>
           Some (C.set_output
                   (C.output c ++ concat (map Utf8.toString chunks)) c)
       | None => None
       end)
      (set_emitted
         (emitted st ++ map (fun d => ssh_output (Utf8.toString d)) chunks)
         st).
Proof.
  revert st. induction chunks as [|d chunks IH]; intros st.
  - destruct st as [? ? ? [c|] ? ? ? ? ? ? ? ?]; [destruct c|];
      cbn; rewrite !app_nil_r; reflexivity.
  - cbn [map run fold_left]. fold (run (map StreamData chunks)).
    rewrite IH. unfold step. cbn [handle]. unfold onStreamData.
    handler_steps. state_simpl.
    destruct (currentCommand st) as [c|] eqn:Hc;
      unfold set_currentCommand, set_emitted; state_simpl;
      rewrite ?Hc, <- ?app_assoc; cbn [C.output C.set_output concat];
      rewrite <- ?app_assoc; reflexivity.
Qed.

(** X16.  The output that arrives between the logging of a command and its
    capture timer is what the timer stores: the stored output is the
    output the command had, followed by the decoded chunks in arrival
    order; after the timer the connection has no current command, so later
    output is relayed but not recorded. *)
Theorem capture_timer_stores_output (st : State) (c : C.Command)
        (chunks later : list (list Byte.byte)) :
  currentCommand st = Some c ->
  let st' := step (run (map StreamData chunks) st) (CaptureTimer Saved) in
  (C.output <$> commandStore st' !! C._id c)
  = Some (C.output c ++ concat (map Utf8.toString chunks))
  /\ currentCommand st' = None
  /\ commandStore (run (map StreamData later) st') = commandStore st'.
Proof.
  intros Hc st'.
  set (c' := C.set_output (C.output c ++ concat (map Utf8.toString chunks))
               c).
  assert (Hst' : st'
            = set_currentCommand None
                (set_commandStore
                   (<[C._id c := C.set_isNew false (C.preSave c')]>
                      (commandStore st))
                   (set_pendingTimers (pred (pendingTimers st))
                      (set_emitted
                         (emitted st
                          ++ map (fun d => ssh_output (Utf8.toString d))
                                 chunks)
                         st)))).
  { unfold st'. rewrite run_StreamData, Hc. unfold step. cbn [handle].
    unfold onCaptureTimer, saveCommand. handler_steps. state_simpl.
    fold c'. ids_simpl session_id_saved command_id_saved.
    unfold c'. cbn [C._id C.set_output]. reflexivity. }
  rewrite Hst'. state_simpl. split; [|split].
  - rewrite lookup_insert_eq. cbn [fmap option_fmap option_map].
    cbn [C.output C.set_isNew]. rewrite command_output_saved. reflexivity.
  - reflexivity.
  - rewrite run_StreamData. reflexivity.
Qed.

Lemma capture_timer_stores_output_witness :
  let st := run [SshConnect sample_request (connect_ok 0);
                 SshInput (js "ls") (mkInputEnv Saved Saved 20);
                 SshInput [CR] (mkInputEnv Saved Saved 30)]
                (connection "s" ∅ ∅ ∅ 0) in
  let chunks := [[Byte.x61; Byte.x0a]; [Byte.x62]] in
  let st' := step (run (map StreamData chunks) st) (CaptureTimer Saved) in
  (C.output <$> commandStore st' !! 1%N) = Some (js "a" ++ [LF] ++ js "b")
  /\ currentCommand st' = None
  /\ commandStore (run (map StreamData [[Byte.x63]]) st')
     = commandStore st'.
Proof.
  intros st chunks.
  exact (capture_timer_stores_output st
           (C.set_isNew false
              (C.preSave
                 (C.newCommand 1 0 (JStr (js "u1")) (JStr (js "10.0.0.1"))
                    (js "ls") 30)))
           chunks [[Byte.x63]] eq_refl).
Defined.

(** X17.  When the save of a close signal rejects, the error is swallowed:
    the current session is marked disconnected in memory only, the stored
    record is not touched and the registry entry of the connection is not
    removed, so the registry keeps listing the session. *)
Theorem failed_finalize_keeps_registry_entry (st : State)
        (s : S.ServerSession) (e : Event) (now : Z) (hook_ran : bool)
        (message : jsstring) :
  currentSession st = Some s ->
  close_signal e = Some (now, Failed hook_ran message) ->
  let st' := step st e in
  currentSession st' = Some (finalized s now)
  /\ sessionStore st' = sessionStore st
  /\ activeSessions st' = activeSessions st.
Proof.
  intros Hs He st'.
  destruct (close_signal_step st e now _ He) as (Hc & Hm & Hr & _).
  unfold st'. rewrite Hc, Hm, Hr.
  rewrite (handleSessionEnd_some st s) by exact Hs. repeat split.
Qed.

Lemma failed_finalize_keeps_registry_entry_witness :
  let st := step (connection "s" ∅ ∅ ∅ 0)
                 (SshConnect sample_request (connect_ok 0)) in
  let s := S.set_isNew false
             (S.newSession 0 (JStr (js "u1")) (JStr (js "10.0.0.1"))
                (JStr (js "Server 10.0.0.1")) (JStr (js "root")) 0) in
  let st' := step st (Disconnect 5000 (Failed true (js "down"))) in
  currentSession st' = Some (finalized s 5000)
  /\ sessionStore st' = sessionStore st
  /\ activeSessions st' = activeSessions st.
Proof.
  intros st s.
  exact (failed_finalize_keeps_registry_entry st s
           (Disconnect 5000 (Failed true (js "down"))) 5000 true (js "down")
           eq_refl eq_refl).
Defined.

(* ===================================================================== *)
(** ** The singletons of the browser tab under any sequence of calls *)
(* ===================================================================== *)

Lemma lookup_alter_shut (ss : list Client.Socket) j i s :
  alter Client.shut_socket j ss !! i = Some s ->
  (i = j /\ Client.closed s = true) \/ (i <> j /\ ss !! i = Some s).
Proof.
  intros H. destruct (decide (j = i)) as [->|Hne].
  - left. rewrite list_lookup_alter_eq in H.
    destruct (ss !! i); [|discriminate]. injection H as <-. auto.
  - right. rewrite list_lookup_alter_ne in H by exact Hne. auto.
Qed.

Lemma singleton_ok_fresh mounted : singleton_ok (Client.fresh_tab mounted).
Proof.
  split; [|split]; cbn.
  - intros i s H. discriminate H.
  - intros i H. discriminate H.
  - auto.
Qed.

Lemma singleton_ok_cleanup st :
  singleton_ok st -> singleton_ok (Client.cleanupConnection st).
Proof.
  intros (Ha & Hb & Hc). unfold Client.cleanupConnection.
  split; [|split]; cbn.
  - intros i s Hi Hcl. exfalso.
    destruct (Client.globalSocketInstance st) as [j|] eqn:Hg.
    + apply lookup_alter_shut in Hi as [[_ Hx]|[Hne Hi]]; [congruence|].
      specialize (Ha i s Hi Hcl). congruence.
    + specialize (Ha i s Hi Hcl). discriminate.
  - intros i H. discriminate H.
  - auto.
Qed.

Lemma singleton_ok_handleDisconnect st :
  singleton_ok st -> singleton_ok (Client.handleDisconnect st).
Proof.
  intros Hok. pose proof Hok as (Ha & Hb & Hc). unfold Client.handleDisconnect.
  destruct (Client.globalSocketInstance st) as [j|] eqn:Hg.
  2: { apply singleton_ok_cleanup, Hok. }
  unfold Client.cleanupConnection. split; [|split]; cbn.
  - intros i s Hi Hcl. exfalso.
    apply lookup_alter_shut in Hi as [[_ Hx]|[Hne Hi]]; [congruence|].
    rewrite list_lookup_alter_ne in Hi by congruence.
    specialize (Ha i s Hi Hcl). congruence.
  - intros i H. discriminate H.
  - auto.
Qed.

Lemma singleton_ok_handleReconnect data st :
  singleton_ok st -> singleton_ok (Client.handleReconnect data st).
Proof.
  intros Hok. pose proof Hok as (Ha & Hb & Hc). unfold Client.handleReconnect.
  destruct (truthy data); [|exact Hok].
  split; [|split]; cbn.
  - intros i s Hi Hcl. exfalso.
    destruct (Client.globalSocketInstance st) as [j|] eqn:Hg.
    + apply lookup_alter_shut in Hi as [[_ Hx]|[Hne Hi]]; [congruence|].
      specialize (Ha i s Hi Hcl). congruence.
    + specialize (Ha i s Hi Hcl). discriminate.
  - intros i H. discriminate H.
  - auto.
Qed.

Lemma singleton_ok_reuseExisting st :
  singleton_ok st -> singleton_ok (Client.reuseExisting st).
Proof.
  intros H. unfold Client.reuseExisting.
  destruct (Client.globalTerminalInstance st); [|exact H].
  destruct (_ && _); [|exact H].
  destruct H as (Ha & Hb & Hc). split; [|split]; cbn; assumption.
Qed.

Lemma singleton_ok_createInstances data st :
  Client.globalIsInitialized st = false ->
  singleton_ok st -> singleton_ok (Client.createInstances data st).
Proof.
  intros Hinit (Ha & Hb & Hc). destruct (Hc Hinit) as [Hg Hl].
  unfold Client.createInstances, Client.setupTerminalInputHandlers,
    Client.setupSocketEventListeners.
  cbn. rewrite Hl, Hg. cbn.
  assert (Hnew : alter
                   (fun s => Client.mkSocket (Client.sock_connected s)
                               (Client.closed s)
                               (Client.listeners s ++ Client.socket_events)
                               (Client.sock_data s))
                   (length (Client.sockets st))
                   (Client.sockets st
                    ++ [Client.mkSocket false false [] data])
                 = Client.sockets st
                   ++ [Client.mkSocket false false Client.socket_events
                         data]).
  { rewrite alter_app_r_alt by lia.
    rewrite Nat.sub_diag. reflexivity. }
  rewrite Hnew. split; [|split]; cbn.
  - intros i s Hi Hcl.
    destruct (decide (i < length (Client.sockets st))%nat) as [Hlt|Hge].
    + rewrite lookup_app_l in Hi by exact Hlt.
      specialize (Ha i s Hi Hcl). congruence.
    + rewrite lookup_app_r in Hi by lia.
      destruct (i - length (Client.sockets st))%nat as [|n] eqn:Hd;
        [|destruct n; discriminate Hi].
      f_equal. lia.
  - intros i Hi. injection Hi as <-.
    eexists. rewrite lookup_app_r by lia. rewrite Nat.sub_diag.
    split; [reflexivity|]. split; reflexivity.
  - discriminate.
Qed.

Lemma singleton_ok_call st c :
  singleton_ok st -> singleton_ok (Client.call st c).
Proof.
  intros H. destruct c; cbn [Client.call].
  - unfold Client.initializeTerminal.
    destruct (Client.globalIsInitialized st) eqn:Hi.
    + apply singleton_ok_reuseExisting, H.
    + apply singleton_ok_createInstances; assumption.
  - apply singleton_ok_cleanup, H.
  - apply singleton_ok_handleDisconnect, H.
  - apply singleton_ok_handleReconnect, H.
Qed.

Lemma singleton_ok_calls cs st :
  singleton_ok st -> singleton_ok (Client.calls cs st).
Proof.
  revert st. induction cs as [|c cs IH]; intros st H; cbn.
  - exact H.
  - apply IH, singleton_ok_call, H.
Qed.
Lemma lookup_alter_dispose (ts : list Client.Terminal) j i t :
  alter Client.dispose_terminal j ts !! i = Some t ->
  (i = j /\ Client.isDisposed t = true) \/ (i <> j /\ ts !! i = Some t).
Proof.
  intros H. destruct (decide (j = i)) as [->|Hne].
  - left. rewrite list_lookup_alter_eq in H.
    destruct (ts !! i); [|discriminate]. injection H as <-. auto.
  - right. rewrite list_lookup_alter_ne in H by exact Hne. auto.
Qed.

Lemma terminalRef_call st c :
  Client.terminalRef (Client.call st c) = Client.terminalRef st.
Proof.
  destruct c; cbn [Client.call].
  - unfold Client.initializeTerminal, Client.reuseExisting,
      Client.createInstances, Client.setupTerminalInputHandlers,
      Client.setupSocketEventListeners.
    destruct (Client.globalIsInitialized st).
    + destruct (Client.globalTerminalInstance st); [|reflexivity].
      destruct (_ && _); reflexivity.
    + cbn. destruct (Client.globalEventListenersAttached st); reflexivity.
  - reflexivity.
  - unfold Client.handleDisconnect.
    destruct (Client.globalSocketInstance st); reflexivity.
  - unfold Client.handleReconnect. destruct (truthy _); reflexivity.
Qed.

Lemma terminalRef_calls cs st :
  Client.terminalRef (Client.calls cs st) = Client.terminalRef st.
Proof.
  revert st. induction cs as [|c cs IH]; intros st; cbn; [reflexivity|].
  rewrite IH. apply terminalRef_call.
Qed.

Lemma terminal_singleton_ok_fresh mounted :
  terminal_singleton_ok (Client.fresh_tab mounted).
Proof.
  split; [|split]; cbn.
  - intros i t H. discriminate H.
  - intros i H. discriminate H.
  - auto.
Qed.

Lemma terminal_singleton_ok_cleanup st :
  terminal_singleton_ok st ->
  terminal_singleton_ok (Client.cleanupConnection st).
Proof.
  intros Hok. pose proof Hok as (Ha & Hb & Hc).
  unfold Client.cleanupConnection, Client.terminal_disposed.
  destruct (Client.globalTerminalInstance st) as [j|] eqn:Hg.
  - destruct (Hb j eq_refl) as (t0 & Ht0 & Hd0). rewrite Ht0, Hd0.
    split; [|split]; cbn.
    + intros i t Hi Hd. exfalso.
      apply lookup_alter_dispose in Hi as [[_ Hx]|[Hne Hi]]; [congruence|].
      specialize (Ha i t Hi Hd). congruence.
    + intros i H. discriminate H.
    + auto.
  - split; [|split]; cbn.
    + intros i t Hi Hd. specialize (Ha i t Hi Hd). discriminate.
    + intros i H. discriminate H.
    + auto.
Qed.

Lemma terminal_singleton_ok_handleDisconnect st :
  terminal_singleton_ok st ->
  terminal_singleton_ok (Client.handleDisconnect st).
Proof.
  intros Hok. unfold Client.handleDisconnect.
  destruct (Client.globalSocketInstance st) as [j|].
  - apply terminal_singleton_ok_cleanup.
    destruct Hok as (Ha & Hb & Hc). split; [|split]; cbn; assumption.
  - apply terminal_singleton_ok_cleanup, Hok.
Qed.

Lemma terminal_singleton_ok_handleReconnect data st :
  terminal_singleton_ok st ->
  terminal_singleton_ok (Client.handleReconnect data st).
Proof.
  intros Hok. pose proof Hok as (Ha & Hb & Hc).
  unfold Client.handleReconnect.
  destruct (truthy data); [|exact Hok].
  split; [|split]; cbn.
  - intros i t Hi Hd. exfalso.
    destruct (Client.globalTerminalInstance st) as [j|] eqn:Hg.
    + apply lookup_alter_dispose in Hi as [[_ Hx]|[Hne Hi]]; [congruence|].
      specialize (Ha i t Hi Hd). congruence.
    + specialize (Ha i t Hi Hd). discriminate.
  - intros i H. discriminate H.
  - auto.
Qed.

Lemma terminal_singleton_ok_reuseExisting st :
  terminal_singleton_ok st -> terminal_singleton_ok (Client.reuseExisting st).
Proof.
  intros H. unfold Client.reuseExisting.
  destruct (Client.globalTerminalInstance st) eqn:Hg; [|exact H].
  destruct (_ && _); [|exact H].
  destruct H as (Ha & Hb & Hc). split; [|split]; cbn; rewrite ?Hg;
    rewrite ?Hg in *; assumption.
Qed.

Lemma terminal_singleton_ok_createInstances data st :
  Client.terminalRef st = true ->
  Client.globalIsInitialized st = false ->
  terminal_singleton_ok st ->
  terminal_singleton_ok (Client.createInstances data st).
Proof.
  intros Hm Hinit (Ha & Hb & Hc). specialize (Hc Hinit).
  unfold Client.createInstances, Client.setupTerminalInputHandlers,
    Client.setupSocketEventListeners.
  cbn. rewrite Hm.
  destruct (Client.globalEventListenersAttached st); (split; [|split]); cbn.
  all: try discriminate.
  all: try (intros i t Hi Hd;
            destruct (decide (i < length (Client.terminals st))%nat)
              as [Hlt|Hge];
            [rewrite lookup_app_l in Hi by exact Hlt;
             specialize (Ha i t Hi Hd); congruence
            |rewrite lookup_app_r in Hi by lia;
             destruct (i - length (Client.terminals st))%nat as [|n] eqn:Hd';
             [f_equal; lia|destruct n; discriminate Hi]]).
  all: intros i Hi; injection Hi as <-;
    eexists; rewrite lookup_app_r by lia; rewrite Nat.sub_diag;
    split; reflexivity.
Qed.

Lemma terminal_singleton_ok_call st c :
  Client.terminalRef st = true ->
  terminal_singleton_ok st -> terminal_singleton_ok (Client.call st c).
Proof.
  intros Hm H. destruct c; cbn [Client.call].
  - unfold Client.initializeTerminal.
    destruct (Client.globalIsInitialized st) eqn:Hi.
    + apply terminal_singleton_ok_reuseExisting, H.
    + apply terminal_singleton_ok_createInstances; assumption.
  - apply terminal_singleton_ok_cleanup, H.
  - apply terminal_singleton_ok_handleDisconnect, H.
  - apply terminal_singleton_ok_handleReconnect, H.
Qed.

Lemma terminal_singleton_ok_calls cs st :
  Client.terminalRef st = true ->
  terminal_singleton_ok st -> terminal_singleton_ok (Client.calls cs st).
Proof.
  revert st. induction cs as [|c cs IH]; intros st Hm H; cbn.
  - exact H.
  - apply IH; [rewrite terminalRef_call; exact Hm|].
    apply terminal_singleton_ok_call; assumption.
Qed.
Lemma filter_nothing {A} (P : A -> Prop) `{forall x, Decision (P x)}
      (l : list A) :
  (forall j y, l !! j = Some y -> ~ P y) -> filter P l = [].
Proof.
  induction l as [|a l IH]; intros Hn; [reflexivity|].
  rewrite filter_cons. rewrite decide_False by exact (Hn 0%nat a eq_refl).
  apply IH. intros j y Hj. exact (Hn (Datatypes.S j) y Hj).
Qed.

Lemma filter_only {A} (P : A -> Prop) `{forall x, Decision (P x)}
      (l : list A) (i : nat) (x : A) :
  l !! i = Some x -> P x ->
  (forall j y, l !! j = Some y -> P y -> j = i) ->
  filter P l = [x].
Proof.
  revert i. induction l as [|a l IH]; intros i Hi Hx Hu; [discriminate Hi|].
  rewrite filter_cons. destruct i as [|i].
  - injection Hi as ->. rewrite decide_True by exact Hx. f_equal.
    apply filter_nothing. intros j y Hj Hy.
    specialize (Hu (Datatypes.S j) y Hj Hy). discriminate Hu.
  - destruct (decide (P a)) as [Ha|Ha].
    + specialize (Hu 0%nat a eq_refl Ha). discriminate Hu.
    + apply (IH i); [exact Hi|exact Hx|].
      intros j y Hj Hy. specialize (Hu (Datatypes.S j) y Hj Hy). lia.
Qed.

(** X18.  Whatever calls of [initializeTerminal], [cleanupConnection],
    [handleDisconnect] and [handleReconnect] a tab has seen, in whatever
    order, at most one socket has not been shut: it is the global socket,
    and it carries each of the seven listeners exactly once. *)
Theorem live_socket_is_global_socket (cs : list Client.Call)
        (mounted : bool) :
  let st := Client.calls cs (Client.fresh_tab mounted) in
  Client.live_sockets st = global_socket st
  /\ (length (Client.live_sockets st) <= 1)%nat
  /\ Forall (fun s => Client.listeners s = Client.socket_events)
            (Client.live_sockets st).
Proof.
  intros st.
  destruct (singleton_ok_calls cs _ (singleton_ok_fresh mounted))
    as (Ha & Hb & _).
  fold st in Ha, Hb.
  unfold Client.live_sockets, global_socket.
  destruct (Client.globalSocketInstance st) as [i|] eqn:Hg.
  - destruct (Hb i eq_refl) as (s & Hs & Hcl & Hl).
    rewrite Hs. cbn [option_list].
    rewrite (filter_only _ _ i s Hs Hcl).
    + split; [reflexivity|]. split; [cbn; lia|]. constructor; [exact Hl|].
      constructor.
    + intros j y Hj Hy. specialize (Ha j y Hj Hy). congruence.
  - rewrite filter_nothing.
    + split; [reflexivity|]. split; [cbn; lia|]. constructor.
    + intros j y Hj Hy. specialize (Ha j y Hj Hy). discriminate.
Qed.

(** X19.  In a tab whose terminal node is mounted, whatever the calls, at
    most one terminal widget has not been disposed, and it is the global
    one. *)
Theorem live_terminal_is_global_terminal (cs : list Client.Call) :
  let st := Client.calls cs (Client.fresh_tab true) in
  Client.live_terminals st = global_terminal st
  /\ (length (Client.live_terminals st) <= 1)%nat.
Proof.
  intros st.
  destruct (terminal_singleton_ok_calls cs (Client.fresh_tab true) eq_refl
              (terminal_singleton_ok_fresh true)) as (Ha & Hb & _).
  fold st in Ha, Hb.
  unfold Client.live_terminals, global_terminal.
  destruct (Client.globalTerminalInstance st) as [i|] eqn:Hg.
  - destruct (Hb i eq_refl) as (t & Ht & Hd).
    rewrite Ht. cbn [option_list].
    rewrite (filter_only _ _ i t Ht Hd).
    + split; [reflexivity|]. cbn; lia.
    + intros j y Hj Hy. specialize (Ha j y Hj Hy). congruence.
  - rewrite filter_nothing.
    + split; [reflexivity|]. cbn; lia.
    + intros j y Hj Hy. specialize (Ha j y Hj Hy). discriminate.
Qed.

Lemma unmounted_call st c :
  Client.terminalRef st = false ->
  Client.globalTerminalInstance st = None ->
  Client.globalTerminalInstance (Client.call st c) = None
  /\ (exists more, Client.terminals (Client.call st c)
                   = Client.terminals st ++ more
                   /\ Forall (fun t => Client.isDisposed t = false) more).
Proof.
  intros Hm Hg. destruct c; cbn [Client.call].
  - unfold Client.initializeTerminal, Client.reuseExisting,
      Client.createInstances, Client.setupTerminalInputHandlers,
      Client.setupSocketEventListeners.
    destruct (Client.globalIsInitialized st).
    + rewrite Hg. split; [exact Hg|]. exists []. rewrite app_nil_r. auto.
    + cbn. rewrite Hm.
      destruct (Client.globalEventListenersAttached st); cbn;
        (split; [exact Hg|]); eexists; (split; [reflexivity|]);
        repeat constructor.
  - unfold Client.cleanupConnection. rewrite Hg. cbn.
    split; [reflexivity|]. exists []. rewrite app_nil_r. auto.
  - unfold Client.handleDisconnect, Client.cleanupConnection.
    destruct (Client.globalSocketInstance st); cbn; rewrite Hg; cbn;
      (split; [reflexivity|]); exists []; rewrite app_nil_r; auto.
  - unfold Client.handleReconnect. destruct (truthy _); cbn; rewrite ?Hg;
      (split; [reflexivity|]); exists []; rewrite app_nil_r; auto.
Qed.

(** X20.  In a tab whose terminal node is not mounted, [initializeTerminal]
    still makes a widget each time its guard is open, but the widget
    never becomes the global instance, so no teardown ever disposes it:
    every widget made stays live. *)
Theorem unmounted_widgets_never_disposed (cs : list Client.Call)
        (data : JsVal) :
  let st := Client.calls cs (Client.fresh_tab false) in
  Client.globalTerminalInstance st = None
  /\ Client.live_terminals st = Client.terminals st
  /\ length (Client.terminals (Client.initializeTerminal data st))
     = if Client.globalIsInitialized st
       then length (Client.terminals st)
       else Datatypes.S (length (Client.terminals st)).
Proof.
  intros st.
  assert (Hinv : Client.terminalRef st = false
                 /\ Client.globalTerminalInstance st = None
                 /\ Forall (fun t => Client.isDisposed t = false)
                           (Client.terminals st)).
  { unfold st. clear st.
    induction cs as [|c cs IH] using rev_ind.
    - cbn. auto.
    - unfold Client.calls. rewrite fold_left_app. cbn [fold_left].
      fold (Client.calls cs (Client.fresh_tab false)).
      destruct IH as (Hm & Hg & Hall).
      destruct (unmounted_call _ c Hm Hg) as (Hg' & more & Hts & Hmore).
      rewrite terminalRef_call, Hts. split; [exact Hm|].
      split; [exact Hg'|]. apply Forall_app. auto. }
  destruct Hinv as (Hm & Hg & Hall). split; [exact Hg|]. split.
  - unfold Client.live_terminals.
    induction (Client.terminals st) as [|t ts IHt]; [reflexivity|].
    rewrite filter_cons. inversion Hall as [|? ? Ht Hts]; subst.
    rewrite decide_True by exact Ht. f_equal. apply IHt, Hts.
  - unfold Client.initializeTerminal, Client.reuseExisting,
      Client.createInstances, Client.setupTerminalInputHandlers,
      Client.setupSocketEventListeners.
    destruct (Client.globalIsInitialized st).
    + rewrite Hg. reflexivity.
    + cbn. destruct (Client.globalEventListenersAttached st); cbn;
        rewrite length_app; cbn; lia.
Qed.
Lemma input_bound_ok_call st c :
  input_bound_ok st -> input_bound_ok (Client.call st c).
Proof.
  intros [Hk Hs]. destruct c; cbn [Client.call].
  - unfold Client.initializeTerminal, Client.reuseExisting,
      Client.createInstances, Client.setupTerminalInputHandlers,
      Client.setupSocketEventListeners.
    destruct (Client.globalIsInitialized st).
    + destruct (Client.globalTerminalInstance st); [|split; assumption].
      destruct (_ && _); split; assumption.
    + cbn. destruct (Client.globalEventListenersAttached st);
        split; reflexivity.
  - split; reflexivity.
  - unfold Client.handleDisconnect.
    destruct (Client.globalSocketInstance st); split; reflexivity.
  - unfold Client.handleReconnect.
    destruct (truthy _); split; try reflexivity; assumption.
Qed.

(** X21.  Terminal input is sent on the global socket only: after any
    sequence of calls, the data handler and the key handler of the tab
    are bound to the same widget and to the socket that
    [globalSocketInstance] names, never to a socket that has been shut,
    and there are handlers exactly when there is a global socket. *)
Theorem input_handlers_bound_to_global_socket (cs : list Client.Call)
        (mounted : bool) :
  let st := Client.calls cs (Client.fresh_tab mounted) in
  Client.globalKeyHandler st = Client.globalInputHandler st
  /\ Client.globalSocketInstance st = snd <$> Client.globalInputHandler st
  /\ Forall (fun s => Client.closed s = false) (global_socket st).
Proof.
  intros st.
  assert (H : input_bound_ok st).
  { unfold st. clear st. induction cs as [|c cs IH] using rev_ind.
    - split; reflexivity.
    - unfold Client.calls. rewrite fold_left_app. cbn [fold_left].
      apply input_bound_ok_call, IH. }
  destruct H as [Hk Hs]. split; [exact Hk|]. split; [exact Hs|].
  destruct (singleton_ok_calls cs _ (singleton_ok_fresh mounted))
    as (_ & Hb & _).
  fold st in Hb. unfold global_socket.
  destruct (Client.globalSocketInstance st) as [i|]; [|constructor].
  destruct (Hb i eq_refl) as (s & Hi & Hcl & _). rewrite Hi.
  constructor; [exact Hcl|constructor].
Qed.

(* ===================================================================== *)
(** ** Closing a session with [endSession]; the save hooks *)
(* ===================================================================== *)

(** X22.  [endSession] closes a session as the close signals of the socket
    server do: with no reason given the record is the one that
    [handleSessionEnd] builds.  For every reason the duration it sets is
    the number of whole seconds from creation to closing, the pre-save
    hook that runs at its save changes nothing, and the status is the
    reason given. *)
Theorem endSession_accounting (s : S.ServerSession) (now : Z)
        (reason : option S.Status) :
  let s' := S.endSession reason now s in
  S.endSession None now s = finalized s now
  /\ S.preSave s' = s'
  /\ S.status s' = default S.disconnected reason
  /\ S.logout_time s' = Some now
  /\ exists d, S.session_duration s' = Some d
               /\ 1000 * d <= now - S.login_time s < 1000 * d + 1000.
Proof.
  intros s'. split; [reflexivity|]. split.
  - apply preSave_ok. reflexivity.
  - split; [reflexivity|]. split; [reflexivity|].
    exists ((now - S.login_time s) / 1000). split; [reflexivity|].
    pose proof (Z.div_mod (now - S.login_time s) 1000 ltac:(lia)).
    pose proof (Z.mod_pos_bound (now - S.login_time s) 1000 ltac:(lia)).
    lia.
Qed.

(** X23.  The pre-save hook of a session is idempotent, and so is that of
    a command: saving a document again changes nothing that the first
    save has set. *)
Theorem save_hooks_idempotent (s : S.ServerSession) (c : C.Command) :
  S.preSave (S.preSave s) = S.preSave s
  /\ C.preSave (C.preSave c) = C.preSave c.
Proof.
  split.
  - destruct s as [i u ip nm us li lo du stt ce nw]. unfold S.preSave.
    cbn. destruct lo as [t|]; [|reflexivity].
    destruct (S.duration_falsy du) eqn:Hd; cbn; [|rewrite Hd; reflexivity].
    destruct (_ =? 0); reflexivity.
  - unfold C.preSave at 2 3.
    destruct (nonempty (C.command c) && C.isNew c) eqn:Hn.
    + unfold C.preSave, C.checkIfDangerous, C.classifyCommand.
      cbn. rewrite Hn. reflexivity.
    + unfold C.preSave. rewrite Hn. reflexivity.
Qed.

(* ===================================================================== *)
(** ** The format checks *)
(* ===================================================================== *)

Lemma matches_cls_inv f p s p' s' :
  matches (Cls f) p s p' s'
  <-> exists c, s = c :: s' /\ f c = true /\ p' = Some c.
Proof.
  split.
  - intros H. inversion H as [|g d q t Hf| | | | | | | |]; subst. eauto.
  - intros (c & -> & Hf & ->). constructor. exact Hf.
Qed.

Lemma matches_alt_inv a b p s p' s' :
  matches (Alt a b) p s p' s' <-> matches a p s p' s' \/ matches b p s p' s'.
Proof.
  split.
  - intros H.
    inversion H as [| | |a0 b0 q t q' t' Hl|a0 b0 q t q' t' Hr| | | | |];
      subst; auto.
  - intros [H|H]; [apply m_alt_l|apply m_alt_r]; exact H.
Qed.

Lemma matches_eol_inv p s p' s' :
  matches Eol p s p' s' <-> s = [] /\ s' = [] /\ p' = p.
Proof.
  split.
  - intros H. inversion H; subst. repeat split.
  - intros (-> & -> & ->). constructor.
Qed.

Lemma prev_after_app p w1 w2 :
  prev_after p (w1 ++ w2) = prev_after (prev_after p w1) w2.
Proof. unfold prev_after. apply fold_left_app. Qed.

Lemma matches_star_cls_inv f p s p' s' :
  matches (Star (Cls f)) p s p' s' ->
  exists w, s = w ++ s' /\ p' = prev_after p w
            /\ Forall (fun c => f c = true) w.
Proof.
  intros H. remember (Star (Cls f)) as r eqn:Hr.
  induction H as [| | | | |a q t|a q t q1 t1 q2 t2 Ha _ Hlen Hs IH| | |];
    try discriminate Hr.
  - exists []. repeat split. constructor.
  - injection Hr as ->.
    apply matches_cls_inv in Ha as (c & -> & Hc & ->).
    destruct (IH eq_refl) as (w & -> & -> & Hall).
    exists (c :: w). repeat split. constructor; assumption.
Qed.

Lemma matches_plus_cls_inv f p s p' s' :
  matches (Plus (Cls f)) p s p' s' ->
  exists w, w <> [] /\ s = w ++ s' /\ p' = prev_after p w
            /\ Forall (fun c => f c = true) w.
Proof.
  unfold Plus. intros H.
  apply matches_seq_inv in H as (p1 & s1 & Hc & Hs).
  apply matches_cls_inv in Hc as (c & -> & Hc & ->).
  apply matches_star_cls_inv in Hs as (w & -> & -> & Hall).
  exists (c :: w). split; [discriminate|]. repeat split.
  constructor; assumption.
Qed.
Lemma test_anchored_iff r s :
  test (Seq Bol r) s = true <-> exists p' s', matches r None s p' s'.
Proof.
  split.
  - intros H. apply test_iff in H as (s1 & s2 & p' & s' & -> & H).
    apply matches_seq_inv in H as (p1 & t1 & Hb & Hr).
    apply matches_bol_inv in Hb as (Hp & -> & ->).
    apply prev_after_none in Hp as ->. eauto.
  - intros (p' & s' & H). eapply test_anchored, H.
Qed.

(** X24.  The address check of the registration and allowed-email handlers
    accepts exactly the texts of the form local@domain.tail in which the
    three parts are not empty and hold neither white space nor another
    [@]; the text is not trimmed first, so an address with a leading or
    trailing blank is refused. *)
Theorem email_format_iff (email : jsstring) :
  test Validators.emailRegex email = true
  <-> exists l d t,
        email = l ++ [64%N] ++ d ++ [46%N] ++ t
        /\ email_part l /\ email_part d /\ email_part t.
Proof.
  unfold Validators.emailRegex. rewrite test_anchored_iff. split.
  - intros (p' & s' & H).
    apply matches_seq_inv in H as (p1 & s1 & Hl & H).
    apply matches_plus_cls_inv in Hl as (l & Hl0 & -> & -> & Hl).
    apply matches_seq_inv in H as (p2 & s2 & Hat & H).
    apply matches_chr_inv in Hat as (-> & ->).
    apply matches_seq_inv in H as (p3 & s3 & Hd & H).
    apply matches_plus_cls_inv in Hd as (d & Hd0 & -> & -> & Hd).
    apply matches_seq_inv in H as (p4 & s4 & Hdot & H).
    apply matches_chr_inv in Hdot as (-> & ->).
    apply matches_seq_inv in H as (p5 & s5 & Ht & H).
    apply matches_plus_cls_inv in Ht as (t & Ht0 & -> & -> & Ht).
    apply matches_eol_inv in H as (-> & -> & ->).
    exists l, d, t. rewrite app_nil_r. repeat split; assumption.
  - intros (l & d & t & -> & [Hl0 Hl] & [Hd0 Hd] & [Ht0 Ht]).
    exists (prev_after (Some 46%N) t), [].
    replace (l ++ [64%N] ++ d ++ [46%N] ++ t)
      with (l ++ [64%N] ++ d ++ [46%N] ++ t ++ [])
      by (rewrite app_nil_r; reflexivity).
    econstructor; [apply matches_plus_cls; eassumption|].
    econstructor; [apply matches_chr_inv; split; reflexivity|].
    econstructor; [apply matches_plus_cls; eassumption|].
    econstructor; [apply matches_chr_inv; split; reflexivity|].
    econstructor; [apply matches_plus_cls; eassumption|].
    apply m_eol.
Qed.

Lemma matches_digits_1_3 p s p' s' :
  matches Validators.digits_1_3 p s p' s'
  <-> exists w, octet_text w /\ s = w ++ s' /\ p' = prev_after p w.
Proof.
  unfold Validators.digits_1_3, Opt, octet_text. split.
  - intros H.
    apply matches_seq_inv in H as (p1 & s1 & H1 & H).
    apply matches_cls_inv in H1 as (c1 & -> & Hc1 & ->).
    apply matches_alt_inv in H as [H|H].
    + apply matches_seq_inv in H as (p2 & s2 & H2 & H).
      apply matches_cls_inv in H2 as (c2 & -> & Hc2 & ->).
      apply matches_alt_inv in H as [H|H].
      * apply matches_cls_inv in H as (c3 & -> & Hc3 & ->).
        exists [c1; c2; c3]. repeat split; cbn; try lia.
        repeat constructor; assumption.
      * apply matches_eps_inv in H as (-> & ->).
        exists [c1; c2]. repeat split; cbn; try lia.
        repeat constructor; assumption.
    + apply matches_eps_inv in H as (-> & ->).
      exists [c1]. repeat split; cbn; try lia.
      repeat constructor; assumption.
  - intros (w & [Hlen Hall] & -> & ->).
    destruct w as [|c1 [|c2 [|c3 [|c4 w]]]]; cbn in Hlen; try lia.
    + inversion Hall as [|? ? Hc1 _]; subst.
      econstructor; [constructor; exact Hc1|]. apply m_alt_r. constructor.
    + inversion Hall as [|? ? Hc1 Hall']; subst.
      inversion Hall' as [|? ? Hc2 _]; subst.
      econstructor; [constructor; exact Hc1|]. apply m_alt_l.
      econstructor; [constructor; exact Hc2|]. apply m_alt_r. constructor.
    + inversion Hall as [|? ? Hc1 Hall']; subst.
      inversion Hall' as [|? ? Hc2 Hall'']; subst.
      inversion Hall'' as [|? ? Hc3 _]; subst.
      econstructor; [constructor; exact Hc1|]. apply m_alt_l.
      econstructor; [constructor; exact Hc2|]. apply m_alt_l.
      constructor. exact Hc3.
Qed.

Lemma matches_ip_group p s p' s' :
  matches Validators.ip_group p s p' s'
  <-> exists w, octet_text w /\ s = w ++ [46%N] ++ s' /\ p' = Some 46%N.
Proof.
  unfold Validators.ip_group. rewrite matches_seq_inv. split.
  - intros (p1 & s1 & Hd & Hc).
    apply matches_digits_1_3 in Hd as (w & Hw & -> & ->).
    apply matches_chr_inv in Hc as (-> & ->). eauto.
  - intros (w & Hw & -> & ->). eexists _, _. split.
    + apply matches_digits_1_3. eauto.
    + apply matches_chr_inv. split; reflexivity.
Qed.

(** X25.  The validator of the address of a server accepts exactly the
    texts made of four groups of one to three decimal digits separated by
    dots.  The value of a group is not looked at: a group such as 999 is
    accepted. *)
Theorem ip_validator_iff (v : jsstring) :
  Validators.ip_validator v = true
  <-> exists a b c d,
        v = a ++ [46%N] ++ b ++ [46%N] ++ c ++ [46%N] ++ d
        /\ octet_text a /\ octet_text b /\ octet_text c /\ octet_text d.
Proof.
  unfold Validators.ip_validator, Validators.ip_re.
  rewrite test_anchored_iff. split.
  - intros (p' & s' & H).
    apply matches_seq_inv in H as (p1 & s1 & Ha & H).
    apply matches_ip_group in Ha as (a & Ha & -> & ->).
    apply matches_seq_inv in H as (p2 & s2 & Hb & H).
    apply matches_ip_group in Hb as (b & Hb & -> & ->).
    apply matches_seq_inv in H as (p3 & s3 & Hc & H).
    apply matches_ip_group in Hc as (c & Hc & -> & ->).
    apply matches_seq_inv in H as (p4 & s4 & Hd & H).
    apply matches_digits_1_3 in Hd as (d & Hd & -> & ->).
    apply matches_eol_inv in H as (-> & -> & ->).
    exists a, b, c, d. rewrite app_nil_r. split; [reflexivity|].
    repeat (split; [assumption|]). assumption.
  - intros (a & b & c & d & -> & Ha & Hb & Hc & Hd).
    exists (prev_after (Some 46%N) d), [].
    replace (a ++ [46%N] ++ b ++ [46%N] ++ c ++ [46%N] ++ d)
      with (a ++ [46%N] ++ b ++ [46%N] ++ c ++ [46%N] ++ d ++ [])
      by (rewrite app_nil_r; reflexivity).
    econstructor; [apply matches_ip_group; eauto|].
    econstructor; [apply matches_ip_group; eauto|].
    econstructor; [apply matches_ip_group; eauto|].
    econstructor; [apply matches_digits_1_3; eauto|].
    apply m_eol.
Qed.

Lemma email_format_iff_witness :
  test Validators.emailRegex (js "ann@lab.example.org") = true.
Proof.
  apply (proj2 (email_format_iff (js "ann@lab.example.org"))).
  exists (js "ann"), (js "lab.example"), (js "org").
  split; [reflexivity|].
  repeat split; try discriminate; repeat constructor.
Defined.

Lemma ip_validator_iff_witness :
  Validators.ip_validator (js "999.1.22.333") = true.
Proof.
  apply (proj2 (ip_validator_iff (js "999.1.22.333"))).
  exists (js "999"), (js "1"), (js "22"), (js "333").
  split; [reflexivity|].
  repeat split; cbn; try lia; repeat constructor.
Defined.

(* ===================================================================== *)
(** ** The request of the terminal page, as the server reads it *)
(* ===================================================================== *)

Lemma page_request_valid data b :
  truthy (get data "host") = true ->
  truthy (get data "username") = true ->
  truthy (get data "password") = true ->
  truthy (get data "userId") = true ->
  valid_request (Client.sshConnectionData data b) = true.
Proof.
  intros Hh Hu Hp Hi.
  unfold valid_request, Client.sshConnectionData, extractUserData.
  cbn. rewrite Hh, Hu, Hp, Hi. reflexivity.
Qed.


(** One listener on any chunk: what it emits and what it leaves. *)
Lemma onSshInput_emits h input env st :
  let st' := (onSshInput h input env st).2 in
  inputHandlers st' = inputHandlers st
  /\ (forall j, streamUsable j st' = streamUsable j st)
  /\ emitted st'
     = emitted st
       ++ (if streamUsable (h_stream h) st then []
           else [ssh_error connection_lost]).
Proof.
  cbv zeta.
  input_cases h input env st saveCurrentSession_some;
    (split; [reflexivity|]);
    (split; [|rewrite ?app_nil_r; reflexivity]);
    intros j; unfold streamUsable; state_simpl;
    try reflexivity;
    (destruct (decide (h_stream h = j)) as [<-|Hne];
     [rewrite list_lookup_alter_eq;
      destruct (streams st !! h_stream h); reflexivity
     |rewrite list_lookup_alter_ne by exact Hne; reflexivity]).
Qed.

Lemma callInputHandlers_emits hs input env st :
  let st' := (callInputHandlers hs input env st).2 in
  inputHandlers st' = inputHandlers st
  /\ (forall j, streamUsable j st' = streamUsable j st)
  /\ emitted st'
     = emitted st
       ++ replicate
            (length (filter (fun h => streamUsable (h_stream h) st = false)
                            hs))
            (ssh_error connection_lost).
Proof.
  revert st. induction hs as [|h hs IH]; intros st; cbn [callInputHandlers].
  - cbn. rewrite app_nil_r. repeat split.
  - handler_steps.
    destruct (onSshInput_emits h input env st) as (Hh & Hu & Hem).
    destruct (onSshInput h input env st) as [[[]|e] st1]; cbn [snd] in *;
      destruct (IH st1) as (Hh' & Hu' & Hem');
      (split; [congruence|]);
      (split; [intros j; rewrite Hu', Hu; reflexivity|]);
      rewrite Hem', Hem, (filter_usable_ext st1 st _ hs Hu), filter_cons;
      destruct (streamUsable (h_stream h) st) eqn:Hus;
      [rewrite decide_False by discriminate; rewrite app_nil_r; reflexivity
      |rewrite decide_True by reflexivity; rewrite <- app_assoc; reflexivity
      |rewrite decide_False by discriminate; rewrite app_nil_r; reflexivity
      |rewrite decide_True by reflexivity; rewrite <- app_assoc; reflexivity].
Qed.

Lemma last_app_replicate {A} (l : list A) n (x : A) :
  last (l ++ replicate (Datatypes.S n) x) = Some x.
Proof.
  assert (H : last (replicate (Datatypes.S n) x) = Some x).
  { induction n as [|n IH]; [reflexivity|].
    change (replicate (Datatypes.S (Datatypes.S n)) x)
      with (x :: replicate (Datatypes.S n) x).
    rewrite last_cons, IH. reflexivity. }
  rewrite last_app, H. reflexivity.
Qed.

(** X27.  Once a shell of a connection has closed, its input listener
    stays and answers every chunk with an error event; the terminal page
    answers an error event with a new connect request on the same socket.
    Such a request opens a further session and adds a listener while the
    stale listener stays, so the same happens again at the next chunk. *)
Theorem stale_listener_reconnect_loop (st : State) (h : InputHandler)
        (str : Stream) (input : jsstring) (ienv : InputEnv) (data : JsVal)
        (b : Client.Browser) (env : ConnectEnv) :
  h ∈ inputHandlers st ->
  streams st !! h_stream h = Some str ->
  destroyed str = true ->
  truthy (get data "host") = true ->
  truthy (get data "username") = true ->
  truthy (get data "password") = true ->
  truthy (get data "userId") = true ->
  ssh_connect env = None ->
  session_save env = Saved ->
  request_shell env = None ->
  let st1 := step st (SshInput input ienv) in
  let st2 := step st1 (SshConnect (Client.sshConnectionData data b) env) in
  last (emitted st1) = Some (ssh_error connection_lost)
  /\ (exists s, currentSession st2 = Some s
                /\ sessionStore st2 !! nextId st1 = Some s
                /\ S.status s = S.active)
  /\ length (inputHandlers st2) = Datatypes.S (length (inputHandlers st))
  /\ h ∈ inputHandlers st2
  /\ streams st2 !! h_stream h = Some str.
Proof.
  intros Hin Hstr Hd Hh Hu Hp Hi Hc Hs Hr st1 st2.
  assert (Hst1 : st1 = (callInputHandlers (inputHandlers st) input ienv st).2)
    by reflexivity.
  destruct (callInputHandlers_emits (inputHandlers st) input ienv st)
    as (Hhs & Husable & Hem).
  rewrite <- Hst1 in Hhs, Husable, Hem.
  destruct (ext_streams _ _ (extends_step st (SshInput input ienv))
              (h_stream h) str Hstr) as (str' & Hstr' & _ & Hsame).
  fold st1 in Hstr'. rewrite (Hsame Hd) in Hstr'. clear Hsame str'.
  destruct (connect_success (Client.sshConnectionData data b) env st1
              (page_request_valid data b Hh Hu Hp Hi) Hc Hs Hr)
    as (s2 & st2' & Hrun & Hid & Hact & _ & _ & Hcur & Hstore & _ & _ & _
        & Hstreams & Hhandlers & _).
  assert (Hst2 : st2 = st2')
    by (unfold st2, step; cbn [handle]; rewrite Hrun; reflexivity).
  rewrite Hst2. clear Hst2 st2.
  split; [|split; [|split; [|split]]].
  - rewrite Hem.
    assert (Hstale : (0 < length (filter
                                    (fun h => streamUsable (h_stream h) st
                                              = false)
                                    (inputHandlers st)))%nat).
    { assert (Hm : h ∈ filter (fun h => streamUsable (h_stream h) st = false)
                              (inputHandlers st)).
      { apply list_elem_of_filter. split; [|exact Hin].
        unfold streamUsable. rewrite Hstr, Hd. reflexivity. }
      destruct (filter _ _); [inversion Hm|cbn; lia]. }
    destruct (length _); [lia|]. apply last_app_replicate.
  - exists s2. split; [exact Hcur|]. split; [|exact Hact].
    rewrite Hstore, <- Hid. apply lookup_insert_eq.
  - rewrite Hhandlers, Hhs, length_app. cbn. lia.
  - rewrite Hhandlers, Hhs. apply elem_of_app. left. exact Hin.
  - rewrite Hstreams. rewrite lookup_app_l; [exact Hstr'|].
    apply lookup_lt_Some in Hstr'. exact Hstr'.
Qed.

Lemma stale_listener_reconnect_loop_witness :
  let st := run [SshConnect sample_request (connect_ok 0);
                 StreamClose 0 10 Saved]
                (connection "s" ∅ ∅ ∅ 0) in
  let data := JObj [("host", JStr (js "10.0.0.1"));
                    ("username", JStr (js "root"));
                    ("password", JStr (js "secret"));
                    ("userId", JStr (js "u1"))]%string in
  let b := Client.mkBrowser (JStr (js "agent")) (JStr []) (JStr []) in
  let h := mkHandler 0 (extractUserData sample_request)
                     (JStr (js "10.0.0.1")) in
  let st1 := step st (SshInput (js "l") (mkInputEnv Saved Saved 20)) in
  let st2 := step st1 (SshConnect (Client.sshConnectionData data b)
                         (connect_ok 3020)) in
  last (emitted st1) = Some (ssh_error connection_lost)
  /\ (exists s, currentSession st2 = Some s
                /\ sessionStore st2 !! nextId st1 = Some s
                /\ S.status s = S.active)
  /\ length (inputHandlers st2) = Datatypes.S (length (inputHandlers st))
  /\ h ∈ inputHandlers st2
  /\ streams st2 !! h_stream h = Some (mkStream true []).
Proof.
  intros st data b h.
  refine (stale_listener_reconnect_loop st h (mkStream true [])
            (js "l") (mkInputEnv Saved Saved 20) data b (connect_ok 3020)
            _ eq_refl eq_refl eq_refl eq_refl eq_refl eq_refl eq_refl
            eq_refl eq_refl).
  vm_compute. left.
Defined.

(* ===================================================================== *)
(** ** The REST handlers over the registry *)
(* ===================================================================== *)

(** X28.  [GET /api/server-stats] never succeeds.  The constant
    [activeSessions] that the handler declares hides the session registry
    in the whole block, also in its own initializer, which therefore
    reads a constant that has no value yet: whatever the four counts and
    the registry are, the answer is the 500 failure. *)
Theorem server_stats_always_fails (env : Rest.StatsEnv)
        (registry : gmap string RegistryEntry) :
  Rest.serverStats env registry = Rest.stats_failed.
Proof.
  unfold Rest.serverStats.
  destruct env as [[t|] [a|] [i|] [m|]]; reflexivity.
Qed.

Lemma size_but_one {A} (m m' : gmap string A) (k : string) :
  (forall j, j <> k -> m' !! j = m !! j) ->
  (size m' <= Datatypes.S (size m))%nat
  /\ (size m <= Datatypes.S (size m'))%nat.
Proof.
  intros H.
  assert (Hd : delete k m' = delete k m).
  { apply map_eq. intros j. destruct (decide (j = k)) as [->|Hne].
    - rewrite !lookup_delete_eq. reflexivity.
    - rewrite !lookup_delete_ne by congruence. apply H, Hne. }
  pose proof (f_equal size Hd) as Hs.
  assert (Hb : forall n : gmap string A,
             (size (delete k n) <= size n <= Datatypes.S (size (delete k n)))
             %nat).
  { intros n. rewrite map_size_delete.
    destruct (n !! k); cbn [id]; lia. }
  pose proof (Hb m). pose proof (Hb m'). lia.
Qed.

(** X29.  The count that [GET /api/active-sessions] reports is a count of
    connections: whatever happens on one connection, and however many
    sessions it opens, the count moves by at most one. *)
Theorem active_sessions_count_per_connection (es : list Event)
        (st : State) :
  let before := Rest.activeSessionsCount (activeSessions st) in
  let after := Rest.activeSessionsCount (activeSessions (run es st)) in
  (after <= Datatypes.S before)%nat /\ (before <= Datatypes.S after)%nat.
Proof.
  cbv zeta. unfold Rest.activeSessionsCount.
  apply (size_but_one _ _ (socket_id st)).
  intros j Hj. apply (ext_registry _ _ (extends_run es st)), Hj.
Qed.
